(** * Zoltra CLI builder: the argument parser and the command dispatcher

    A shallow embedding of [src/parser.ts] (class [ZoltraCLIParser]) and of
    [src/builder.ts] (class [ZoltraCLIBuilder]), followed by the properties
    of the parsing and command-resolution engine.

    Conventions of the embedding.
    - A JavaScript string is a [string]: a sequence of code units below 256.
      In that range the line terminators are LF and CR, and a [for .. of]
      loop over a string visits one code unit at a time.
    - A JavaScript object used as a dictionary ([ParsedArgs.options]) and the
      static [Map] of the option cache are finite maps ([gmap]) with string
      keys: the properties of the object itself.  Reading a key of
      [ParsedArgs.options] also sees the members that every object inherits
      from [Object.prototype] ([is_undefined]); the key [__proto__] is bound
      like any other key.
    - [throw new Error(msg)] is a value of [CLIError]; [message] renders the
      text the source builds.
    - The static cache is threaded through every call that reads or writes
      it: a function that touches the cache takes the cache and returns the
      new one, also when it throws.
    - A Number is an IEEE 754 binary64 value, and [parseFloat] returns the
      one nearest to the literal it reads (ties to even), as V8 does for
      every literal and as ECMAScript requires up to twenty significant
      digits. *)

From Stdlib Require Import Ascii String ZArith Floats.SpecFloat.
From stdpp Require Import base decidable option list strings pretty gmap fin_maps.

Local Open Scope string_scope.

(** ** Characters and strings *)

Definition char_code (c : ascii) : N := N_of_ascii c.

Definition in_range (lo hi : N) (c : ascii) : bool :=
  ((lo <=? char_code c) && (char_code c <=? hi))%N.

(** [[a-z]], [[A-Z]], [[0-9]] *)
Definition is_lower (c : ascii) : bool := in_range 97 122 c.
Definition is_upper (c : ascii) : bool := in_range 65 90 c.
Definition is_digit (c : ascii) : bool := in_range 48 57 c.

(** [[a-zA-Z]] *)
Definition is_letter (c : ascii) : bool := is_lower c || is_upper c.

(** [[a-zA-Z0-9]] *)
Definition is_alnum (c : ascii) : bool := is_letter c || is_digit c.

(** [[a-zA-Z0-9_-]] *)
Definition is_name_char (c : ascii) : bool :=
  is_alnum c || bool_decide (c = "_"%char) || bool_decide (c = "-"%char).

(** The characters the regular-expression dot does not match. *)
Definition is_line_terminator (c : ascii) : bool :=
  bool_decide (char_code c = 10%N) || bool_decide (char_code c = 13%N).

(** White space as [String.prototype.trim] and [parseFloat] see it:
    TAB, LF, VT, FF, CR, SP and NBSP. *)
Definition is_js_space (c : ascii) : bool :=
  in_range 9 13 c || bool_decide (char_code c = 32%N)
  || bool_decide (char_code c = 160%N).

Fixpoint string_forallb (p : ascii → bool) (s : string) : bool :=
  match s with
  | EmptyString => true
  | String c r => p c && string_forallb p r
  end.

(** The longest prefix whose characters satisfy [p], and the rest. *)
Fixpoint span (p : ascii → bool) (s : string) : string * string :=
  match s with
  | EmptyString => (EmptyString, EmptyString)
  | String c r =>
      if p c then let '(a, b) := span p r in (String c a, b)
      else (EmptyString, s)
  end.

Fixpoint drop_while (p : ascii → bool) (s : string) : string :=
  match s with
  | EmptyString => EmptyString
  | String c r => if p c then drop_while p r else s
  end.

(** [s.startsWith(p)] *)
Definition startsWith (p s : string) : bool := String.prefix p s.

(** [s.slice(1)] *)
Definition slice1 (s : string) : string :=
  match s with
  | EmptyString => EmptyString
  | String _ r => r
  end.

(** A JavaScript string is truthy when it is not empty. *)
Definition truthy_string (s : string) : bool :=
  match s with
  | EmptyString => false
  | String _ _ => true
  end.

(** The upper-case letters below 256: [A] to [Z], and the accented capitals
    from 192 to 222 except the multiplication sign. *)
Definition has_lower_case (c : ascii) : bool :=
  is_upper c
  || (in_range 192 222 c && negb (bool_decide (char_code c = 215%N))).

Definition to_lower_char (c : ascii) : ascii :=
  if has_lower_case c then ascii_of_N (char_code c + 32) else c.

(** [s.toLowerCase()] *)
Fixpoint toLowerCase (s : string) : string :=
  match s with
  | EmptyString => EmptyString
  | String c r => String (to_lower_char c) (toLowerCase r)
  end.

(** [s.trim()] *)
Definition trim (s : string) : string :=
  String.rev (drop_while is_js_space (String.rev (drop_while is_js_space s))).

(** [s.split(sep)] for a one-character separator. *)
Fixpoint split_on (sep : ascii) (s : string) : list string :=
  match s with
  | EmptyString => [EmptyString]
  | String c r =>
      if bool_decide (c = sep) then EmptyString :: split_on sep r
      else match split_on sep r with
           | h :: t => String c h :: t
           | [] => [String c EmptyString]
           end
  end.

(** [l.join(sep)] *)
Fixpoint join (sep : string) (l : list string) : string :=
  match l with
  | [] => EmptyString
  | [x] => x
  | x :: r => x +:+ sep +:+ join sep r
  end.

(** The characters of a string, each as a one-character string: what
    [for (const ch of s)] iterates over. *)
Fixpoint chars (s : string) : list string :=
  match s with
  | EmptyString => []
  | String c r => String c EmptyString :: chars r
  end.

(** ** Numbers *)

(** A JavaScript Number is an IEEE 754 binary64 value: a [spec_float] read
    with a significand of 53 bits and exponents up to 1024.  [S754_nan] is
    [NaN]; [S754_finite s m e] is [m * 2^e] with the sign [s]. *)
Definition binary64_prec : Z := 53.
Definition binary64_emax : Z := 1024.

(** [isNaN(x)] on a Number. *)
Definition isNaN (x : spec_float) : bool :=
  match x with
  | S754_nan => true
  | _ => false
  end.

(** The Number value of [m * 10^e] with the sign [neg]: the binary64 value
    nearest to it, ties to the even significand; a value too large becomes an
    infinity, one too small a zero of the same sign.  For [e < 0] the
    quotient of [m] by [10^(-e)] is rounded, with the remainder deciding the
    direction. *)
Definition number_value (neg : bool) (m : N) (e : Z) : spec_float :=
  match m with
  | N0 => S754_zero neg
  | Npos p =>
      match e with
      | Z0 => binary_round binary64_prec binary64_emax neg p 0
      | Zpos k => binary_round binary64_prec binary64_emax neg (p * 10 ^ k) 0
      | Zneg k =>
          let '(q, e', l) :=
            SFdiv_core_binary binary64_prec binary64_emax
              (Zpos p) 0 (Zpos (10 ^ k)) 0 in
          binary_round_aux binary64_prec binary64_emax neg q e' l
      end
  end.

Definition digit_value (c : ascii) : N := (char_code c - 48)%N.

Fixpoint digits_value (acc : N) (s : string) : N :=
  match s with
  | EmptyString => acc
  | String c r => digits_value (10 * acc + digit_value c)%N r
  end.

(** An optional sign at the head of [t]: whether it is a minus, and the rest. *)
Definition split_sign (t : string) : bool * string :=
  match t with
  | String c u =>
      if bool_decide (c = "+"%char) then (false, u)
      else if bool_decide (c = "-"%char) then (true, u)
      else (false, t)
  | EmptyString => (false, t)
  end.

(** The optional [ExponentPart] at the head of [s]: [e] or [E], an optional
    sign and at least one digit.  Anything else is no exponent. *)
Definition read_exponent (s : string) : Z :=
  match s with
  | String c r =>
      if bool_decide (c = "e"%char) || bool_decide (c = "E"%char) then
        let '(neg, r') := split_sign r in
        let '(ds, _) := span is_digit r' in
        if truthy_string ds then
          let e := Z.of_N (digits_value 0 ds) in
          if neg then (- e)%Z else e
        else 0%Z
      else 0%Z
  | EmptyString => 0%Z
  end.

(** The digits after a decimal point at the head of [rest], and what
    follows them; no point, no digits. *)
Definition read_fraction (rest : string) : string * string :=
  match rest with
  | String c r =>
      if bool_decide (c = "."%char) then span is_digit r
      else (EmptyString, rest)
  | EmptyString => (EmptyString, rest)
  end.

(** The longest prefix of [u] that is a [StrUnsignedDecimalLiteral]:
    [Infinity], or digits with an optional fraction, or a point and digits,
    and then an optional exponent.  The literal [d1..dj.f1..fk e x] denotes
    [d1..dj f1..fk * 10^(x - k)]; no literal gives [NaN]. *)
Definition read_unsigned (neg : bool) (u : string) : spec_float :=
  if String.prefix "Infinity" u then S754_infinity neg
  else
    let '(int_part, rest) := span is_digit u in
    let '(frac_part, rest') := read_fraction rest in
    if truthy_string int_part || truthy_string frac_part then
      number_value neg
        (digits_value 0 (int_part +:+ frac_part))
        (read_exponent rest' - Z.of_nat (String.length frac_part))
    else S754_nan.

(** [parseFloat(s)]: skip leading white space, then read the longest prefix
    that is a [StrDecimalLiteral]. *)
Definition parseFloat (s : string) : spec_float :=
  let '(neg, u) := split_sign (drop_while is_js_space s) in
  read_unsigned neg u.

(** ** The data model ([src/types.ts]) *)

Inductive OptionType := TString | TNumber | TBoolean | TArray.

(** The values an option is bound to. *)
Inductive Value :=
  | VBool (b : bool)
  | VNum (n : spec_float)
  | VStr (s : string)
  | VArr (l : list string).

Record CLIOption := {
  name : string;
  alias : option string;
  description : string;
  type : OptionType;
  required : bool;
  default : option Value;
  choices : option (list string);
}.

Record CLIArgument := {
  arg_name : string;
  arg_description : string;
  arg_required : bool;
  variadic : bool;
}.

Record ParsedArgs := {
  command : list string;
  options : gmap string Value;
  args : list string;
}.

(** The members that an object literal inherits from [Object.prototype]:
    under these keys [obj[key]] is a function (an object for [__proto__])
    although [obj] has no property of its own. *)
Definition object_prototype_members : list string :=
  ["constructor"; "__defineGetter__"; "__defineSetter__"; "hasOwnProperty";
   "__lookupGetter__"; "__lookupSetter__"; "isPrototypeOf";
   "propertyIsEnumerable"; "toString"; "valueOf"; "__proto__";
   "toLocaleString"].

(** [obj[key] === undefined] on the options of a parsed result: the object
    has no property [key] of its own and inherits none.  (A property of its
    own is never [undefined]: the parser binds defaults that are not
    [undefined] and the results of the coercion.) *)
Definition is_undefined (obj : gmap string Value) (key : string) : bool :=
  bool_decide (obj !! key = None)
  && negb (bool_decide (key ∈ object_prototype_members)).

Global Instance OptionType_eq_dec : EqDecision OptionType.
Proof. solve_decision. Defined.
Global Instance spec_float_eq_dec : EqDecision spec_float.
Proof. solve_decision. Defined.
Global Instance Value_eq_dec : EqDecision Value.
Proof. solve_decision. Defined.
Global Instance CLIOption_eq_dec : EqDecision CLIOption.
Proof. solve_decision. Defined.

(** ** Errors *)

Inductive CLIError :=
  | InvalidOptionFormat (token : string)
  | ExpectsNumber (option_name value : string)
  | MustBeOneOf (option_name : string) (allowed : list string)
  | MissingRequiredArgument (argument_name : string)
  | MissingRequiredOption (option_name : string) (option_alias : option string)
  | UnknownCommand (command_name : string).

Definition alias_suffix (a : option string) : string :=
  match a with
  | Some a' => if truthy_string a' then " (-" +:+ a' +:+ ")" else ""
  | None => ""
  end.

(** The text of the [Error] the source throws. *)
Definition message (e : CLIError) : string :=
  match e with
  | InvalidOptionFormat t => "Invalid option format: " +:+ t
  | ExpectsNumber n v => "Option " +:+ n +:+ " expects a number, got: " +:+ v
  | MustBeOneOf n cs => "Option " +:+ n +:+ " must be one of: " +:+ join ", " cs
  | MissingRequiredArgument n => "Missing required argument: " +:+ n
  | MissingRequiredOption n a =>
      "Missing required option: --" +:+ n +:+ alias_suffix a
  | UnknownCommand n => "Unknown command: " +:+ n
  end.

Inductive Result (A : Type) :=
  | Ok (a : A)
  | Throw (e : CLIError).
Arguments Ok {A} a.
Arguments Throw {A} e.

(** What [parseOption] and the prompt hand to the coercer: [string | boolean]. *)
Inductive RawValue :=
  | RawString (s : string)
  | RawBool (b : bool).

(** The static [optionCache]: [Map<string, CLIOption | null>]. *)
Abbreviation Cache := (gmap string (option CLIOption)).

(** ** The parser ([src/parser.ts]) *)

Module ZoltraCLIParser.

(** The pattern [^ - -? ( [a-zA-Z] [a-zA-Z0-9_-]* ) (?: = ( .+ ) )? $]: the name captured by the
    first group and, when the second group took part in the match, the value.
    A letter is not a dash and a name character is not [=], so the match,
    when there is one, is unique. *)
Definition OPTION_REGEX (token : string) : option (string * option string) :=
  match token with
  | String d rest =>
      if bool_decide (d = "-"%char) then
        let body :=
          match rest with
          | String d' r => if bool_decide (d' = "-"%char) then r else rest
          | EmptyString => rest
          end in
        match body with
        | String c _ =>
            if is_letter c then
              let '(nm, tail) := span is_name_char body in
              match tail with
              | EmptyString => Some (nm, None)
              | String e v =>
                  if bool_decide (e = "="%char) && truthy_string v
                     && string_forallb (λ x, negb (is_line_terminator x)) v
                  then Some (nm, Some v) else None
              end
            else None
        | EmptyString => None
        end
      else None
  | EmptyString => None
  end.

(** The pattern [^ - ( [a-zA-Z0-9]+ ) $]. *)
Definition SHORT_OPTION_REGEX (token : string) : option string :=
  match token with
  | String d rest =>
      if bool_decide (d = "-"%char) && truthy_string rest
         && string_forallb is_alnum rest
      then Some rest else None
  | EmptyString => None
  end.

Definition clearCache (cache : Cache) : Cache := ∅.

Definition isOption (token : string) : bool :=
  bool_decide (is_Some (OPTION_REGEX token)).

(** [nextToken && !this.isOption(nextToken)], for [nextToken = tokens[index + 1]] *)
Definition next_is_value (tokens : list string) (index : nat) : option string :=
  match tokens !! (index + 1) with
  | Some nextToken =>
      if truthy_string nextToken && negb (isOption nextToken)
      then Some nextToken else None
  | None => None
  end.

Definition parseOption (token : string) (tokens : list string) (index : nat)
  : Result (string * RawValue) :=
  match OPTION_REGEX token with
  | Some (nm, value) =>
      if negb (truthy_string nm) then Throw (InvalidOptionFormat token)
      else match value with
           | Some v => Ok (nm, RawString v)
           | None =>
               match next_is_value tokens index with
               | Some nextToken => Ok (nm, RawString nextToken)
               | None => Ok (nm, RawBool true)
               end
           end
  | None =>
      match SHORT_OPTION_REGEX token with
      | Some nm =>
          if negb (truthy_string nm) then Throw (InvalidOptionFormat token)
          else match next_is_value tokens index with
               | Some nextToken => Ok (nm, RawString nextToken)
               | None => Ok (nm, RawBool true)
               end
      | None => Throw (InvalidOptionFormat token)
      end
  end.

Definition parseOptionValue (value : RawValue) (option : CLIOption)
  : Result Value :=
  match value with
  | RawBool b => Ok (VBool b)
  | RawString value =>
      match type option with
      | TNumber =>
          let num := parseFloat value in
          if isNaN num then Throw (ExpectsNumber (name option) value)
          else Ok (VNum num)
      | TBoolean =>
          Ok (VBool (bool_decide (toLowerCase value = "true")
                     || bool_decide (value = "1")))
      | TArray => Ok (VArr (map trim (split_on "," value)))
      | TString =>
          match choices option with
          | Some cs =>
              if negb (bool_decide (value ∈ cs))
              then Throw (MustBeOneOf (name option) cs)
              else Ok (VStr value)
          | None => Ok (VStr value)
          end
      end
  end.

(** [options.find((opt) => opt.name === name || opt.alias === name) || null] *)
Definition find_by_name_or_alias (schema : list CLIOption) (nm : string)
  : option CLIOption :=
  List.find
    (λ opt, bool_decide (name opt = nm) || bool_decide (alias opt = Some nm))
    schema.

(** [options.find((opt) => opt.alias === shortOpt) || null] *)
Definition find_by_alias (schema : list CLIOption) (shortOpt : string)
  : option CLIOption :=
  List.find (λ opt, bool_decide (alias opt = Some shortOpt)) schema.

(** The two cache keys: [`${name}:${options.length}`] and
    [`alias:${shortOpt}:${options.length}`]. *)
Definition option_key (nm : string) (schema : list CLIOption) : string :=
  nm +:+ ":" +:+ pretty (length schema).

Definition alias_key (shortOpt : string) (schema : list CLIOption) : string :=
  "alias:" +:+ shortOpt +:+ ":" +:+ pretty (length schema).

(** A lookup through the cache: a hit ([cache.get(key) !== undefined]) is
    returned as it is, also when it is [null]; a miss scans the schema and
    stores what the scan found. *)
Definition cached (key : string) (scan : option CLIOption) (cache : Cache)
  : option CLIOption * Cache :=
  match cache !! key with
  | Some option => (option, cache)
  | None => (scan, <[key := scan]> cache)
  end.

Definition lookup_option (nm : string) (schema : list CLIOption) (cache : Cache)
  : option CLIOption * Cache :=
  cached (option_key nm schema) (find_by_name_or_alias schema nm) cache.

Definition lookup_alias (shortOpt : string) (schema : list CLIOption)
    (cache : Cache) : option CLIOption * Cache :=
  cached (alias_key shortOpt schema) (find_by_alias schema shortOpt) cache.

(** The value a cluster character binds its option to. *)
Definition cluster_value (tokens : list string) (i : nat) (option : CLIOption)
  : Value :=
  match type option with
  | TBoolean => VBool true
  | _ =>
      match next_is_value tokens i with
      | Some nextToken => VStr nextToken
      | None => VBool true
      end
  end.

(** The state of the [while] loop of [parse]. *)
Record LoopState := {
  cursor : nat;
  parsed : ParsedArgs;
  optionCache : Cache;
}.

(** One round of [for (const shortOpt of shortOpts)]. *)
Definition cluster_char (tokens : list string) (i : nat)
    (schema : list CLIOption) (acc : gmap string Value * Cache)
    (shortOpt : string) : gmap string Value * Cache :=
  let '(found, cache) := lookup_alias shortOpt schema acc.2 in
  match found with
  | Some option =>
      (<[name option := cluster_value tokens i option]> acc.1, cache)
  | None => (acc.1, cache)
  end.

Inductive Step :=
  | Next (st : LoopState)
  | Raised (e : CLIError) (cache : Cache).

(** The body of the [while] loop, at a cursor inside the token list. *)
Definition step (tokens : list string) (schema : list CLIOption)
    (st : LoopState) : Step :=
  let i := cursor st in
  let p := parsed st in
  match tokens !! i with
  | None => Next st
  | Some token =>
      if negb (truthy_string token) then
        Next {| cursor := i + 1; parsed := p; optionCache := optionCache st |}
      else if isOption token then
        match parseOption token tokens i with
        | Throw e => Raised e (optionCache st)
        | Ok (nm, value) =>
            let '(found, cache) := lookup_option nm schema (optionCache st) in
            match found with
            | Some option =>
                match parseOptionValue value option with
                | Throw e => Raised e cache
                | Ok v =>
                    Next {| cursor := i + 1;
                            parsed := {| command := command p;
                                         options := <[name option := v]> (options p);
                                         args := args p |};
                            optionCache := cache |}
                end
            | None =>
                Next {| cursor := i + 1; parsed := p; optionCache := cache |}
            end
        end
      else if startsWith "-" token then
        let shortOpts := slice1 token in
        let '(opts, cache) :=
          fold_left (cluster_char tokens i schema) (chars shortOpts)
                    (options p, optionCache st) in
        Next {| cursor := i + (if (1 <? String.length shortOpts)%nat then 1 else 2);
                parsed := {| command := command p; options := opts;
                             args := args p |};
                optionCache := cache |}
      else if bool_decide (length (command p) = 0)
              && bool_decide (length (args p) = 0) then
        Next {| cursor := i + 1;
                parsed := {| command := command p ++ [token];
                             options := options p; args := args p |};
                optionCache := optionCache st |}
      else
        Next {| cursor := i + 1;
                parsed := {| command := command p; options := options p;
                             args := args p ++ [token] |};
                optionCache := optionCache st |}
  end.

(** [while (i < tokens.length) { ... }].  Every round moves the cursor
    forward, so [length tokens] rounds are enough ([loop_fuel]). *)
Fixpoint loop (fuel : nat) (tokens : list string) (schema : list CLIOption)
    (st : LoopState) : Step :=
  match fuel with
  | 0 => Next st
  | S fuel' =>
      if (cursor st <? length tokens)%nat then
        match step tokens schema st with
        | Next st' => loop fuel' tokens schema st'
        | Raised e cache => Raised e cache
        end
      else Next st
  end.

(** [for (const option of options) if (option.default !== undefined) ...] *)
Definition seed_defaults (schema : list CLIOption) : gmap string Value :=
  fold_left
    (λ acc option,
       match default option with
       | Some d => <[name option := d]> acc
       | None => acc
       end)
    schema ∅.

(** [parse(argv, options, args)].  The argument schema is not read. *)
Definition parse (argv : list string) (schema : list CLIOption)
    (argSchema : list CLIArgument) (cache : Cache)
  : Result ParsedArgs * Cache :=
  let tokens := drop 2 argv in
  let start :=
    {| cursor := 0;
       parsed := {| command := []; options := seed_defaults schema; args := [] |};
       optionCache := cache |} in
  match loop (length tokens) tokens schema start with
  | Next st => (Ok (parsed st), optionCache st)
  | Raised e cache' => (Throw e, cache')
  end.

Fixpoint validateArgs_from (argIndex : nat) (p : ParsedArgs)
    (argSchema : list CLIArgument) : Result unit :=
  match argSchema with
  | [] => Ok tt
  | arg :: rest =>
      if (length (args p) <=? argIndex)%nat then
        if arg_required arg then Throw (MissingRequiredArgument (arg_name arg))
        else Ok tt
      else if variadic arg then Ok tt
      else validateArgs_from (argIndex + 1) p rest
  end.

Definition validateArgs (p : ParsedArgs) (argSchema : list CLIArgument)
  : Result unit :=
  validateArgs_from 0 p argSchema.

(** The question put to the [prompts] collaborator. *)
Inductive PromptType := Confirm | Text.

Record Question := {
  prompt_type : PromptType;
  prompt_message : string;
  initial : Value;
}.

Definition question_for (option : CLIOption) : Question :=
  {| prompt_type := match type option with TBoolean => Confirm | _ => Text end;
     prompt_message :=
       description option +:+ " (--" +:+ name option +:+
       match alias option with
       | Some a => if truthy_string a then " / -" +:+ a else ""
       | None => ""
       end +:+ "):";
     initial :=
       match default option with
       | Some d => d
       | None =>
           match type option with
           | TNumber => VNum (S754_zero false)
           | TBoolean => VBool false
           | TArray => VStr ""
           | TString => VStr ""
           end
       end |}.

(** The required options for which [parsed.options[option.name]] is
    [undefined], in the order of the schema. *)
Definition missingOptions (p : ParsedArgs) (schema : list CLIOption)
  : list CLIOption :=
  List.filter
    (λ option, required option && is_undefined (options p) (name option))
    schema.

Section Interactive.
(** The prompt collaborator: the answer to a question, [None] when the
    user cancels ([response.value === undefined]). *)
Variable prompts : Question → option RawValue.

Fixpoint ask_all (p : ParsedArgs) (missing : list CLIOption)
  : Result ParsedArgs :=
  match missing with
  | [] => Ok p
  | option :: rest =>
      match prompts (question_for option) with
      | None => Throw (MissingRequiredOption (name option) (alias option))
      | Some answer =>
          match parseOptionValue answer option with
          | Throw e => Throw e
          | Ok v =>
              ask_all {| command := command p;
                         options := <[name option := v]> (options p);
                         args := args p |} rest
          end
      end
  end.

Definition validateOptions (p : ParsedArgs) (schema : list CLIOption)
    (interactive : bool) : Result ParsedArgs :=
  let missing := missingOptions p schema in
  if (0 <? length missing)%nat && interactive then ask_all p missing
  else
    match missing with
    | first :: _ => Throw (MissingRequiredOption (name first) (alias first))
    | [] => Ok p
    end.
End Interactive.

End ZoltraCLIParser.

(** ** The builder and dispatcher ([src/builder.ts]) *)

Module ZoltraCLIBuilder.

Section Dispatch.
(** The type of the handlers: [(args, options) => void | Promise<void>].
    A handler is opaque; calling it is the outcome [Invoked]. *)
Context {Handler : Type}.

(** [CLICommand]; the field [subcommands] is never read by the builder. *)
Record CLICommand := {
  cmd_name : string;
  cmd_description : string;
  aliases : option (list string);
  cmd_options : option (list CLIOption);
  arguments : option (list CLIArgument);
  action : Handler;
}.

Record Builder := {
  commands : list CLICommand;
  globalOptions : list CLIOption;
  cli_name : string;
  version : string;
  cli_description : option string;
  interactive : bool;
}.

(** What a call of [parse] ends in: the help or the version was printed, a
    handler was called with the positionals and the options, or an error
    reached the [catch] block, which prints it and exits with status 1. *)
Inductive Outcome :=
  | HelpShown
  | VersionShown
  | Invoked (handler : Handler) (positionals : list string)
            (opts : gmap string Value)
  | Exited (e : CLIError).

Definition help_option : CLIOption :=
  {| name := "help"; alias := Some "h";
     description := "Show help information"; type := TBoolean;
     required := false; default := None; choices := None |}.

Definition version_option : CLIOption :=
  {| name := "version"; alias := Some "V";
     description := "Show version number"; type := TBoolean;
     required := false; default := None; choices := None |}.

(** The constructor, through [createCLI]. *)
Definition createCLI (nm ver : string) (descr : option string)
    (inter : bool) : Builder :=
  {| commands := []; globalOptions := [help_option; version_option];
     cli_name := nm; version := ver; cli_description := descr;
     interactive := inter |}.

Definition addCommand (b : Builder) (cmd : CLICommand) : Builder :=
  {| commands := commands b ++ [cmd]; globalOptions := globalOptions b;
     cli_name := cli_name b; version := version b;
     cli_description := cli_description b; interactive := interactive b |}.

(** [action(handler)]: registers the default command, whose name is empty. *)
Definition default_action (b : Builder) (handler : Handler) : Builder :=
  addCommand b
    {| cmd_name := ""; cmd_description := "Default command";
       aliases := None; cmd_options := None; arguments := None;
       action := handler |}.

(** Truthiness of the value of [parsed.options.help]. *)
Definition truthy (v : option Value) : bool :=
  match v with
  | None => false
  | Some (VBool b) => b
  | Some (VNum (S754_zero _)) => false
  | Some (VNum S754_nan) => false
  | Some (VNum _) => true
  | Some (VStr s) => truthy_string s
  | Some (VArr _) => true
  end.

(** [(cmd) => cmd.name === commandName || cmd.aliases?.includes(commandName)] *)
Definition matches (commandName : string) (cmd : CLICommand) : bool :=
  bool_decide (cmd_name cmd = commandName)
  || match aliases cmd with
     | Some l => bool_decide (commandName ∈ l)
     | None => false
     end.

(** [parsed.command[0] || ""] *)
Definition tentative_name (p : ParsedArgs) : string :=
  match command p with
  | t :: _ => if truthy_string t then t else ""
  | [] => ""
  end.

(** [this.commands.length === 1 && this.commands[0]?.name === ""] *)
Definition sole_default (cmds : list CLICommand) : option CLICommand :=
  if bool_decide (length cmds = 1) then
    match cmds !! 0 with
    | Some c => if bool_decide (cmd_name c = "") then Some c else None
    | None => None
    end
  else None.

(** [l || []] *)
Definition or_empty {A : Type} (l : option (list A)) : list A :=
  match l with
  | Some l' => l'
  | None => []
  end.

Variable prompts : ZoltraCLIParser.Question → option RawValue.

(** [parse(argv)] of the builder. *)
Definition parse (b : Builder) (argv : list string) (cache : Cache)
  : Outcome * Cache :=
  match ZoltraCLIParser.parse argv (globalOptions b) [] cache with
  | (Throw e, cache1) => (Exited e, cache1)
  | (Ok p, cache1) =>
      if truthy (options p !! "help") then (HelpShown, cache1)
      else if truthy (options p !! "version") then (VersionShown, cache1)
      else
        let commandName := tentative_name p in
        match List.find (matches commandName) (commands b) with
        | None =>
            match sole_default (commands b) with
            | Some c => (Invoked (action c) (args p) (options p), cache1)
            | None => (Exited (UnknownCommand commandName), cache1)
            end
        | Some cmd =>
            let schema := (globalOptions b ++ or_empty (cmd_options cmd))%list in
            let argSchema := or_empty (arguments cmd) in
            match ZoltraCLIParser.parse argv schema argSchema cache1 with
            | (Throw e, cache2) => (Exited e, cache2)
            | (Ok commandParsed, cache2) =>
                match ZoltraCLIParser.validateArgs commandParsed argSchema with
                | Throw e => (Exited e, cache2)
                | Ok _ =>
                    match ZoltraCLIParser.validateOptions prompts
                            commandParsed schema (interactive b) with
                    | Throw e => (Exited e, cache2)
                    | Ok validatedParsed =>
                        (Invoked (action cmd) (args validatedParsed)
                                 (options validatedParsed), cache2)
                    end
                end
            end
        end
  end.
(** [parse(argv)] of the second [ZoltraCLIBuilder] of the source, the
    variant without the interactive mode: the same dispatch, the required
    options not being validated. *)
Definition parse_without_backfill (b : Builder) (argv : list string)
    (cache : Cache) : Outcome * Cache :=
  match ZoltraCLIParser.parse argv (globalOptions b) [] cache with
  | (Throw e, cache1) => (Exited e, cache1)
  | (Ok p, cache1) =>
      if truthy (options p !! "help") then (HelpShown, cache1)
      else if truthy (options p !! "version") then (VersionShown, cache1)
      else
        let commandName := tentative_name p in
        match List.find (matches commandName) (commands b) with
        | None =>
            match sole_default (commands b) with
            | Some c => (Invoked (action c) (args p) (options p), cache1)
            | None => (Exited (UnknownCommand commandName), cache1)
            end
        | Some cmd =>
            let schema := (globalOptions b ++ or_empty (cmd_options cmd))%list in
            let argSchema := or_empty (arguments cmd) in
            match ZoltraCLIParser.parse argv schema argSchema cache1 with
            | (Throw e, cache2) => (Exited e, cache2)
            | (Ok commandParsed, cache2) =>
                match ZoltraCLIParser.validateArgs commandParsed argSchema with
                | Throw e => (Exited e, cache2)
                | Ok _ =>
                    (Invoked (action cmd) (args commandParsed)
                             (options commandParsed), cache2)
                end
            end
        end
  end.

(** [Partial<CLIOption>], the [config] of [option(name, description, config)]:
    a field is [None] when the key is absent. *)
Record OptionConfig := {
  cfg_name : option string;
  cfg_alias : option string;
  cfg_description : option string;
  cfg_type : option OptionType;
  cfg_required : option bool;
  cfg_default : option Value;
  cfg_choices : option (list string);
}.

(** [{ name, description, type: "boolean", ...config }] *)
Definition spread_config (nm descr : string) (config : OptionConfig)
  : CLIOption :=
  {| name := from_option id nm (cfg_name config);
     alias := cfg_alias config;
     description := from_option id descr (cfg_description config);
     type := from_option id TBoolean (cfg_type config);
     required := from_option id false (cfg_required config);
     default := cfg_default config;
     choices := cfg_choices config |}.

(** [option(name, description, config)]: a global option, added last. *)
Definition add_option (b : Builder) (nm descr : string)
    (config : OptionConfig) : Builder :=
  {| commands := commands b;
     globalOptions := (globalOptions b ++ [spread_config nm descr config])%list;
     cli_name := cli_name b; version := version b;
     cli_description := cli_description b; interactive := interactive b |}.

Definition setInteractive (b : Builder) (inter : bool) : Builder :=
  {| commands := commands b; globalOptions := globalOptions b;
     cli_name := cli_name b; version := version b;
     cli_description := cli_description b; interactive := inter |}.

(** The builders that the methods make from [createCLI]. *)
Inductive built : Builder → Prop :=
  | built_createCLI nm ver descr inter : built (createCLI nm ver descr inter)
  | built_addCommand b cmd : built b → built (addCommand b cmd)
  | built_default_action b handler : built b → built (default_action b handler)
  | built_add_option b nm descr config :
      built b → built (add_option b nm descr config)
  | built_setInteractive b inter : built b → built (setInteractive b inter).

End Dispatch.

Arguments CLICommand : clear implicits.
Arguments Builder : clear implicits.
Arguments Outcome : clear implicits.

End ZoltraCLIBuilder.

Import ZoltraCLIParser.

(** ** Notions the properties are stated with *)

(** The default that the seeding loop leaves bound to [nm]: the one of the
    last option of the schema that is called [nm] and declares a default. *)
Fixpoint last_declared_default (schema : list CLIOption) (nm : string)
  : option Value :=
  match schema with
  | [] => None
  | o :: rest =>
      match last_declared_default rest nm with
      | Some v => Some v
      | None => if bool_decide (name o = nm) then default o else None
      end
  end.

(** The first required argument spec that has no positional: the specs are
    matched to the positionals by position. *)
Definition first_absent_required (p : ParsedArgs) (argSchema : list CLIArgument)
  : option CLIArgument :=
  List.find arg_required (drop (length (args p)) argSchema).

Definition no_variadic (argSchema : list CLIArgument) : Prop :=
  Forall (λ a, variadic a = false) argSchema.

(** The argument validator as the specification words it: whenever a
    required spec is left without a positional, the first such spec is
    reported, whatever precedes it. *)
Definition reports_first_absent_required : Prop :=
  ∀ (p : ParsedArgs) (argSchema : list CLIArgument) (a : CLIArgument),
    no_variadic argSchema →
    first_absent_required p argSchema = Some a →
    validateArgs p argSchema = Throw (MissingRequiredArgument (arg_name a)).

(** [u] begins with a [StrUnsignedDecimalLiteral]: with [Infinity], with a
    digit, or with a point that a digit follows. *)
Definition starts_unsigned (u : string) : bool :=
  String.prefix "Infinity" u
  || match u with
     | String c r =>
         is_digit c
         || (bool_decide (c = "."%char)
             && match r with
                | String d _ => is_digit d
                | EmptyString => false
                end)
     | EmptyString => false
     end.

(** The text begins, after white space and an optional sign, with a decimal
    literal. *)
Definition starts_with_number (s : string) : bool :=
  starts_unsigned (split_sign (drop_while is_js_space s)).2.

(** An [ExponentPart] that reaches the end of the text, or nothing. *)
Definition exponent_to_end (s : string) : bool :=
  match s with
  | EmptyString => true
  | String c r =>
      (bool_decide (c = "e"%char) || bool_decide (c = "E"%char))
      && truthy_string (split_sign r).2
      && string_forallb is_digit (split_sign r).2
  end.

(** A numeric text: after white space and an optional sign, the whole of
    the text is one decimal literal. *)
Definition numeric_text (s : string) : bool :=
  let u := (split_sign (drop_while is_js_space s)).2 in
  bool_decide (u = "Infinity")
  || (let '(int_part, rest) := span is_digit u in
      let '(frac_part, rest') := read_fraction rest in
      (truthy_string int_part || truthy_string frac_part)
      && exponent_to_end rest').

(** The coercion of a number as the specification words it: it fails exactly
    on the texts that are not numeric. *)
Definition number_coercion_fails_iff_not_numeric : Prop :=
  ∀ (option : CLIOption) (value : string),
    type option = TNumber →
    (parseOptionValue (RawString value) option
     = Throw (ExpectsNumber (name option) value)
     ↔ numeric_text value = false).

(** *** The parts of a text that begins with a decimal literal *)

Inductive Sign := NoSign | Plus | Minus.

Definition sign_text (s : Sign) : string :=
  match s with
  | NoSign => ""
  | Plus => "+"
  | Minus => "-"
  end.

Definition is_minus (s : Sign) : bool :=
  match s with
  | Minus => true
  | _ => false
  end.

(** An [ExponentPart]: the marker [e] or [E], a sign and digits. *)
Record ExponentPart := {
  exp_marker : ascii;
  exp_sign : Sign;
  exp_digits : string;
}.

(** A [StrDecimalLiteral] other than [Infinity], by its parts: a sign, the
    digits before the point, the digits after the point when there is a
    point, and the exponent part when there is one. *)
Record DecimalLiteral := {
  lit_sign : Sign;
  lit_int : string;
  lit_frac : option string;
  lit_exp : option ExponentPart;
}.

Definition frac_digits (f : option string) : string :=
  match f with
  | Some ds => ds
  | None => ""
  end.

Definition frac_text (f : option string) : string :=
  match f with
  | Some ds => String "." ds
  | None => ""
  end.

Definition exp_text (e : option ExponentPart) : string :=
  match e with
  | Some x => String (exp_marker x) (sign_text (exp_sign x) +:+ exp_digits x)
  | None => ""
  end.

(** The text of the literal. *)
Definition literal_text (l : DecimalLiteral) : string :=
  sign_text (lit_sign l) +:+ lit_int l +:+ frac_text (lit_frac l)
  +:+ exp_text (lit_exp l).

Definition is_exp_marker (c : ascii) : bool :=
  bool_decide (c = "e"%char) || bool_decide (c = "E"%char).

Definition is_sign_char (c : ascii) : bool :=
  bool_decide (c = "+"%char) || bool_decide (c = "-"%char).

Definition is_point (c : ascii) : bool := bool_decide (c = "."%char).

Definition is_exponent_part (x : ExponentPart) : bool :=
  is_exp_marker (exp_marker x)
  && truthy_string (exp_digits x)
  && string_forallb is_digit (exp_digits x).

(** The parts make a literal of the grammar: digits on either side of the
    point, at least one digit in all, and an exponent with at least one
    digit. *)
Definition is_literal (l : DecimalLiteral) : bool :=
  string_forallb is_digit (lit_int l)
  && string_forallb is_digit (frac_digits (lit_frac l))
  && (truthy_string (lit_int l) || truthy_string (frac_digits (lit_frac l)))
  && match lit_exp l with
     | Some x => is_exponent_part x
     | None => true
     end.

Definition exp_value (e : option ExponentPart) : Z :=
  match e with
  | Some x =>
      let v := Z.of_N (digits_value 0 (exp_digits x)) in
      if is_minus (exp_sign x) then (- v)%Z else v
  | None => 0%Z
  end.

(** The Number the literal denotes: its digits, read in base ten, scaled by
    the exponent less the number of digits after the point, with its sign. *)
Definition literal_number (l : DecimalLiteral) : spec_float :=
  number_value (is_minus (lit_sign l))
    (digits_value 0 (lit_int l +:+ frac_digits (lit_frac l)))
    (exp_value (lit_exp l)
     - Z.of_nat (String.length (frac_digits (lit_frac l)))).

Definition starts_with (p : ascii → bool) (s : string) : bool :=
  match s with
  | String c _ => p c
  | EmptyString => false
  end.

(** [s] begins with an exponent part. *)
Definition starts_exponent (s : string) : bool :=
  match s with
  | String c r =>
      is_exp_marker c
      && (starts_with is_digit r
          || match r with
             | String d r' => is_sign_char d && starts_with is_digit r'
             | EmptyString => false
             end)
  | EmptyString => false
  end.

(** The literal [l] followed by [rest] cannot be read further into [rest]:
    [rest] begins with no digit, with no exponent part unless [l] has one,
    and with no point unless [l] has a point or an exponent part. *)
Definition literal_ends (l : DecimalLiteral) (rest : string) : bool :=
  negb (starts_with is_digit rest)
  && (bool_decide (is_Some (lit_exp l)) || negb (starts_exponent rest))
  && (bool_decide (is_Some (lit_exp l)) || bool_decide (is_Some (lit_frac l))
      || negb (starts_with is_point rest)).

(** The Number [x] is the integer [n]. *)
Definition is_integer (x : spec_float) (n : Z) : Prop :=
  match x with
  | S754_zero _ => n = 0%Z
  | S754_finite s m e =>
      (n * 2 ^ Z.max 0 (- e)
       = (if s then Z.neg m else Z.pos m) * 2 ^ Z.max 0 e)%Z
  | _ => False
  end.

(** The exponent part, when there is one, is well formed. *)
Definition exp_ok (eo : option ExponentPart) : bool :=
  match eo with
  | Some x => is_exponent_part x
  | None => true
  end.

(** What reading the characters [shortOpts] as a cluster at the cursor [i]
    does to the options, [before] and [after]: a name that no character
    resolves to keeps its binding; the option that a character resolves to,
    by the scan of the aliases, is bound, under its name, to [true] when
    its kind is boolean and otherwise to the token after the cluster when
    that token is a value and to [true] when it is not; when several
    characters resolve to options of one name, the last of them decides. *)
Definition cluster_effect (tokens : list string) (i : nat)
    (schema : list CLIOption) (shortOpts : string)
    (before after : gmap string Value) : Prop :=
  (∀ nm, (∀ c o, c ∈ chars shortOpts → find_by_alias schema c = Some o →
                 name o ≠ nm) →
         after !! nm = before !! nm)
  ∧ (∀ pre c post o,
       chars shortOpts = (pre ++ c :: post)%list →
       find_by_alias schema c = Some o →
       (∀ c' o', c' ∈ post → find_by_alias schema c' = Some o' →
                 name o' ≠ name o) →
       after !! name o
       = Some (if bool_decide (type o = TBoolean) then VBool true
               else match next_is_value tokens i with
                    | Some nextToken => VStr nextToken
                    | None => VBool true
                    end)).

(** A malformed flag token: it starts with a dash and neither pattern of
    [parseOption] matches it, so that [parseOption] would reject it. *)
Definition malformed_flag (token : string) : bool :=
  startsWith "-" token
  && negb (bool_decide (is_Some (OPTION_REGEX token)))
  && negb (bool_decide (is_Some (SHORT_OPTION_REGEX token))).



(** The dispatcher as the specification words it: when the tentative
    command name matches no command and exactly one registered command has
    an empty name, that command is invoked, whatever else is registered. *)
Definition default_command_whenever_unique : Prop :=
  ∀ (prompts : Question → option RawValue)
    (b : ZoltraCLIBuilder.Builder string) (argv : list string) (cache : Cache)
    (p : ParsedArgs) (cache1 : Cache) (d : ZoltraCLIBuilder.CLICommand string),
    parse argv (ZoltraCLIBuilder.globalOptions b) [] cache = (Ok p, cache1) →
    ZoltraCLIBuilder.truthy (options p !! "help") = false →
    ZoltraCLIBuilder.truthy (options p !! "version") = false →
    List.find (ZoltraCLIBuilder.matches (ZoltraCLIBuilder.tentative_name p))
      (ZoltraCLIBuilder.commands b) = None →
    List.filter (λ c, bool_decide (ZoltraCLIBuilder.cmd_name c = ""))
      (ZoltraCLIBuilder.commands b) = [d] →
    ZoltraCLIBuilder.parse prompts b argv cache
    = (ZoltraCLIBuilder.Invoked (ZoltraCLIBuilder.action d) (args p) (options p),
       cache1).

(** *** The parser without the cache

    The reference the cached parser is compared with: the same loop, every
    lookup being the direct scan of the schema, by name or alias for a single
    flag and by alias for a character of a cluster. *)

Definition cluster_char_by_scan (tokens : list string) (i : nat)
    (schema : list CLIOption) (opts : gmap string Value) (shortOpt : string)
  : gmap string Value :=
  match find_by_alias schema shortOpt with
  | Some option => <[name option := cluster_value tokens i option]> opts
  | None => opts
  end.

Definition step_by_scan (tokens : list string) (schema : list CLIOption)
    (i : nat) (p : ParsedArgs) : Result (nat * ParsedArgs) :=
  match tokens !! i with
  | None => Ok (i, p)
  | Some token =>
      if negb (truthy_string token) then Ok (i + 1, p)
      else if isOption token then
        match parseOption token tokens i with
        | Throw e => Throw e
        | Ok (nm, value) =>
            match find_by_name_or_alias schema nm with
            | Some option =>
                match parseOptionValue value option with
                | Throw e => Throw e
                | Ok v =>
                    Ok (i + 1,
                        {| command := command p;
                           options := <[name option := v]> (options p);
                           args := args p |})
                end
            | None => Ok (i + 1, p)
            end
        end
      else if startsWith "-" token then
        let shortOpts := slice1 token in
        Ok (i + (if (1 <? String.length shortOpts)%nat then 1 else 2),
            {| command := command p;
               options := fold_left (cluster_char_by_scan tokens i schema)
                            (chars shortOpts) (options p);
               args := args p |})
      else if bool_decide (length (command p) = 0)
              && bool_decide (length (args p) = 0) then
        Ok (i + 1, {| command := (command p ++ [token])%list;
                      options := options p; args := args p |})
      else
        Ok (i + 1, {| command := command p; options := options p;
                      args := (args p ++ [token])%list |})
  end.

Fixpoint loop_by_scan (fuel : nat) (tokens : list string)
    (schema : list CLIOption) (i : nat) (p : ParsedArgs) : Result ParsedArgs :=
  match fuel with
  | 0 => Ok p
  | S fuel' =>
      if (i <? length tokens)%nat then
        match step_by_scan tokens schema i p with
        | Ok (i', p') => loop_by_scan fuel' tokens schema i' p'
        | Throw e => Throw e
        end
      else Ok p
  end.

Definition parse_by_scan (argv : list string) (schema : list CLIOption)
  : Result ParsedArgs :=
  let tokens := drop 2 argv in
  loop_by_scan (length tokens) tokens schema 0
    {| command := []; options := seed_defaults schema; args := [] |}.

(** A sequence of calls of [parse], each with its tokens and its schema, on
    the cache the calls before it left. *)
Fixpoint parse_calls (calls : list (list string * list CLIOption))
    (cache : Cache) : list (Result ParsedArgs) :=
  match calls with
  | [] => []
  | (argv, schema) :: rest =>
      let '(r, cache') := parse argv schema [] cache in
      r :: parse_calls rest cache'
  end.

(** The entries of the cache under the keys of [schema] hold what the scans
    of [schema] return. *)
Definition cache_consistent (schema : list CLIOption) (cache : Cache) : Prop :=
  (∀ nm r, string_forallb is_name_char nm = true →
           cache !! option_key nm schema = Some r →
           r = find_by_name_or_alias schema nm)
  ∧ (∀ c r, cache !! alias_key (String c EmptyString) schema = Some r →
            r = find_by_alias schema (String c EmptyString)).

(** Schemas that are told apart by their lengths. *)
Definition told_apart_by_length (schemas : list (list CLIOption)) : Prop :=
  ∀ s1 s2, s1 ∈ schemas → s2 ∈ schemas → length s1 = length s2 → s1 = s2.

(** The cache is consistent with every schema of [schemas]. *)
Definition cache_sound (schemas : list (list CLIOption)) (cache : Cache)
  : Prop :=
  ∀ schema, schema ∈ schemas → cache_consistent schema cache.

(** A text without a colon. *)
Definition no_colon (s : string) : bool :=
  string_forallb (λ c, negb (bool_decide (c = ":"%char))) s.

(** The cache as the specification words it: over any sequence of calls,
    from an empty cache, the cached parser returns what the scans return. *)
Definition cached_parse_agrees_with_scan : Prop :=
  ∀ calls : list (list string * list CLIOption),
    parse_calls calls ∅ = map (λ call, parse_by_scan call.1 call.2) calls.



(** *** Sample schemas

    The options, arguments and commands of the tests and examples of the
    repository, for the concrete runs below. *)

Definition verbose_option : CLIOption :=
  {| name := "verbose"; alias := Some "v"; description := "Verbose output";
     type := TBoolean; required := false; default := None; choices := None |}.

Definition quiet_option : CLIOption :=
  {| name := "quiet"; alias := Some "q"; description := "Quiet mode";
     type := TBoolean; required := false; default := None; choices := None |}.

Definition output_option : CLIOption :=
  {| name := "output"; alias := None; description := "Output file";
     type := TString; required := false; default := None; choices := None |}.

Definition output_o_option : CLIOption :=
  {| name := "output"; alias := Some "o"; description := "Output file";
     type := TString; required := false; default := None; choices := None |}.

Definition output_with_default : CLIOption :=
  {| name := "output"; alias := None; description := "Output file";
     type := TString; required := false; default := Some (VStr "./dist");
     choices := None |}.

Definition other_o_option : CLIOption :=
  {| name := "other"; alias := Some "o"; description := "Other file";
     type := TString; required := false; default := None; choices := None |}.


Definition port_option : CLIOption :=
  {| name := "port"; alias := None; description := "Port number";
     type := TNumber; required := false; default := None; choices := None |}.

Definition name_option : CLIOption :=
  {| name := "name"; alias := Some "n"; description := "Name to greet";
     type := TString; required := true; default := None; choices := None |}.

Definition toString_option : CLIOption :=
  {| name := "toString"; alias := None; description := "Print as text";
     type := TBoolean; required := true; default := None; choices := None |}.

Definition source_argument : CLIArgument :=
  {| arg_name := "source"; arg_description := "Source file";
     arg_required := true; variadic := false |}.

Definition optional_source_argument : CLIArgument :=
  {| arg_name := "source"; arg_description := "Source file";
     arg_required := false; variadic := false |}.

Definition target_argument : CLIArgument :=
  {| arg_name := "target"; arg_description := "Target file";
     arg_required := true; variadic := false |}.

Definition mode_argument : CLIArgument :=
  {| arg_name := "mode"; arg_description := "Mode";
     arg_required := false; variadic := false |}.

(** Commands whose handlers are named by a text. *)
Definition named_command (nm descr handler : string)
  : ZoltraCLIBuilder.CLICommand string :=
  {| ZoltraCLIBuilder.cmd_name := nm;
     ZoltraCLIBuilder.cmd_description := descr;
     ZoltraCLIBuilder.aliases := None;
     ZoltraCLIBuilder.cmd_options := None;
     ZoltraCLIBuilder.arguments := None;
     ZoltraCLIBuilder.action := handler |}.

Definition build_command : ZoltraCLIBuilder.CLICommand string :=
  named_command "build" "Build the project" "build handler".

Definition test_command : ZoltraCLIBuilder.CLICommand string :=
  named_command "test" "Run tests" "test handler".

Definition default_command : ZoltraCLIBuilder.CLICommand string :=
  named_command "" "Default command" "default handler".

(** The [build] command of the examples, with its option [output]. *)
Definition build_with_output : ZoltraCLIBuilder.CLICommand string :=
  {| ZoltraCLIBuilder.cmd_name := "build";
     ZoltraCLIBuilder.cmd_description := "Build the project";
     ZoltraCLIBuilder.aliases := None;
     ZoltraCLIBuilder.cmd_options :=
       Some [{| name := "output"; alias := Some "o";
                description := "Output directory"; type := TString;
                required := false; default := Some (VStr "./dist");
                choices := None |}];
     ZoltraCLIBuilder.arguments := None;
     ZoltraCLIBuilder.action := "build handler" |}.

(** [createCLI("cli", "1.0.0")] with the commands [cmds] added in order. *)
Definition cli_with (cmds : list (ZoltraCLIBuilder.CLICommand string))
  : ZoltraCLIBuilder.Builder string :=
  fold_left ZoltraCLIBuilder.addCommand cmds
    (ZoltraCLIBuilder.createCLI "cli" "1.0.0" None false).

(** *** Notions of the further properties *)

(** The cache a round or a run of the loop ends with. *)
Definition final_cache (s : Step) : Cache :=
  match s with
  | Next st => optionCache st
  | Raised _ cache => cache
  end.

(** Every option that the cache holds is an option of [schema]. *)
Definition cache_options_in (schema : list CLIOption) (cache : Cache) : Prop :=
  ∀ key o, cache !! key = Some (Some o) → o ∈ schema.

(** A plain token: not empty, and no dash in front. *)
Definition is_plain (token : string) : bool :=
  truthy_string token && negb (startsWith "-" token).

(** The shape of the command and the positionals that the loop keeps: at
    most one command, and no positional before it. *)
Definition command_first (p : ParsedArgs) : Prop :=
  (length (command p) ≤ 1)%nat ∧ (command p = [] → args p = []).

(** An option whose values the coercer cannot reject: its kind is not
    number, and it declares no choices when its kind is string. *)
Definition accepts_every_value (o : CLIOption) : Prop :=
  type o ≠ TNumber ∧ (type o = TString → choices o = None).

(** [parsed.command.push(token)] or [parsed.args.push(token)]: what the loop
    does with a plain token. *)
Definition record_plain (p : ParsedArgs) (token : string) : ParsedArgs :=
  if bool_decide (length (command p) = 0) && bool_decide (length (args p) = 0)
  then {| command := (command p ++ [token])%list; options := options p;
          args := args p |}
  else {| command := command p; options := options p;
          args := (args p ++ [token])%list |}.

(** A name as the option pattern captures it: a letter, then letters,
    digits, underscores and dashes. *)
Definition valid_name (nm : string) : bool :=
  match nm with
  | String c r => is_letter c && string_forallb is_name_char r
  | EmptyString => false
  end.

(** A value as the option pattern captures it after [=]: not empty, and
    without a line terminator. *)
Definition valid_value (v : string) : bool :=
  truthy_string v && string_forallb (λ x, negb (is_line_terminator x)) v.

(** The text after the name of a flag: nothing, or [=] and the value. *)
Definition value_suffix (value : option string) : string :=
  match value with
  | Some v => String "="%char v
  | None => ""
  end.

(** The number of occurrences of [c] in [s]. *)
Fixpoint count_char (c : ascii) (s : string) : nat :=
  match s with
  | EmptyString => 0
  | String d r => (if bool_decide (d = c) then 1 else 0) + count_char c r
  end.

(** No white space in front. *)
Definition no_leading_space (s : string) : bool :=
  match s with
  | String c _ => negb (is_js_space c)
  | EmptyString => true
  end.

(** A token that a round of the loop passes by one position and does not
    record: an empty token, an option-shaped token, or a dash token with
    more than one character after the dash. *)
Definition passed_by_one (token : string) : bool :=
  negb (truthy_string token)
  || isOption token
  || (startsWith "-" token && (1 <? String.length (slice1 token))%nat).

(** What the loop has recorded when the tokens are [pre], the plain token
    [t] and [rest]: nothing while the cursor is within [pre], and from then
    on [t] as the command and, as positionals, tokens of [rest] that the
    cursor has passed. *)
Definition first_plain_is_command (pre : list string) (t : string)
    (rest : list string) (s : LoopState) : Prop :=
  ((cursor s ≤ length pre)%nat
   ∧ command (parsed s) = [] ∧ args (parsed s) = [])
  ∨ ((length pre < cursor s)%nat
     ∧ command (parsed s) = [t]
     ∧ args (parsed s) `sublist_of` take (cursor s - length pre - 1) rest).

(** [e] is [piece] without the white space at its two ends: white space,
    then [e], then white space make [piece], and [e] neither begins nor
    ends with white space. *)
Definition trimmed_of (piece e : string) : Prop :=
  ∃ a b, piece = a +:+ e +:+ b
         ∧ string_forallb is_js_space a = true
         ∧ string_forallb is_js_space b = true
         ∧ no_leading_space e = true
         ∧ no_leading_space (String.rev e) = true.

(** The array option of the test [should parse array options]. *)
Definition files_option : CLIOption :=
  {| name := "files"; alias := None; description := "Files to process";
     type := TArray; required := false; default := None; choices := None |}.

(** A builder with a command, a second global option called [help] with the
    alias [h], and a default action. *)
Definition cli_with_second_help : ZoltraCLIBuilder.Builder string :=
  ZoltraCLIBuilder.default_action
    (ZoltraCLIBuilder.add_option
       (ZoltraCLIBuilder.addCommand
          (ZoltraCLIBuilder.createCLI "cli" "1.0.0" None false)
          build_with_output)
       "help" "Another help"
       {| ZoltraCLIBuilder.cfg_name := None;
          ZoltraCLIBuilder.cfg_alias := Some "h";
          ZoltraCLIBuilder.cfg_description := None;
          ZoltraCLIBuilder.cfg_type := Some TString;
          ZoltraCLIBuilder.cfg_required := None;
          ZoltraCLIBuilder.cfg_default := None;
          ZoltraCLIBuilder.cfg_choices := None |})
    "default handler".

(** * Properties *)

(** ** Strings *)

Lemma append_cons (c : ascii) (s t : string) :
  String c s +:+ t = String c (s +:+ t).
Proof. reflexivity. Qed.

Lemma append_empty_r (s : string) : s +:+ "" = s.
Proof. induction s as [|c s IH]; [done|]. by rewrite append_cons, IH. Qed.

Lemma append_assoc (a b c : string) : (a +:+ b) +:+ c = a +:+ b +:+ c.
Proof.
  induction a as [|x a IH]; [done|]. by rewrite !append_cons, IH.
Qed.

Lemma forallb_append (p : ascii → bool) (s t : string) :
  string_forallb p (s +:+ t) = string_forallb p s && string_forallb p t.
Proof.
  induction s as [|c s IH]; [done|]. rewrite append_cons. simpl.
  by rewrite IH, andb_assoc.
Qed.

Lemma span_all (p : ascii → bool) (a : string) :
  string_forallb p a = true → span p a = (a, "").
Proof.
  induction a as [|c a IH]; simpl; [done|].
  intros H. apply andb_true_iff in H as [-> H]. by rewrite IH.
Qed.

Lemma span_stop (p : ascii → bool) (a : string) (c : ascii) (r : string) :
  string_forallb p a = true → p c = false →
  span p (a +:+ String c r) = (a, String c r).
Proof.
  intros Ha Hc. induction a as [|d a IH].
  - simpl. by rewrite Hc.
  - rewrite append_cons. simpl in *.
    apply andb_true_iff in Ha as [-> Ha]. by rewrite IH.
Qed.

Lemma span_app (p : ascii → bool) (s a b : string) :
  span p s = (a, b) → s = a +:+ b.
Proof.
  revert a b. induction s as [|c s IH]; intros a b; simpl.
  - by intros [= <- <-].
  - destruct (p c).
    + destruct (span p s) as [a' b']. intros [= <- <-].
      by rewrite (IH a' b' eq_refl) at 1.
    + by intros [= <- <-].
Qed.

Lemma span_fst_empty (p : ascii → bool) (s : string) :
  truthy_string (span p s).1
  = match s with
    | String c _ => p c
    | EmptyString => false
    end.
Proof.
  destruct s as [|c r]; simpl; [done|].
  destruct (p c); [|done]. by destruct (span p r).
Qed.

Lemma span_forallb (p : ascii → bool) (s : string) :
  string_forallb p (span p s).1 = true.
Proof.
  induction s as [|c r IH]; simpl; [done|].
  destruct (p c) eqn:Hc; [|done].
  destruct (span p r) as [a b]. simpl in *. by rewrite Hc, IH.
Qed.

Lemma span_spec (p : ascii → bool) (s : string) :
  s = (span p s).1 +:+ (span p s).2
  ∧ string_forallb p (span p s).1 = true
  ∧ starts_with p (span p s).2 = false.
Proof.
  induction s as [|c s (IH1 & IH2 & IH3)]; simpl; [done|].
  destruct (p c) eqn:Hc.
  - destruct (span p s) as [a b]. simpl in *. rewrite Hc, append_cons.
    by rewrite <- IH1.
  - simpl. by rewrite Hc.
Qed.

Lemma span_app_stop (p : ascii → bool) (a t : string) :
  string_forallb p a = true → starts_with p t = false →
  span p (a +:+ t) = (a, t).
Proof.
  intros Ha Ht. induction a as [|c a IH].
  - destruct t as [|d t]; [done|]. simpl in *. by rewrite Ht.
  - rewrite append_cons. simpl in *.
    apply andb_true_iff in Ha as [-> Ha]. by rewrite IH.
Qed.

Lemma drop_while_span (p : ascii → bool) (s : string) :
  drop_while p s = (span p s).2.
Proof.
  induction s as [|c s IH]; simpl; [done|].
  destruct (p c); [|done]. rewrite IH. by destruct (span p s).
Qed.

Lemma prefix_append (p s : string) :
  String.prefix p s = true → ∃ rest, s = p +:+ rest.
Proof.
  revert s. induction p as [|c p IH]; intros s.
  - intros _. by exists s.
  - destruct s as [|d s]; [done|].
    change (String.prefix (String c p) (String d s))
      with (if ascii_dec c d then String.prefix p s else false).
    destruct (ascii_dec c d) as [->|]; [|done].
    intros H. destruct (IH s H) as [rest ->]. exists rest.
    by rewrite append_cons.
Qed.

Lemma prefix_starts (p : ascii → bool) (c : ascii) (q s : string) :
  starts_with p s = true → p c = false → String.prefix (String c q) s = false.
Proof.
  destruct s as [|d s]; [done|]. intros Hd Hc.
  change (String.prefix (String c q) (String d s))
    with (if ascii_dec c d then String.prefix q s else false).
  destruct (ascii_dec c d) as [->|]; [|done]. simpl in Hd. congruence.
Qed.

Lemma prefix_of_append (p rest : string) : String.prefix p (p +:+ rest) = true.
Proof.
  induction p as [|c p IH]; [by destruct rest|]. rewrite append_cons.
  change (String.prefix (String c p) (String c (p +:+ rest)))
    with (if ascii_dec c c then String.prefix p (p +:+ rest) else false).
  by destruct (ascii_dec c c).
Qed.


(** ** The rounding to a Number *)

Lemma iter_pos_invariant {A : Type} (f : A → A) (P : A → Prop) :
  (∀ x, P x → P (f x)) → ∀ (n : positive) (x : A), P x → P (SpecFloat.iter_pos f n x).
Proof.
  intros Hf n. induction n as [n IH|n IH|]; intros x Hx; simpl; auto.
Qed.

Lemma shr_1_nonneg (mrs : shr_record) :
  (0 ≤ shr_m mrs)%Z → (0 ≤ shr_m (shr_1 mrs))%Z.
Proof.
  destruct mrs as [m r s]. simpl.
  destruct m as [|p|p]; [done| |done]. intros _. by destruct p.
Qed.

Lemma shr_nonneg (mrs : shr_record) (e n : Z) :
  (0 ≤ shr_m mrs)%Z → (0 ≤ shr_m (shr mrs e n).1)%Z.
Proof.
  intros H. unfold shr. destruct n as [|p|p]; simpl; [done| |done].
  by apply iter_pos_invariant; [apply shr_1_nonneg|].
Qed.

Lemma shr_record_of_loc_m (m : Z) (l : location) :
  shr_m (shr_record_of_loc m l) = m.
Proof. by destruct l as [|[]]. Qed.

Lemma round_nearest_even_nonneg (m : Z) (l : location) :
  (0 ≤ m)%Z → (0 ≤ round_nearest_even m l)%Z.
Proof.
  intros H. destruct l as [|[]]; simpl; try lia. destruct (Z.even m); lia.
Qed.

Lemma binary_round_aux_not_nan (prec emax : Z) (sx : bool) (mx ex : Z)
    (lx : location) :
  (0 ≤ mx)%Z → isNaN (binary_round_aux prec emax sx mx ex lx) = false.
Proof.
  intros Hmx. unfold binary_round_aux, shr_fexp.
  pose proof (shr_nonneg (shr_record_of_loc mx lx) ex
                (fexp prec emax (Zdigits2 mx + ex) - ex)) as H1.
  rewrite shr_record_of_loc_m in H1. specialize (H1 Hmx).
  destruct (shr _ ex _) as [mrs' e']. simpl in H1.
  set (m1 := round_nearest_even (shr_m mrs') (loc_of_shr_record mrs')).
  assert (H2 : (0 ≤ m1)%Z) by (by apply round_nearest_even_nonneg).
  pose proof (shr_nonneg (shr_record_of_loc m1 loc_Exact) e'
                (fexp prec emax (Zdigits2 m1 + e') - e')) as H3.
  rewrite shr_record_of_loc_m in H3. specialize (H3 H2).
  destruct (shr _ e' _) as [mrs'' e'']. simpl in H3.
  destruct (shr_m mrs'') as [|m|m]; [done| |lia].
  by destruct (e'' <=? emax - prec)%Z.
Qed.

Lemma binary_round_not_nan (prec emax : Z) (sx : bool) (mx : positive)
    (ex : Z) :
  isNaN (binary_round prec emax sx mx ex) = false.
Proof.
  unfold binary_round. destruct (shl_align mx ex _) as [mz ez].
  by apply binary_round_aux_not_nan.
Qed.

Lemma number_value_not_nan (neg : bool) (m : N) (e : Z) :
  isNaN (number_value neg m e) = false.
Proof.
  unfold number_value. destruct m as [|p]; [done|].
  destruct e as [|k|k]; try apply binary_round_not_nan.
  unfold SFdiv_core_binary.
  set (m' := match _ with Z0 => _ | Zpos _ => _ | Zneg _ => _ end).
  assert (Hm' : (0 ≤ m')%Z).
  { unfold m'. destruct (_ - _ - _)%Z; try lia. apply Z.shiftl_nonneg. lia. }
  pose proof (Z_div_mod m' (Z.pos (10 ^ k)) eq_refl) as Hdiv.
  destruct (Z.div_eucl m' (Z.pos (10 ^ k))) as [q r].
  apply binary_round_aux_not_nan. nia.
Qed.

Lemma digits2_pos_iter (p k : positive) :
  digits2_pos (Pos.iter xO p k) = (digits2_pos p + k)%positive.
Proof.
  induction k as [|k IH] using Pos.peano_ind.
  - simpl. lia.
  - rewrite Pos.iter_succ. simpl. rewrite IH. lia.
Qed.

Lemma Zpos_iter_xO (p k : positive) :
  Z.pos (Pos.iter xO p k) = (Z.pos p * 2 ^ Z.pos k)%Z.
Proof.
  induction k as [|k IH] using Pos.peano_ind.
  - simpl. lia.
  - rewrite Pos.iter_succ, Pos2Z.inj_succ, Z.pow_succ_r by lia.
    rewrite Pos2Z.inj_xO, IH. lia.
Qed.

(** A significand of exactly 53 bits is left as it is. *)
Lemma binary_round_aux_canonical (sx : bool) (m : positive) (e : Z) :
  digits2_pos m = 53%positive → (-1074 ≤ e ≤ 971)%Z →
  binary_round_aux binary64_prec binary64_emax sx (Z.pos m) e loc_Exact
  = S754_finite sx m e.
Proof.
  intros Hd He. unfold binary_round_aux, shr_fexp. simpl Zdigits2. rewrite Hd.
  assert (Hf : (fexp binary64_prec binary64_emax (53 + e) - e = 0)%Z).
  { unfold fexp, emin, binary64_prec, binary64_emax. lia. }
  rewrite Hf. simpl. rewrite Hd, Hf. simpl.
  assert (Hle : (e <=? binary64_emax - binary64_prec)%Z = true).
  { apply Z.leb_le. unfold binary64_prec, binary64_emax. lia. }
  by rewrite Hle.
Qed.

Lemma binary_round_exact (sx : bool) (p : positive) :
  (Z.pos (digits2_pos p) ≤ 53)%Z →
  ∃ (m : positive) (e : Z),
    binary_round binary64_prec binary64_emax sx p 0 = S754_finite sx m e
    ∧ (e ≤ 0)%Z ∧ Z.pos m = (Z.pos p * 2 ^ (- e))%Z.
Proof.
  intros Hd. unfold binary_round, shl_align.
  assert (Hf : (fexp binary64_prec binary64_emax (Z.pos (digits2_pos p) + 0)
                = Z.pos (digits2_pos p) - 53)%Z).
  { unfold fexp, emin, binary64_prec, binary64_emax. lia. }
  rewrite Hf.
  destruct (Z.pos (digits2_pos p) - 53 - 0)%Z as [|k|k] eqn:Hk; [|lia|].
  - exists p, 0%Z. rewrite binary_round_aux_canonical; [|lia|lia].
    split; [done|]. split; [done|]. simpl. lia.
  - exists (Pos.iter xO p k), (Z.pos (digits2_pos p) - 53)%Z.
    rewrite binary_round_aux_canonical.
    + split; [done|]. split; [lia|]. rewrite Zpos_iter_xO. f_equal. f_equal. lia.
    + rewrite digits2_pos_iter. lia.
    + lia.
Qed.

Lemma digits2_pos_bound (p : positive) :
  (Z.pos p < 2 ^ 53)%Z → (Z.pos (digits2_pos p) ≤ 53)%Z.
Proof.
  intros H. destruct (Z_lt_le_dec 53 (Z.pos (digits2_pos p))) as [Hlt|]; [|done].
  exfalso.
  assert (Hlow : ∀ q : positive, (2 ^ (Z.pos (digits2_pos q) - 1) ≤ Z.pos q)%Z).
  { induction q as [q IH|q IH|]; simpl digits2_pos.
    - rewrite Pos2Z.inj_succ.
      replace (Z.succ (Z.pos (digits2_pos q)) - 1)%Z
        with (Z.succ (Z.pos (digits2_pos q) - 1)) by lia.
      rewrite Z.pow_succ_r by lia. lia.
    - rewrite Pos2Z.inj_succ.
      replace (Z.succ (Z.pos (digits2_pos q)) - 1)%Z
        with (Z.succ (Z.pos (digits2_pos q) - 1)) by lia.
      rewrite Z.pow_succ_r by lia. lia.
    - simpl. lia. }
  specialize (Hlow p).
  assert ((2 ^ 53 ≤ 2 ^ (Z.pos (digits2_pos p) - 1))%Z)
    by (apply Z.pow_le_mono_r; lia).
  lia.
Qed.

Lemma number_value_integer (neg : bool) (n : N) :
  (Z.of_N n < 2 ^ 53)%Z →
  is_integer (number_value neg n 0) (if neg then - Z.of_N n else Z.of_N n).
Proof.
  intros Hn. destruct n as [|p]; simpl.
  - by destruct neg.
  - destruct (binary_round_exact neg p) as (m & e & -> & He & Hm).
    { by apply digits2_pos_bound. }
    simpl. rewrite Z.max_r, Z.max_l by lia. rewrite Z.pow_0_r.
    destruct neg; lia.
Qed.


(** ** Seeding of the defaults and the empty token list *)

Lemma seed_fold_lookup (schema : list CLIOption) (acc : gmap string Value)
    (nm : string) :
  fold_left
    (λ acc option,
       match default option with
       | Some d => <[name option := d]> acc
       | None => acc
       end) schema acc !! nm
  = match last_declared_default schema nm with
    | Some v => Some v
    | None => acc !! nm
    end.
Proof.
  revert acc. induction schema as [|o rest IH]; intros acc; simpl; [done|].
  rewrite IH. destruct (last_declared_default rest nm) as [v|]; [done|].
  destruct (default o) as [d|] eqn:Hd.
  - case_bool_decide as Hn.
    + subst nm. by rewrite lookup_insert_eq.
    + by rewrite lookup_insert_ne.
  - by case_bool_decide.
Qed.

Lemma seed_defaults_lookup (schema : list CLIOption) (nm : string) :
  seed_defaults schema !! nm = last_declared_default schema nm.
Proof.
  unfold seed_defaults. rewrite seed_fold_lookup, lookup_empty.
  by destruct (last_declared_default schema nm).
Qed.

Lemma last_declared_default_Some (schema : list CLIOption) (nm : string)
    (v : Value) :
  last_declared_default schema nm = Some v →
  ∃ o, o ∈ schema ∧ name o = nm ∧ default o = Some v.
Proof.
  induction schema as [|o rest IH]; simpl; [done|].
  destruct (last_declared_default rest nm) as [w|].
  - intros [= ->]. destruct IH as (o' & ? & ? & ?); [done|].
    exists o'. split; [by right|done].
  - case_bool_decide; [|done]. intros Hd. exists o. split; [by left|done].
Qed.





(** ** The argument validator *)

Lemma validateArgs_from_gap (p : ParsedArgs) (argSchema : list CLIArgument)
    (k : nat) :
  no_variadic argSchema → (k ≤ length (args p))%nat →
  validateArgs_from k p argSchema
  = match argSchema !! (length (args p) - k) with
    | Some a =>
        if arg_required a then Throw (MissingRequiredArgument (arg_name a))
        else Ok tt
    | None => Ok tt
    end.
Proof.
  intros Hnv. revert k.
  induction Hnv as [|a rest Ha Hrest IH]; intros k Hk; simpl; [done|].
  destruct (length (args p) <=? k)%nat eqn:Hle.
  - apply Nat.leb_le in Hle. by replace (length (args p) - k) with 0 by lia.
  - apply Nat.leb_gt in Hle. rewrite Ha, IH by lia.
    replace (length (args p) - k) with (S (length (args p) - (k + 1))) by lia.
    done.
Qed.

(** C4 (amended).  In a schema with no variadic spec, validation looks at
    one spec only: the first that has no positional, which is the spec at the
    position that equals the number of positionals.  When that spec is
    required, validation fails and names it, however many specs follow; when
    it is not required, or when every spec has a positional, validation
    succeeds, also when a later spec is required. *)
Theorem validateArgs_first_gap (p : ParsedArgs) (argSchema : list CLIArgument) :
  no_variadic argSchema →
  validateArgs p argSchema
  = match argSchema !! length (args p) with
    | Some a =>
        if arg_required a then Throw (MissingRequiredArgument (arg_name a))
        else Ok tt
    | None => Ok tt
    end.
Proof.
  intros Hnv. unfold validateArgs.
  rewrite validateArgs_from_gap by (done || lia). by rewrite Nat.sub_0_r.
Qed.

Lemma validateArgs_first_gap_witness :
  validateArgs {| command := ["copy"]; options := ∅; args := ["a.txt"] |}
    [source_argument; target_argument; mode_argument]
  = Throw (MissingRequiredArgument "target").
Proof.
  apply (validateArgs_first_gap
           {| command := ["copy"]; options := ∅; args := ["a.txt"] |}).
  repeat constructor.
Defined.

(** C4 as the specification states it does not hold: an optional spec that
    has no positional ends the validation before the required spec after it
    is looked at. *)
Lemma validateArgs_optional_gap_hides_required :
  ¬ reports_first_absent_required.
Proof.
  intros H.
  specialize (H {| command := []; options := ∅; args := [] |}
                [optional_source_argument; target_argument] target_argument).
  discriminate H; [repeat constructor | reflexivity].
Qed.

(** ** Required options, interactive mode disabled *)

Lemma is_undefined_false (opts : gmap string Value) (key : string) :
  is_undefined opts key = false
  ↔ is_Some (opts !! key) ∨ key ∈ object_prototype_members.
Proof.
  unfold is_undefined. rewrite andb_false_iff, negb_false_iff.
  rewrite bool_decide_eq_false, bool_decide_eq_true.
  rewrite <- not_eq_None_Some. tauto.
Qed.

Lemma is_undefined_true (opts : gmap string Value) (key : string) :
  is_undefined opts key = true
  ↔ opts !! key = None ∧ key ∉ object_prototype_members.
Proof.
  unfold is_undefined. rewrite andb_true_iff, negb_true_iff.
  by rewrite bool_decide_eq_true, bool_decide_eq_false.
Qed.

Lemma missingOptions_nil_defined (p : ParsedArgs) (schema : list CLIOption) :
  (∀ o, o ∈ schema → required o = true →
        is_undefined (options p) (name o) = false) →
  missingOptions p schema = [].
Proof.
  induction schema as [|o rest IH]; intros Hall; simpl; [done|].
  unfold missingOptions in *. simpl.
  destruct (required o) eqn:Hr; simpl.
  - rewrite (Hall o) by (by left || done).
    apply IH. intros o' Hin. apply Hall. by right.
  - apply IH. intros o' Hin. apply Hall. by right.
Qed.

Lemma missingOptions_nil (p : ParsedArgs) (schema : list CLIOption) :
  (∀ o, o ∈ schema → required o = true → is_Some (options p !! name o)) →
  missingOptions p schema = [].
Proof.
  intros Hall. apply missingOptions_nil_defined. intros o Hin Hr.
  apply is_undefined_false. left. by apply Hall.
Qed.

Lemma missingOptions_first (p : ParsedArgs) (pre post : list CLIOption)
    (o : CLIOption) :
  (∀ o', o' ∈ pre → required o' = true →
         is_undefined (options p) (name o') = false) →
  required o = true → is_undefined (options p) (name o) = true →
  ∃ others, missingOptions p (pre ++ o :: post)%list = o :: others.
Proof.
  intros Hpre Hr Hundef. unfold missingOptions.
  rewrite List.filter_app. fold (missingOptions p pre).
  rewrite (missingOptions_nil_defined p pre Hpre). simpl.
  rewrite Hr, Hundef. simpl. eauto.
Qed.

(** With the interactive mode disabled, the validation of the required
    options returns the parsed result unchanged when every required option
    of the schema reads as defined, and otherwise fails with the error that
    names the first option, in the order of the schema, that is required
    and reads as [undefined]. *)
Lemma validateOptions_first_undefined
    (prompts : Question → option RawValue) (p : ParsedArgs)
    (schema : list CLIOption) :
  ((∀ o, o ∈ schema → required o = true →
         is_undefined (options p) (name o) = false) →
   validateOptions prompts p schema false = Ok p)
  ∧ (∀ (pre : list CLIOption) (o : CLIOption) (post : list CLIOption),
       schema = (pre ++ o :: post)%list →
       (∀ o', o' ∈ pre → required o' = true →
              is_undefined (options p) (name o') = false) →
       required o = true → is_undefined (options p) (name o) = true →
       validateOptions prompts p schema false
       = Throw (MissingRequiredOption (name o) (alias o))).
Proof.
  split.
  - intros Hall. unfold validateOptions.
    rewrite (missingOptions_nil_defined p schema Hall). reflexivity.
  - intros pre o post -> Hpre Hr Hundef. unfold validateOptions.
    destruct (missingOptions_first p pre post o Hpre Hr Hundef) as [others ->].
    rewrite andb_false_r. reflexivity.
Qed.

(** C5.  A required option whose name is a member of [Object.prototype] is
    never reported.  The command line [node cli] gives no option, so the
    required option [toString] is absent from the parsed result; with the
    interactive mode disabled the validation nevertheless returns the
    parsed result unchanged, because [parsed.options["toString"]] reads the
    inherited method.  For the required option [name] the same parsed
    result fails with the error that names it. *)
Theorem required_toString_option_not_reported
    (prompts : Question → option RawValue) :
  let parsed := {| command := []; options := ∅; args := [] |} in
  ZoltraCLIParser.parse ["node"; "cli"] [toString_option] [] ∅
  = (Ok parsed, ∅)
  ∧ required toString_option = true
  ∧ options parsed !! name toString_option = None
  ∧ validateOptions prompts parsed [toString_option] false = Ok parsed
  ∧ validateOptions prompts parsed [name_option] false
    = Throw (MissingRequiredOption "name" (Some "n")).
Proof. repeat split. Qed.

(** ** The coercion of numbers *)

(** *** The reading of a decimal literal *)

Lemma drop_while_app_stop (p : ascii → bool) (ws t : string) :
  string_forallb p ws = true → starts_with p t = false →
  drop_while p (ws +:+ t) = t.
Proof.
  intros Hws Ht. by rewrite drop_while_span, span_app_stop.
Qed.

Lemma split_sign_text (sg : Sign) (u : string) :
  starts_with is_sign_char u = false →
  split_sign (sign_text sg +:+ u) = (is_minus sg, u).
Proof.
  intros Hu. destruct sg; [|done..]. simpl.
  destruct u as [|c u]; [done|]. simpl in *. unfold is_sign_char in Hu.
  apply orb_false_iff in Hu as [-> ->]. done.
Qed.

Lemma read_fraction_text (f : option string) (rest : string) :
  string_forallb is_digit (frac_digits f) = true →
  starts_with is_digit rest = false →
  (is_Some f ∨ starts_with is_point rest = false) →
  read_fraction (frac_text f +:+ rest) = (frac_digits f, rest).
Proof.
  intros Hf Hrest Hpoint. destruct f as [ds|]; simpl in *.
  - by apply span_app_stop.
  - destruct Hpoint as [[? [=]]|Hpoint].
    destruct rest as [|c rest]; [done|]. simpl in *. unfold is_point in Hpoint.
    by rewrite Hpoint.
Qed.

Lemma digit_not_sign_char (c : ascii) :
  is_digit c = true → is_sign_char c = false.
Proof.
  unfold is_sign_char. intros H.
  rewrite !bool_decide_eq_false_2; [done|by intros ->..].
Qed.

Lemma starts_digit_not_sign (s : string) :
  starts_with is_digit s = true → starts_with is_sign_char s = false.
Proof. destruct s as [|c s]; [done|]. apply digit_not_sign_char. Qed.

Lemma forallb_starts (p : ascii → bool) (ds rest : string) :
  truthy_string ds = true → string_forallb p ds = true →
  starts_with p (ds +:+ rest) = true.
Proof.
  destruct ds as [|c ds]; [done|]. intros _ H. rewrite append_cons. simpl in *.
  by apply andb_true_iff in H as [-> _].
Qed.

Lemma read_exponent_text (x : ExponentPart) (rest : string) :
  is_exponent_part x = true → starts_with is_digit rest = false →
  read_exponent (exp_text (Some x) +:+ rest) = exp_value (Some x).
Proof.
  intros Hx Hrest. unfold is_exponent_part in Hx.
  apply andb_true_iff in Hx as [Hx Hds]. apply andb_true_iff in Hx as [Hm Hne].
  unfold exp_text. rewrite append_cons, append_assoc.
  unfold read_exponent. unfold is_exp_marker in Hm. rewrite Hm.
  rewrite split_sign_text
    by (apply starts_digit_not_sign; by apply forallb_starts).
  rewrite span_app_stop by done. by rewrite Hne.
Qed.

Lemma read_exponent_none (rest : string) :
  starts_exponent rest = false → read_exponent rest = 0%Z.
Proof.
  destruct rest as [|c r]; [done|]. simpl. unfold is_exp_marker.
  destruct (bool_decide (c = "e"%char) || bool_decide (c = "E"%char)); [|done].
  simpl. intros H. apply orb_false_iff in H as [Hd Hs].
  destruct (split_sign r) as [neg r'] eqn:Hsplit.
  pose proof (span_fst_empty is_digit r') as Hspan.
  destruct (span is_digit r') as [ds r'']. simpl in Hspan.
  rewrite Hspan. destruct r as [|d r0]; simpl in *.
  - by injection Hsplit as <- <-.
  - unfold is_sign_char in Hs.
    destruct (bool_decide (d = "+"%char)); simpl in *.
    { injection Hsplit as <- <-. destruct r0; [done|]. simpl in *. by rewrite Hs. }
    destruct (bool_decide (d = "-"%char)); simpl in *.
    { injection Hsplit as <- <-. destruct r0; [done|]. simpl in *. by rewrite Hs. }
    injection Hsplit as <- <-. by rewrite Hd.
Qed.

(** The unsigned part of a literal begins with a digit or with a point. *)
Lemma literal_body_starts (l : DecimalLiteral) (rest : string) :
  is_literal l = true →
  starts_with (λ c, is_digit c || is_point c)
    (lit_int l +:+ frac_text (lit_frac l) +:+ exp_text (lit_exp l) +:+ rest)
  = true.
Proof.
  unfold is_literal. intros H. apply andb_true_iff in H as [H _].
  apply andb_true_iff in H as [H Hne]. apply andb_true_iff in H as [Hint Hfrac].
  destruct (lit_int l) as [|c ds].
  - simpl in Hne. destruct (lit_frac l) as [[|d f]|]; [done| |done].
    done.
  - rewrite append_cons. simpl in *.
    apply andb_true_iff in Hint as [-> _]. done.
Qed.

Lemma starts_with_impl (p q : ascii → bool) (s : string) :
  (∀ c, p c = true → q c = false) →
  starts_with p s = true → starts_with q s = false.
Proof. intros H. destruct s as [|c s]; [done|]. apply H. Qed.

Lemma digit_or_point (c : ascii) :
  is_digit c || is_point c = true →
  is_sign_char c = false ∧ is_js_space c = false
  ∧ bool_decide (c = "I"%char) = false.
Proof.
  intros H. apply orb_true_iff in H as [H|H].
  - destruct c as [[] [] [] [] [] [] [] []]; try discriminate H; done.
  - unfold is_point in H. apply bool_decide_eq_true in H as ->. done.
Qed.

Lemma read_unsigned_literal (l : DecimalLiteral) (rest : string) (neg : bool) :
  is_literal l = true → literal_ends l rest = true →
  read_unsigned neg
    (lit_int l +:+ frac_text (lit_frac l) +:+ exp_text (lit_exp l) +:+ rest)
  = number_value neg
      (digits_value 0 (lit_int l +:+ frac_digits (lit_frac l)))
      (exp_value (lit_exp l)
       - Z.of_nat (String.length (frac_digits (lit_frac l)))).
Proof.
  intros Hlit Hends. pose proof (literal_body_starts l rest Hlit) as Hstart.
  unfold read_unsigned.
  rewrite (prefix_starts (λ c, is_digit c || is_point c) "I" "nfinity")
    by done.
  unfold is_literal in Hlit. apply andb_true_iff in Hlit as [Hlit Hexp].
  apply andb_true_iff in Hlit as [Hlit Hne].
  apply andb_true_iff in Hlit as [Hint Hfrac].
  unfold literal_ends in Hends. apply andb_true_iff in Hends as [Hends Hpoint].
  apply andb_true_iff in Hends as [Hdigit Hnoexp].
  apply negb_true_iff in Hdigit.
  assert (Htail : starts_with is_digit (exp_text (lit_exp l) +:+ rest) = false).
  { destruct (lit_exp l) as [x|]; [|done]. simpl.
    unfold is_exponent_part in Hexp.
    apply andb_true_iff in Hexp as [Hexp _].
    apply andb_true_iff in Hexp as [Hm _]. unfold is_exp_marker in Hm.
    apply orb_true_iff in Hm as [Hm|Hm]; apply bool_decide_eq_true in Hm;
      by rewrite Hm. }
  assert (Hpt : is_Some (lit_frac l)
                ∨ starts_with is_point (exp_text (lit_exp l) +:+ rest) = false).
  { destruct (lit_frac l) as [f|]; [left; by eexists|right].
    destruct (lit_exp l) as [x|].
    - simpl.
      unfold is_exponent_part in Hexp.
      apply andb_true_iff in Hexp as [Hexp _].
      apply andb_true_iff in Hexp as [Hm _]. unfold is_exp_marker in Hm.
      apply orb_true_iff in Hm as [Hm|Hm]; apply bool_decide_eq_true in Hm;
        by rewrite Hm.
    - simpl in *. by apply negb_true_iff in Hpoint. }
  rewrite span_app_stop; [|done|].
  2:{ destruct (lit_frac l) as [f|]; [done|]. done. }
  rewrite read_fraction_text by done. rewrite Hne.
  f_equal. f_equal.
  destruct (lit_exp l) as [x|] eqn:Hx.
  - by apply read_exponent_text.
  - simpl in *. apply read_exponent_none. by apply negb_true_iff in Hnoexp.
Qed.

Lemma parseFloat_literal (ws : string) (l : DecimalLiteral) (rest : string) :
  string_forallb is_js_space ws = true →
  is_literal l = true → literal_ends l rest = true →
  parseFloat (ws +:+ literal_text l +:+ rest) = literal_number l.
Proof.
  intros Hws Hlit Hends. pose proof (literal_body_starts l rest Hlit) as Hstart.
  unfold parseFloat, literal_text. rewrite !append_assoc.
  set (u := lit_int l +:+ _) in *.
  assert (Hsign : starts_with is_sign_char u = false).
  { revert Hstart. apply starts_with_impl. intros c Hc.
    by apply digit_or_point in Hc as (? & ? & ?). }
  assert (Hspace : starts_with is_js_space (sign_text (lit_sign l) +:+ u)
                   = false).
  { destruct (lit_sign l); [|done..]. revert Hstart. apply starts_with_impl.
    intros c Hc. by apply digit_or_point in Hc as (? & ? & ?). }
  rewrite drop_while_app_stop by done. rewrite split_sign_text by done.
  by apply read_unsigned_literal.
Qed.

Lemma parseFloat_infinity (ws : string) (sg : Sign) (rest : string) :
  string_forallb is_js_space ws = true →
  parseFloat (ws +:+ sign_text sg +:+ "Infinity" +:+ rest)
  = S754_infinity (is_minus sg).
Proof.
  intros Hws. unfold parseFloat.
  rewrite drop_while_app_stop; [|done|by destruct sg].
  rewrite split_sign_text by done. unfold read_unsigned.
  by rewrite prefix_of_append.
Qed.

Lemma read_unsigned_starts (neg : bool) (u : string) :
  starts_unsigned u = true → isNaN (read_unsigned neg u) = false.
Proof.
  unfold starts_unsigned, read_unsigned.
  destruct (String.prefix "Infinity" u); [done|]. simpl.
  pose proof (span_fst_empty is_digit u) as Hint.
  destruct (span is_digit u) as [int_part rest] eqn:Hspan. simpl in Hint.
  destruct u as [|c r]; [done|].
  destruct (is_digit c) eqn:Hc; simpl.
  - intros _. destruct (read_fraction rest). rewrite Hint.
    apply number_value_not_nan.
  - simpl in Hspan. rewrite Hc in Hspan. injection Hspan as <- <-.
    unfold read_fraction. destruct (bool_decide (c = "."%char)); [|done].
    simpl. intros Hd.
    pose proof (span_fst_empty is_digit r) as Hfrac.
    destruct (span is_digit r) as [frac_part rest']. simpl in Hfrac.
    rewrite Hfrac. destruct r as [|d r']; [done|]. rewrite Hd.
    apply number_value_not_nan.
Qed.

Lemma read_unsigned_not_starts (neg : bool) (u : string) :
  starts_unsigned u = false → read_unsigned neg u = S754_nan.
Proof.
  unfold starts_unsigned, read_unsigned.
  destruct (String.prefix "Infinity" u); [done|]. simpl.
  destruct u as [|c r]; [done|]. simpl.
  destruct (is_digit c) eqn:Hc; [done|]. simpl.
  unfold read_fraction. destruct (bool_decide (c = "."%char)); simpl.
  - intros Hd. pose proof (span_fst_empty is_digit r) as Hfrac.
    destruct (span is_digit r) as [frac_part rest']. simpl in Hfrac.
    rewrite Hfrac. by destruct r as [|d r']; [|rewrite Hd].
  - done.
Qed.

Lemma parseFloat_starts (s : string) :
  starts_with_number s = true → isNaN (parseFloat s) = false.
Proof.
  unfold starts_with_number, parseFloat.
  destruct (split_sign (drop_while is_js_space s)) as [neg u]. simpl.
  apply read_unsigned_starts.
Qed.

Lemma parseFloat_not_starts (s : string) :
  starts_with_number s = false → parseFloat s = S754_nan.
Proof.
  unfold starts_with_number, parseFloat.
  destruct (split_sign (drop_while is_js_space s)) as [neg u]. simpl.
  apply read_unsigned_not_starts.
Qed.

Lemma numeric_text_starts (s : string) :
  numeric_text s = true → starts_with_number s = true.
Proof.
  unfold numeric_text, starts_with_number.
  destruct (split_sign (drop_while is_js_space s)) as [neg u]. simpl.
  intros H. apply orb_true_iff in H as [H|H].
  - apply bool_decide_eq_true in H. by subst u.
  - destruct (starts_unsigned u) eqn:Hst; [done|]. exfalso.
    pose proof (read_unsigned_not_starts false u Hst) as Hnone.
    unfold read_unsigned in Hnone.
    destruct (String.prefix "Infinity" u); [done|].
    destruct (span is_digit u) as [int_part rest].
    destruct (read_fraction rest) as [frac_part rest'].
    destruct (truthy_string int_part || truthy_string frac_part); [|done].
    apply (f_equal isNaN) in Hnone. by rewrite number_value_not_nan in Hnone.
Qed.

(** *** Every text that is read has the parts of a literal *)

Lemma split_sign_spec (t : string) :
  ∃ sg, t = sign_text sg +:+ (split_sign t).2
        ∧ (split_sign t).1 = is_minus sg
        ∧ (sg = NoSign → starts_with is_sign_char t = false).
Proof.
  destruct t as [|c u]; [by exists NoSign|]. simpl. unfold is_sign_char.
  destruct (bool_decide (c = "+"%char)) eqn:Hplus.
  { apply bool_decide_eq_true in Hplus as ->. by exists Plus. }
  destruct (bool_decide (c = "-"%char)) eqn:Hminus.
  { apply bool_decide_eq_true in Hminus as ->. by exists Minus. }
  by exists NoSign.
Qed.

Lemma read_fraction_spec (r1 : string) :
  starts_with is_digit r1 = false →
  ∃ fo r2, r1 = frac_text fo +:+ r2
           ∧ read_fraction r1 = (frac_digits fo, r2)
           ∧ string_forallb is_digit (frac_digits fo) = true
           ∧ starts_with is_digit r2 = false
           ∧ (fo = None → starts_with is_point r2 = false).
Proof.
  intros Hr1. destruct r1 as [|c r]; [by exists None, ""|]. simpl.
  unfold is_point. destruct (bool_decide (c = "."%char)) eqn:Hc.
  - apply bool_decide_eq_true in Hc as ->.
    destruct (span_spec is_digit r) as (Heq & Hds & Hstop).
    exists (Some (span is_digit r).1), (span is_digit r).2.
    split; [|split; [|done]].
    + unfold frac_text. by rewrite append_cons, <- Heq.
    + simpl. by destruct (span is_digit r).
  - exists None, (String c r). simpl. by rewrite Hc.
Qed.

Lemma read_exponent_spec (r2 : string) :
  starts_with is_digit r2 = false →
  ∃ eo rest, r2 = exp_text eo +:+ rest
             ∧ read_exponent r2 = exp_value eo
             ∧ starts_with is_digit rest = false
             ∧ match eo with
               | Some x => is_exponent_part x = true
               | None => rest = r2 ∧ starts_exponent r2 = false
               end.
Proof.
  intros Hr2.
  assert (Hnone : starts_exponent r2 = false →
                  ∃ eo rest, r2 = exp_text eo +:+ rest
                    ∧ read_exponent r2 = exp_value eo
                    ∧ starts_with is_digit rest = false
                    ∧ match eo with
                      | Some x => is_exponent_part x = true
                      | None => rest = r2 ∧ starts_exponent r2 = false
                      end).
  { intros H. exists None, r2. by rewrite read_exponent_none. }
  destruct (starts_exponent r2) eqn:Hstarts; [|by apply Hnone].
  clear Hnone. destruct r2 as [|c r]; [done|]. simpl in Hstarts.
  apply andb_true_iff in Hstarts as [Hm Hstarts].
  destruct (split_sign_spec r) as (sg & Hr & Hneg & Hno).
  destruct (span_spec is_digit (split_sign r).2) as (Heq & Hds & Hstop).
  pose proof (span_fst_empty is_digit (split_sign r).2) as Hfst.
  assert (Hne : truthy_string (span is_digit (split_sign r).2).1 = true).
  { rewrite Hfst. apply orb_true_iff in Hstarts as [Hd|Hs].
    - destruct r as [|d r0]; [done|]. simpl in Hd. simpl. unfold is_sign_char in *.
      rewrite !bool_decide_eq_false_2; [done|by intros ->..].
    - destruct r as [|d r0]; [done|].
      apply andb_true_iff in Hs as [Hs Hd]. simpl. unfold is_sign_char in Hs.
      destruct (bool_decide (d = "+"%char)); [done|].
      by destruct (bool_decide (d = "-"%char)). }
  exists (Some {| exp_marker := c; exp_sign := sg;
                  exp_digits := (span is_digit (split_sign r).2).1 |}),
         (span is_digit (split_sign r).2).2.
  split; [|split; [|split]].
  - simpl. rewrite append_cons, append_assoc, <- Heq, <- Hr. done.
  - simpl. unfold is_exp_marker in Hm. rewrite Hm.
    destruct (split_sign r) as [neg r']. simpl in *.
    destruct (span is_digit r') as [ds r3]. simpl in *.
    by rewrite Hne, Hneg.
  - done.
  - unfold is_exponent_part. simpl. by rewrite Hm, Hne, Hds.
Qed.

Lemma read_unsigned_parts (neg : bool) (u : string) :
  String.prefix "Infinity" u = false →
  isNaN (read_unsigned neg u) = false →
  ∃ ip fo eo rest,
    u = ip +:+ frac_text fo +:+ exp_text eo +:+ rest
    ∧ ∀ sg, is_literal {| lit_sign := sg; lit_int := ip; lit_frac := fo;
                          lit_exp := eo |} = true
            ∧ literal_ends {| lit_sign := sg; lit_int := ip; lit_frac := fo;
                              lit_exp := eo |} rest = true.
Proof.
  intros Hinf Hnan. unfold read_unsigned in Hnan. rewrite Hinf in Hnan.
  destruct (span_spec is_digit u) as (Hu & Hip & Hr1).
  destruct (span is_digit u) as [ip r1]. simpl in *.
  destruct (read_fraction_spec r1 Hr1) as (fo & r2 & Hr1' & Hfrac & Hfo & Hr2 & Hpt).
  rewrite Hfrac in Hnan.
  destruct (read_exponent_spec r2 Hr2) as (eo & rest & Hr2' & _ & Hrest & Heo).
  destruct (truthy_string ip || truthy_string (frac_digits fo)) eqn:Hne;
    [|done].
  exists ip, fo, eo, rest. split; [by rewrite Hu, Hr1', Hr2'|]. intros sg.
  unfold is_literal, literal_ends. simpl. rewrite Hip, Hfo, Hne, Hrest. simpl.
  destruct eo as [x|].
  - by rewrite Heo.
  - destruct Heo as [-> Hnoexp]. rewrite Hnoexp. simpl.
    destruct fo as [f|]; simpl; [done|]. by rewrite Hpt.
Qed.

Lemma parseFloat_parts (s : string) :
  starts_with_number s = true →
  (∃ ws sg rest,
     string_forallb is_js_space ws = true
     ∧ s = ws +:+ sign_text sg +:+ "Infinity" +:+ rest)
  ∨ (∃ ws l rest,
       string_forallb is_js_space ws = true
       ∧ is_literal l = true ∧ literal_ends l rest = true
       ∧ s = ws +:+ literal_text l +:+ rest).
Proof.
  intros Hs. pose proof (parseFloat_starts s Hs) as Hnan.
  unfold parseFloat in Hnan.
  destruct (span_spec is_js_space s) as (Heq & Hws & _).
  rewrite <- drop_while_span in Heq.
  destruct (split_sign_spec (drop_while is_js_space s)) as (sg & Ht & Hneg & _).
  destruct (split_sign (drop_while is_js_space s)) as [neg u]. simpl in *.
  destruct (String.prefix "Infinity" u) eqn:Hinf.
  - left. apply prefix_append in Hinf as [rest ->].
    exists (span is_js_space s).1, sg, rest. split; [done|].
    by rewrite Heq at 1; rewrite Ht.
  - right. destruct (read_unsigned_parts neg u Hinf Hnan)
      as (ip & fo & eo & rest & Hu & Hl).
    exists (span is_js_space s).1,
      {| lit_sign := sg; lit_int := ip; lit_frac := fo; lit_exp := eo |}, rest.
    destruct (Hl sg) as [Hlit Hends]. repeat (split; [done|]).
    unfold literal_text. simpl. rewrite !append_assoc, <- Hu, <- Ht. done.
Qed.

(** *** A literal that ends is the longest *)

Lemma length_append (a b : string) :
  String.length (a +:+ b) = (String.length a + String.length b)%nat.
Proof.
  induction a as [|c a IH]; [done|]. rewrite append_cons. simpl. by rewrite IH.
Qed.

Lemma starts_with_cons (p : ascii → bool) (s : string) :
  starts_with p s = true → ∃ c r, s = String c r ∧ p c = true.
Proof. destruct s as [|c r]; [done|]. intros H. by exists c, r. Qed.

(** Two runs of digits at the head of one text: the run that is followed
    by no digit contains the other. *)
Lemma digits_prefix (a b x y : string) :
  string_forallb is_digit b = true → starts_with is_digit x = false →
  a +:+ x = b +:+ y → ∃ c, a = b +:+ c ∧ y = c +:+ x.
Proof.
  intros Hb Hx. revert a. induction b as [|d b IH]; intros a Heq.
  - by exists a.
  - simpl in Hb. apply andb_true_iff in Hb as [Hd Hb].
    rewrite append_cons in Heq. destruct a as [|d' a].
    + change ("" +:+ x) with x in Heq. subst x. simpl in Hx. congruence.
    + rewrite append_cons in Heq. injection Heq as -> Heq.
      destruct (IH Hb a Heq) as (c & -> & ->). exists c.
      by rewrite append_cons.
Qed.

Lemma exp_marker_not_digit (x : ExponentPart) (t : string) :
  is_exponent_part x = true →
  starts_with is_digit (exp_text (Some x) +:+ t) = false
  ∧ starts_with is_point (exp_text (Some x) +:+ t) = false.
Proof.
  unfold is_exponent_part. intros H. apply andb_true_iff in H as [H _].
  apply andb_true_iff in H as [Hm _]. unfold is_exp_marker in Hm. simpl.
  apply orb_true_iff in Hm as [Hm|Hm]; apply bool_decide_eq_true in Hm;
    by rewrite Hm.
Qed.

Lemma exp_text_starts (x : ExponentPart) (t : string) :
  is_exponent_part x = true →
  starts_exponent (exp_text (Some x) +:+ t) = true.
Proof.
  unfold is_exponent_part. intros H. apply andb_true_iff in H as [H Hds].
  apply andb_true_iff in H as [Hm Hne]. simpl. rewrite Hm. simpl.
  rewrite append_assoc.
  pose proof (forallb_starts is_digit (exp_digits x) t Hne Hds) as Hstart.
  destruct (exp_sign x); simpl;
    change ("" +:+ exp_digits x +:+ t) with (exp_digits x +:+ t);
    by rewrite Hstart.
Qed.

Lemma sign_text_inj (sg sg' : Sign) (u u' : string) :
  starts_with is_sign_char u = false → starts_with is_sign_char u' = false →
  sign_text sg +:+ u = sign_text sg' +:+ u' → sg = sg' ∧ u = u'.
Proof.
  intros Hu Hu' Heq.
  destruct sg, sg'; simpl in Heq;
    repeat match type of Heq with
      | context [String ?c ?a +:+ ?b] =>
          rewrite (append_cons c a b) in Heq
      | context ["" +:+ ?b] => change ("" +:+ b) with b in Heq
      end;
    try (injection Heq as Heq; done); try done;
    try (subst u; discriminate Hu); try (subst u'; discriminate Hu').
Qed.

Lemma exp_longest (eo eo' : option ExponentPart) (rest rest' : string) :
  exp_ok eo = true → exp_ok eo' = true →
  starts_with is_digit rest = false →
  (is_Some eo ∨ starts_exponent rest = false) →
  exp_text eo +:+ rest = exp_text eo' +:+ rest' →
  (String.length (exp_text eo') ≤ String.length (exp_text eo))%nat.
Proof.
  intros Hok Hok' Hrest Hnoexp Heq.
  destruct eo' as [x'|]; [|simpl; lia].
  destruct eo as [x|].
  - simpl in *. rewrite !append_cons, !append_assoc in Heq.
    injection Heq as Hm Heq.
    unfold is_exponent_part in Hok, Hok'.
    apply andb_true_iff in Hok as [Hok Hds].
    apply andb_true_iff in Hok as [_ Hne].
    apply andb_true_iff in Hok' as [Hok' Hds'].
    apply andb_true_iff in Hok' as [_ Hne'].
    apply sign_text_inj in Heq as [Hsg Heq].
    2,3: apply starts_digit_not_sign; by apply forallb_starts.
    apply digits_prefix in Heq as (c & Hc & _); [|done..].
    rewrite Hsg, Hc, !length_append. lia.
  - destruct Hnoexp as [[? [=]]|Hnoexp]. exfalso.
    change (exp_text None +:+ rest) with rest in Heq.
    rewrite Heq, exp_text_starts in Hnoexp; done.
Qed.

Lemma frac_longest (fo fo' : option string) (eo eo' : option ExponentPart)
    (rest rest' : string) :
  string_forallb is_digit (frac_digits fo) = true →
  string_forallb is_digit (frac_digits fo') = true →
  exp_ok eo = true → exp_ok eo' = true →
  starts_with is_digit rest = false →
  (is_Some eo ∨ starts_exponent rest = false) →
  (is_Some eo ∨ is_Some fo ∨ starts_with is_point rest = false) →
  frac_text fo +:+ exp_text eo +:+ rest
  = frac_text fo' +:+ exp_text eo' +:+ rest' →
  (String.length (frac_text fo' +:+ exp_text eo')
   ≤ String.length (frac_text fo +:+ exp_text eo))%nat.
Proof.
  intros Hfo Hfo' Hok Hok' Hrest Hnoexp Hnopt Heq.
  assert (Htail : starts_with is_digit (exp_text eo +:+ rest) = false).
  { destruct eo as [x|]; [by apply exp_marker_not_digit|done]. }
  destruct fo as [f|], fo' as [f'|]; simpl in Heq.
  - rewrite !append_cons in Heq. injection Heq as Heq.
    apply digits_prefix in Heq as (c & -> & Hc); [|done..].
    rewrite !length_append. simpl. rewrite !length_append.
    destruct c as [|d c].
    + change ("" +:+ exp_text eo +:+ rest) with (exp_text eo +:+ rest) in Hc.
      pose proof (exp_longest eo eo' rest rest' Hok Hok' Hrest Hnoexp
                    (eq_sym Hc)). simpl. lia.
    + destruct eo' as [x'|]; [|simpl; lia]. exfalso.
      rewrite append_cons in Hc.
      destruct (exp_marker_not_digit x' rest' Hok') as [Hd _].
      rewrite Hc in Hd. simpl in Hd.
      simpl in Hfo. rewrite forallb_append in Hfo.
      apply andb_true_iff in Hfo as [_ Hfo]. simpl in Hfo.
      apply andb_true_iff in Hfo as [Hfo _]. congruence.
  - rewrite append_cons in Heq.
    change ("" +:+ exp_text eo' +:+ rest') with (exp_text eo' +:+ rest') in Heq.
    destruct eo' as [x'|].
    + destruct (exp_marker_not_digit x' rest' Hok') as [_ Hp].
      rewrite <- Heq in Hp. done.
    + simpl. lia.
  - exfalso. rewrite append_cons in Heq.
    change ("" +:+ exp_text eo +:+ rest) with (exp_text eo +:+ rest) in Heq.
    destruct eo as [x|].
    + destruct (exp_marker_not_digit x rest Hok) as [_ Hp].
      rewrite Heq in Hp. done.
    + destruct Hnopt as [[? [=]]|[[? [=]]|Hnopt]].
      change (exp_text None +:+ rest) with rest in Heq.
      rewrite Heq in Hnopt. done.
  - change ("" +:+ exp_text eo +:+ rest) with (exp_text eo +:+ rest) in Heq.
    change ("" +:+ exp_text eo' +:+ rest') with (exp_text eo' +:+ rest') in Heq.
    pose proof (exp_longest eo eo' rest rest' Hok Hok' Hrest Hnoexp Heq).
    simpl. change ("" +:+ exp_text eo) with (exp_text eo).
    by change ("" +:+ exp_text eo') with (exp_text eo').
Qed.

(** Among the literals that a text begins with, the one that ends is the
    longest. *)
Lemma literal_longest (l l' : DecimalLiteral) (rest rest' : string) :
  is_literal l = true → literal_ends l rest = true → is_literal l' = true →
  literal_text l +:+ rest = literal_text l' +:+ rest' →
  (String.length (literal_text l') ≤ String.length (literal_text l))%nat.
Proof.
  intros Hlit Hends Hlit' Heq.
  pose proof (literal_body_starts l rest Hlit) as Hstart.
  pose proof (literal_body_starts l' rest' Hlit') as Hstart'.
  unfold literal_text in *. rewrite !append_assoc in Heq.
  apply sign_text_inj in Heq as [Hsg Heq].
  2:{ revert Hstart. apply starts_with_impl. intros c Hc.
      by apply digit_or_point in Hc as (? & ? & ?). }
  2:{ revert Hstart'. apply starts_with_impl. intros c Hc.
      by apply digit_or_point in Hc as (? & ? & ?). }
  clear Hstart Hstart'.
  unfold is_literal in Hlit, Hlit'.
  apply andb_true_iff in Hlit as [Hlit Hexp].
  apply andb_true_iff in Hlit as [Hlit Hne].
  apply andb_true_iff in Hlit as [Hint Hfrac].
  apply andb_true_iff in Hlit' as [Hlit' Hexp'].
  apply andb_true_iff in Hlit' as [Hlit' Hne'].
  apply andb_true_iff in Hlit' as [Hint' Hfrac'].
  unfold literal_ends in Hends. apply andb_true_iff in Hends as [Hends Hpoint].
  apply andb_true_iff in Hends as [Hdigit Hnoexp].
  apply negb_true_iff in Hdigit.
  assert (Hnoexp' : is_Some (lit_exp l) ∨ starts_exponent rest = false).
  { apply orb_true_iff in Hnoexp as [H|H].
    - left. by apply bool_decide_eq_true in H.
    - right. by apply negb_true_iff in H. }
  assert (Hnopt : is_Some (lit_exp l) ∨ is_Some (lit_frac l)
                  ∨ starts_with is_point rest = false).
  { apply orb_true_iff in Hpoint as [H|H].
    - apply orb_true_iff in H as [H|H]; apply bool_decide_eq_true in H; auto.
    - right. right. by apply negb_true_iff in H. }
  assert (Htail : starts_with is_digit
                    (frac_text (lit_frac l) +:+ exp_text (lit_exp l) +:+ rest)
                  = false).
  { destruct (lit_frac l) as [f|]; [done|].
    destruct (lit_exp l) as [x|]; [by apply exp_marker_not_digit|done]. }
  apply digits_prefix in Heq as (c & Hc & Heq); [|done..].
  rewrite Hsg, Hc, !length_append.
  destruct c as [|d c].
  - change ("" +:+ frac_text (lit_frac l) +:+ exp_text (lit_exp l) +:+ rest)
      with (frac_text (lit_frac l) +:+ exp_text (lit_exp l) +:+ rest) in Heq.
    pose proof (frac_longest (lit_frac l) (lit_frac l') (lit_exp l)
                  (lit_exp l') rest rest' Hfrac Hfrac' Hexp Hexp' Hdigit Hnoexp'
                  Hnopt (eq_sym Heq)) as Hle.
    rewrite !length_append in Hle. simpl. lia.
  - assert (Hd : is_digit d = true).
    { rewrite Hc, forallb_append in Hint.
      apply andb_true_iff in Hint as [_ Hint]. simpl in Hint.
      by apply andb_true_iff in Hint as [-> _]. }
    rewrite append_cons in Heq.
    destruct (lit_frac l') as [f'|].
    { simpl in Heq. injection Heq as Hdd _. subst d. done. }
    change (frac_text None +:+ exp_text (lit_exp l') +:+ rest')
      with (exp_text (lit_exp l') +:+ rest') in Heq.
    destruct (lit_exp l') as [x'|].
    { destruct (exp_marker_not_digit x' rest' Hexp') as [Hx _].
      rewrite Heq in Hx. simpl in Hx. congruence. }
    simpl. lia.
Qed.

Lemma literal_number_integer (l : DecimalLiteral) :
  lit_frac l = None → lit_exp l = None →
  (Z.of_N (digits_value 0 (lit_int l)) < 2 ^ 53)%Z →
  is_integer (literal_number l)
    (if is_minus (lit_sign l) then - Z.of_N (digits_value 0 (lit_int l))
     else Z.of_N (digits_value 0 (lit_int l))).
Proof.
  intros Hf He Hn. unfold literal_number. rewrite Hf, He. simpl.
  rewrite append_empty_r. by apply number_value_integer.
Qed.

(** C7 (amended).  For an option of kind number and an explicit text, the
    coercion reads the text as [parseFloat] does.  When the text is white
    space, then a decimal literal that cannot be read further (it is the
    longest literal the text begins with), then any text, the coercion
    returns the Number of that literal: the binary64 value nearest to the
    digits scaled by the exponent, which is the integer itself for a
    literal of digits only below [2^53].  When the text is white space, an
    optional sign and [Infinity], it returns that infinity.  A text begins
    with a number exactly when it has one of these two shapes, and the
    coercion fails, with the error that cites the name of the option and
    the raw text, exactly when the text does not begin with a number.  A
    numeric text begins with a number. *)
Theorem number_coercion (option : CLIOption) (value : string) :
  type option = TNumber →
  (∀ (ws : string) (l : DecimalLiteral) (rest : string),
     value = ws +:+ literal_text l +:+ rest →
     string_forallb is_js_space ws = true →
     is_literal l = true → literal_ends l rest = true →
     parseOptionValue (RawString value) option = Ok (VNum (literal_number l))
     ∧ (∀ (l' : DecimalLiteral) (rest' : string),
          is_literal l' = true →
          literal_text l +:+ rest = literal_text l' +:+ rest' →
          (String.length (literal_text l') ≤ String.length (literal_text l))%nat)
     ∧ (lit_frac l = None → lit_exp l = None →
        (Z.of_N (digits_value 0 (lit_int l)) < 2 ^ 53)%Z →
        is_integer (literal_number l)
          (if is_minus (lit_sign l)
           then - Z.of_N (digits_value 0 (lit_int l))
           else Z.of_N (digits_value 0 (lit_int l)))))
  ∧ (∀ (ws : string) (sg : Sign) (rest : string),
       value = ws +:+ sign_text sg +:+ "Infinity" +:+ rest →
       string_forallb is_js_space ws = true →
       parseOptionValue (RawString value) option
       = Ok (VNum (S754_infinity (is_minus sg))))
  ∧ (starts_with_number value = true
     ↔ (∃ ws sg rest,
          string_forallb is_js_space ws = true
          ∧ value = ws +:+ sign_text sg +:+ "Infinity" +:+ rest)
       ∨ (∃ ws l rest,
            string_forallb is_js_space ws = true
            ∧ is_literal l = true ∧ literal_ends l rest = true
            ∧ value = ws +:+ literal_text l +:+ rest))
  ∧ (starts_with_number value = false
     ↔ parseOptionValue (RawString value) option
       = Throw (ExpectsNumber (name option) value))
  ∧ (numeric_text value = true → starts_with_number value = true)
  ∧ message (ExpectsNumber (name option) value)
    = "Option " +:+ name option +:+ " expects a number, got: " +:+ value.
Proof.
  intros Htype.
  assert (Hcoerce : parseOptionValue (RawString value) option
                    = if isNaN (parseFloat value)
                      then Throw (ExpectsNumber (name option) value)
                      else Ok (VNum (parseFloat value))).
  { unfold parseOptionValue. by rewrite Htype. }
  assert (Hlit : ∀ ws l rest,
            value = ws +:+ literal_text l +:+ rest →
            string_forallb is_js_space ws = true →
            is_literal l = true → literal_ends l rest = true →
            parseOptionValue (RawString value) option
            = Ok (VNum (literal_number l))).
  { intros ws l rest Hv Hws Hl Hends. rewrite Hcoerce, Hv.
    rewrite (parseFloat_literal ws l rest Hws Hl Hends).
    unfold literal_number. by rewrite number_value_not_nan. }
  assert (Hinf : ∀ ws sg rest,
            value = ws +:+ sign_text sg +:+ "Infinity" +:+ rest →
            string_forallb is_js_space ws = true →
            parseOptionValue (RawString value) option
            = Ok (VNum (S754_infinity (is_minus sg)))).
  { intros ws sg rest Hv Hws. rewrite Hcoerce, Hv.
    by rewrite (parseFloat_infinity ws sg rest Hws). }
  assert (Hfail : starts_with_number value = false
                  ↔ parseOptionValue (RawString value) option
                    = Throw (ExpectsNumber (name option) value)).
  { rewrite Hcoerce. split.
    - intros Hs. by rewrite (parseFloat_not_starts value Hs).
    - intros Hthrow. destruct (starts_with_number value) eqn:Hs; [|done].
      by rewrite (parseFloat_starts value Hs) in Hthrow. }
  split; [|split; [done|split; [|split; [done|split]]]].
  - intros ws l rest Hv Hws Hl Hends. split; [by apply (Hlit ws l rest)|].
    split.
    + intros l' rest'. by apply literal_longest.
    + by apply literal_number_integer.
  - split; [apply parseFloat_parts|].
    intros Hshape. destruct (starts_with_number value) eqn:Hs; [done|].
    clear Hs. destruct Hfail as [Hs _]. specialize (Hs eq_refl).
    destruct Hshape as [(ws & sg & rest & Hws & Hv)
                       |(ws & l & rest & Hws & Hl & Hends & Hv)].
    + by rewrite (Hinf ws sg rest Hv Hws) in Hs.
    + by rewrite (Hlit ws l rest Hv Hws Hl Hends) in Hs.
  - apply numeric_text_starts.
  - reflexivity.
Qed.

(** The scenario of the specification: the text [3000] for the option
    [port] becomes the number 3000, that is [6597069766656000 * 2^(-41)]. *)
Lemma number_coercion_witness :
  parseOptionValue (RawString "3000") port_option
  = Ok (VNum (S754_finite false 6597069766656000 (-41)))
  ∧ is_integer (S754_finite false 6597069766656000 (-41)) 3000.
Proof.
  destruct (number_coercion port_option "3000" eq_refl) as [Hlit _].
  destruct (Hlit ""
              {| lit_sign := NoSign; lit_int := "3000"; lit_frac := None;
                 lit_exp := None |} ""
              eq_refl eq_refl eq_refl eq_refl) as (Hnum & _ & Hint).
  split; [exact Hnum|]. apply Hint; reflexivity.
Defined.

(** C7 as the specification states it does not hold: the text [12abc] is
    not numeric, and the coercion returns 12 for it. *)
Lemma number_coercion_accepts_trailing_text :
  ¬ number_coercion_fails_iff_not_numeric.
Proof.
  intros H. specialize (H port_option "12abc" eq_refl).
  destruct H as [_ H]. specialize (H eq_refl). discriminate H.
Qed.

Example parseFloat_port :
  parseFloat "3000" = S754_finite false 6597069766656000 (-41).
Proof. reflexivity. Qed.

Example parseFloat_trailing_text :
  parseFloat "12abc" = S754_finite false 6755399441055744 (-49).
Proof. reflexivity. Qed.

(** The rounding: [2^53 + 1] is read as [2^53], a literal too small as a
    zero, one too large as an infinity, and equal values written
    differently are one Number. *)
Example parseFloat_rounds :
  parseFloat "9007199254740993" = parseFloat "9007199254740992"
  ∧ parseFloat "9007199254740992" = S754_finite false 4503599627370496 1
  ∧ parseFloat "1e-400" = S754_zero false
  ∧ parseFloat "-1e-400" = S754_zero true
  ∧ parseFloat "1e400" = S754_infinity false
  ∧ parseFloat "1e3" = parseFloat "1000"
  ∧ parseFloat "0.1" = S754_finite false 7205759403792794 (-56)
  ∧ parseFloat " -.5E+1x" = S754_finite true 5629499534213120 (-50)
  ∧ parseFloat "-Infinity" = S754_infinity true
  ∧ parseFloat "5e-324" = S754_finite false 1 (-1074).
Proof. vm_compute. repeat split. Qed.

(** ** The patterns *)

Lemma is_letter_name_char (c : ascii) : is_letter c = true → is_name_char c = true.
Proof. intros H. unfold is_name_char, is_alnum. by rewrite H. Qed.

(** The name that [OPTION_REGEX] captures is not empty and is made of name
    characters. *)
Lemma OPTION_REGEX_name (token nm : string) (value : option string) :
  OPTION_REGEX token = Some (nm, value) →
  truthy_string nm = true ∧ string_forallb is_name_char nm = true.
Proof.
  unfold OPTION_REGEX. destruct token as [|d rest]; [done|].
  destruct (bool_decide (d = "-"%char)); [|done].
  match goal with |- context [span is_name_char ?b] => generalize b end.
  intros body. destruct body as [|c r] eqn:Hbody; [done|].
  destruct (is_letter c) eqn:Hc; [|done]. rewrite <- Hbody.
  pose proof (span_fst_empty is_name_char body) as Hne.
  pose proof (span_forallb is_name_char body) as Hall.
  destruct (span is_name_char body) as [nm' tail]. simpl in *.
  rewrite Hbody, (is_letter_name_char c Hc) in Hne.
  destruct tail as [|e v].
  - by intros [= <- <-].
  - destruct (_ && _); [|done]. by intros [= <- <-].
Qed.

Lemma isOption_true (token : string) :
  isOption token = true → ∃ nm value, OPTION_REGEX token = Some (nm, value).
Proof.
  unfold isOption. intros H. apply bool_decide_eq_true in H as [[nm value] H].
  eauto.
Qed.

(** On a token that the option pattern matches, [parseOption] does not fail
    and returns the captured name. *)
Lemma parseOption_matched (token : string) (tokens : list string) (i : nat)
    (nm : string) (value : option string) :
  OPTION_REGEX token = Some (nm, value) →
  parseOption token tokens i
  = Ok (nm, match value with
            | Some v => RawString v
            | None =>
                match next_is_value tokens i with
                | Some nextToken => RawString nextToken
                | None => RawBool true
                end
            end).
Proof.
  intros H. unfold parseOption. rewrite H.
  destruct (OPTION_REGEX_name _ _ _ H) as [-> _]. simpl.
  destruct value; [done|]. by destruct (next_is_value tokens i).
Qed.


(** ** The loop of [parse] *)


(** Every round of the loop moves the cursor forward. *)
Lemma step_advances (tokens : list string) (schema : list CLIOption)
    (st st' : LoopState) :
  (cursor st < length tokens)%nat →
  step tokens schema st = Next st' → (cursor st < cursor st')%nat.
Proof.
  intros Hlt. unfold step.
  destruct (lookup_lt_is_Some_2 tokens (cursor st) Hlt) as [token ->].
  destruct (negb (truthy_string token)); [intros [= <-]; simpl; lia|].
  destruct (isOption token).
  - destruct (parseOption token tokens (cursor st)) as [[nm value]|]; [|done].
    destruct (lookup_option nm schema (optionCache st)) as [[option|] c].
    + destruct (parseOptionValue value option); [|done].
      intros [= <-]; simpl; lia.
    + intros [= <-]; simpl; lia.
  - destruct (startsWith "-" token).
    + destruct (fold_left _ _ _). intros [= <-]; simpl.
      destruct (1 <? _)%nat; lia.
    + destruct (_ && _); intros [= <-]; simpl; lia.
Qed.

(** The loop run with enough fuel ends on its own condition: the cursor is
    past the last token. *)
Lemma loop_exits (fuel : nat) (tokens : list string) (schema : list CLIOption)
    (st st' : LoopState) :
  (length tokens - cursor st ≤ fuel)%nat →
  loop fuel tokens schema st = Next st' → (length tokens ≤ cursor st')%nat.
Proof.
  revert st. induction fuel as [|fuel IH]; intros st Hfuel; simpl.
  - intros [= <-]. lia.
  - destruct (cursor st <? length tokens)%nat eqn:Hlt.
    + apply Nat.ltb_lt in Hlt.
      destruct (step tokens schema st) as [st1|] eqn:Hstep; [|done].
      apply step_advances in Hstep; [|done]. apply IH. lia.
    + apply Nat.ltb_ge in Hlt. intros [= <-]. lia.
Qed.

(** More fuel than the number of tokens left changes nothing. *)
Lemma loop_fuel (fuel : nat) (tokens : list string) (schema : list CLIOption)
    (st : LoopState) :
  (length tokens - cursor st ≤ fuel)%nat →
  loop (S fuel) tokens schema st = loop fuel tokens schema st.
Proof.
  revert st. induction fuel as [|fuel IH]; intros st Hfuel.
  - simpl. destruct (cursor st <? length tokens)%nat eqn:Hlt; [|done].
    apply Nat.ltb_lt in Hlt. lia.
  - change (loop (S (S fuel)) tokens schema st)
      with (if (cursor st <? length tokens)%nat then
              match step tokens schema st with
              | Next st' => loop (S fuel) tokens schema st'
              | Raised e cache => Raised e cache
              end
            else Next st).
    simpl. destruct (cursor st <? length tokens)%nat eqn:Hlt; [|done].
    apply Nat.ltb_lt in Hlt.
    destruct (step tokens schema st) as [st1|] eqn:Hstep; [|done].
    apply step_advances in Hstep; [|done]. apply IH. lia.
Qed.


(** The fuel that [parse] gives the loop is enough: when the loop returns,
    the cursor is past the last token, and one more unit of fuel changes
    nothing. *)
Lemma parse_loop_complete (tokens : list string) (schema : list CLIOption)
    (st st' : LoopState) :
  cursor st = 0 →
  (loop (length tokens) tokens schema st = Next st' →
   (length tokens ≤ cursor st')%nat)
  ∧ loop (S (length tokens)) tokens schema st
    = loop (length tokens) tokens schema st.
Proof.
  intros Hc. split.
  - apply loop_exits. lia.
  - apply loop_fuel. lia.
Qed.


(** ** What a round of the loop keeps *)

Lemma startsWith_dash (c : ascii) (r : string) :
  startsWith "-" (String c r) = bool_decide (c = "-"%char).
Proof.
  unfold startsWith.
  change (String.prefix "-" (String c r))
    with (match ascii_dec "-" c with
          | left _ => String.prefix "" r
          | right _ => false
          end).
  destruct (ascii_dec "-" c) as [<-|Hne].
  - rewrite bool_decide_eq_true_2 by done. by destruct r.
  - by rewrite bool_decide_eq_false_2 by congruence.
Qed.

Lemma isOption_dash (token : string) :
  isOption token = true → startsWith "-" token = true.
Proof.
  intros H. apply isOption_true in H as (nm & value & H).
  unfold OPTION_REGEX in H. destruct token as [|d rest]; [done|].
  rewrite startsWith_dash. by destruct (bool_decide (d = "-"%char)).
Qed.

(** The ways a round of the loop changes the command and the positionals:
    not at all, or by recording the plain token under the cursor. *)
Lemma step_records (tokens : list string) (schema : list CLIOption)
    (st st' : LoopState) :
  step tokens schema st = Next st' →
  (cursor st ≤ cursor st')%nat
  ∧ ((command (parsed st') = command (parsed st)
      ∧ args (parsed st') = args (parsed st))
     ∨ (∃ token, tokens !! cursor st = Some token
                 ∧ is_plain token = true
                 ∧ cursor st' = S (cursor st)
                 ∧ ((command (parsed st) = [] ∧ args (parsed st) = []
                     ∧ command (parsed st') = [token]
                     ∧ args (parsed st') = [])
                    ∨ (¬ (command (parsed st) = [] ∧ args (parsed st) = [])
                       ∧ command (parsed st') = command (parsed st)
                       ∧ args (parsed st')
                         = (args (parsed st) ++ [token])%list)))).
Proof.
  unfold step.
  destruct (tokens !! cursor st) as [token|] eqn:Htok;
    [|intros [= <-]; split; [lia|by left]].
  destruct (truthy_string token) eqn:Ht; simpl;
    [|intros [= <-]; simpl; split; [lia|by left]].
  destruct (isOption token) eqn:Ho.
  - destruct (parseOption token tokens (cursor st)) as [[nm value]|]; [|done].
    destruct (lookup_option nm schema (optionCache st)) as [[option|] c].
    + destruct (parseOptionValue value option); [|done].
      intros [= <-]; simpl; split; [lia|by left].
    + intros [= <-]; simpl; split; [lia|by left].
  - destruct (startsWith "-" token) eqn:Hs.
    + destruct (fold_left _ _ _). intros [= <-]; simpl. split; [lia|by left].
    + assert (Hplain : is_plain token = true)
        by (unfold is_plain; by rewrite Ht, Hs).
      destruct (bool_decide (length (command (parsed st)) = 0)
                && bool_decide (length (args (parsed st)) = 0)) eqn:Hb;
        intros [= <-]; simpl; (split; [lia|]); right; exists token;
        (split; [done|]); (split; [done|]); (split; [lia|]).
      * apply andb_true_iff in Hb as [H1 H2].
        apply bool_decide_eq_true, length_zero_iff_nil in H1.
        apply bool_decide_eq_true, length_zero_iff_nil in H2.
        left. by rewrite H1, H2.
      * right. split; [|done]. intros [H1 H2]. by rewrite H1, H2 in Hb.
Qed.

(** A property of the state that every round keeps is kept by the loop. *)
Lemma loop_keeps (I : LoopState → Prop) (fuel : nat) (tokens : list string)
    (schema : list CLIOption) (st st' : LoopState) :
  (∀ s s', I s → step tokens schema s = Next s' → I s') →
  I st → loop fuel tokens schema st = Next st' → I st'.
Proof.
  intros Hstep. revert st. induction fuel as [|fuel IH]; intros st HI; simpl.
  - by intros [= <-].
  - destruct (cursor st <? length tokens)%nat; [|by intros [= <-]].
    destruct (step tokens schema st) as [st1|] eqn:H1; [|done].
    apply IH. by apply (Hstep st).
Qed.

(** ** Two runs of the tests of the repository *)

(** C2, on the schema of the test [should parse combined short options]:
    the option pattern matches the token [-vq], which is therefore read as
    the single flag [vq]; no option is called so, and neither [verbose] nor
    [quiet] is set.  The same holds for [-qv]. *)
Lemma combined_cluster_read_as_one_flag :
  isOption "-vq" = true
  ∧ (parse ["node"; "cli"; "-vq"] [verbose_option; quiet_option] [] ∅).1
    = Ok {| command := []; options := ∅; args := [] |}
  ∧ (parse ["node"; "cli"; "-qv"] [verbose_option; quiet_option] [] ∅).1
    = Ok {| command := []; options := ∅; args := [] |}.
Proof. repeat split; vm_compute; reflexivity. Qed.

(** C1, on a string option [output]: given as [--output file.txt], the
    value is bound to the option and recorded as the command as well; given
    as [--output=file.txt], it is bound to the option only. *)
Lemma separate_value_also_recorded :
  (parse ["node"; "cli"; "--output"; "file.txt"] [output_option] [] ∅).1
  = Ok {| command := ["file.txt"];
          options := {["output" := VStr "file.txt"]}; args := [] |}
  ∧ (parse ["node"; "cli"; "--output=file.txt"] [output_option] [] ∅).1
    = Ok {| command := [];
            options := {["output" := VStr "file.txt"]}; args := [] |}.
Proof. split; vm_compute; reflexivity. Qed.

(** The same through the dispatcher, on the scenario [build -o out2]: the
    handler of [build] receives [out2] as the option [output] and as a
    positional. *)
Example build_output_value_also_positional :
  (ZoltraCLIBuilder.parse (λ _, None) (cli_with [build_with_output])
     ["node"; "cli"; "build"; "-o"; "out2"] ∅).1
  = ZoltraCLIBuilder.Invoked "build handler" ["out2"]
      {["output" := VStr "out2"]}.
Proof. vm_compute. reflexivity. Qed.

(** ** Dispatch of an unmatched command name *)

Section Unmatched.
Import ZoltraCLIBuilder.
Context {Handler : Type}.
Variable prompts : Question → option RawValue.

Lemma sole_default_Some (cmds : list (CLICommand Handler))
    (d : CLICommand Handler) :
  sole_default cmds = Some d ↔ cmds = [d] ∧ cmd_name d = "".
Proof.
  unfold sole_default. split.
  - destruct cmds as [|c [|c' rest]]; simpl; try done.
    case_bool_decide; [|done]. by intros [= ->].
  - intros [-> Hn]. simpl. by rewrite bool_decide_eq_true_2.
Qed.

(** C3 (amended).  When the tentative command name matches no name and no
    alias of a registered command: if the list of the registered commands
    consists of one command only and the name of that command is empty,
    its handler is invoked with the positionals and the options of the
    parse against the global options; in every other case, among them a
    default command registered next to named commands, the dispatch fails
    with the error that names the unmatched token. *)
Theorem unmatched_command_dispatch (b : Builder Handler)
    (argv : list string) (cache : Cache) (p : ParsedArgs) (cache1 : Cache) :
  ZoltraCLIParser.parse argv (globalOptions b) [] cache = (Ok p, cache1) →
  truthy (options p !! "help") = false →
  truthy (options p !! "version") = false →
  List.find (matches (tentative_name p)) (commands b) = None →
  (∀ d, commands b = [d] → cmd_name d = "" →
        parse prompts b argv cache
        = (Invoked (action d) (args p) (options p), cache1))
  ∧ ((∀ d, commands b = [d] → cmd_name d ≠ "") →
     parse prompts b argv cache
     = (Exited (UnknownCommand (tentative_name p)), cache1)
     ∧ message (UnknownCommand (tentative_name p))
       = "Unknown command: " +:+ tentative_name p).
Proof.
  intros Hparse Hhelp Hversion Hfind. unfold parse.
  rewrite Hparse, Hhelp, Hversion, Hfind. split.
  - intros d Hcmds Hname.
    by rewrite (proj2 (sole_default_Some (commands b) d) (conj Hcmds Hname)).
  - intros Hnone. split; [|reflexivity].
    destruct (sole_default (commands b)) as [d|] eqn:Hsole; [|done].
    apply sole_default_Some in Hsole as [Hcmds Hname].
    by destruct (Hnone d Hcmds).
Qed.
End Unmatched.

(** The scenario of the specification: the token [frobnicate], with the
    commands [build] and [test] registered and no default command. *)
Lemma unmatched_command_dispatch_witness :
  ZoltraCLIBuilder.parse (λ _, None) (cli_with [build_command; test_command])
    ["node"; "cli"; "frobnicate"] ∅
  = (ZoltraCLIBuilder.Exited (UnknownCommand "frobnicate"), ∅).
Proof.
  refine (proj1 (proj2 (unmatched_command_dispatch (λ _, None)
                          (cli_with [build_command; test_command])
                          ["node"; "cli"; "frobnicate"] ∅
                          {| command := ["frobnicate"]; options := ∅;
                             args := [] |} ∅ _ _ _ _) _)).
  - reflexivity.
  - reflexivity.
  - reflexivity.
  - reflexivity.
  - intros d Hd. discriminate Hd.
Defined.

(** A default command that is the only registered command is reached by an
    unmatched token; the token itself is not among the positionals. *)
Example sole_default_command_invoked :
  (ZoltraCLIBuilder.parse (λ _, None) (cli_with [default_command])
     ["node"; "cli"; "frobnicate"; "x"] ∅).1
  = ZoltraCLIBuilder.Invoked "default handler" ["x"] ∅.
Proof. vm_compute. reflexivity. Qed.

(** C3 as the specification states it does not hold: with [build] and a
    default command registered, exactly one command has an empty name, and
    the unmatched token [frobnicate] ends in the error, not in the default
    command. *)
Lemma default_command_not_reached_beside_named :
  ¬ default_command_whenever_unique.
Proof.
  intros H.
  specialize (H (λ _, None) (cli_with [build_command; default_command])
                ["node"; "cli"; "frobnicate"] ∅
                {| command := ["frobnicate"]; options := ∅; args := [] |} ∅
                default_command eq_refl eq_refl eq_refl eq_refl eq_refl).
  vm_compute in H. discriminate H.
Qed.

(** ** The keys of the cache *)

Lemma name_no_colon (nm : string) :
  string_forallb is_name_char nm = true → no_colon nm = true.
Proof.
  unfold no_colon. induction nm as [|c r IH]; simpl; [done|].
  intros H. apply andb_true_iff in H as [Hc Hr]. rewrite (IH Hr), andb_true_r.
  case_bool_decide as Heq; [|done]. subst c. discriminate Hc.
Qed.

Lemma digits_no_colon (s : string) :
  string_forallb is_digit s = true → no_colon s = true.
Proof.
  unfold no_colon. induction s as [|c r IH]; simpl; [done|].
  intros H. apply andb_true_iff in H as [Hc Hr]. rewrite (IH Hr), andb_true_r.
  case_bool_decide as Heq; [|done]. subst c. discriminate Hc.
Qed.

(** Two texts that agree up to and after their first colon. *)
Lemma first_colon_inj (a b x y : string) :
  no_colon a = true → no_colon b = true →
  a +:+ ":" +:+ x = b +:+ ":" +:+ y → a = b ∧ x = y.
Proof.
  unfold no_colon. revert b.
  induction a as [|c a IH]; intros [|d b]; simpl; intros Ha Hb Heq.
  - by injection Heq.
  - injection Heq as <- _. done.
  - injection Heq as -> _. done.
  - injection Heq as -> Heq.
    apply andb_true_iff in Ha as [_ Ha]. apply andb_true_iff in Hb as [_ Hb].
    destruct (IH b Ha Hb Heq) as [-> ->]. done.
Qed.

Lemma pretty_N_char_digit (x : N) : is_digit (pretty_N_char x) = true.
Proof. unfold pretty_N_char. by repeat case_match. Qed.

Lemma pretty_N_go_digits (x : N) (s : string) :
  string_forallb is_digit s = true →
  string_forallb is_digit (pretty_N_go x s) = true.
Proof.
  revert s. induction (N.lt_wf_0 x) as [x _ IH]; intros s Hs.
  destruct (decide (x = 0%N)) as [->|Hx]; [by rewrite pretty_N_go_0|].
  rewrite pretty_N_go_step by lia. apply IH.
  - apply N.div_lt; lia.
  - simpl. by rewrite pretty_N_char_digit.
Qed.

Lemma pretty_nat_digits (n : nat) : string_forallb is_digit (pretty n) = true.
Proof.
  unfold pretty, pretty_nat, pretty, pretty_N.
  case_decide; [done|]. by apply pretty_N_go_digits.
Qed.

Lemma option_key_inj (nm nm' : string) (schema schema' : list CLIOption) :
  string_forallb is_name_char nm = true →
  string_forallb is_name_char nm' = true →
  option_key nm schema = option_key nm' schema' →
  nm = nm' ∧ length schema = length schema'.
Proof.
  intros Hn Hn' Heq. unfold option_key in Heq.
  apply first_colon_inj in Heq as [-> Heq]; [|by apply name_no_colon..].
  split; [done|]. by apply (inj pretty).
Qed.

Lemma alias_key_inj (c c' : ascii) (schema schema' : list CLIOption) :
  alias_key (String c EmptyString) schema
  = alias_key (String c' EmptyString) schema' →
  c = c' ∧ length schema = length schema'.
Proof.
  unfold alias_key. simpl. intros [= -> Heq]. split; [done|].
  by apply (inj pretty).
Qed.

Lemma option_key_not_alias_key (nm : string) (c : ascii)
    (schema schema' : list CLIOption) :
  string_forallb is_name_char nm = true →
  option_key nm schema ≠ alias_key (String c EmptyString) schema'.
Proof.
  intros Hn Heq. unfold option_key, alias_key in Heq.
  change ("alias:" +:+ String c "" +:+ ":" +:+ pretty (length schema'))
    with ("alias" +:+ ":" +:+ (String c "" +:+ ":" +:+ pretty (length schema')))
    in Heq.
  apply first_colon_inj in Heq as [_ Heq]; [|by apply name_no_colon|done].
  pose proof (digits_no_colon _ (pretty_nat_digits (length schema))) as Hd.
  rewrite Heq in Hd. unfold no_colon in Hd. simpl in Hd.
  by rewrite andb_false_r in Hd.
Qed.

(** ** The cache against the scans *)

Section Cache.
Variable schemas : list (list CLIOption).
Hypothesis Hapart : told_apart_by_length schemas.

Lemma cache_sound_empty : cache_sound schemas ∅.
Proof. intros schema _. split; intros ? ?; by rewrite lookup_empty. Qed.

Lemma lookup_option_sound (nm : string) (schema : list CLIOption)
    (cache : Cache) :
  schema ∈ schemas → cache_sound schemas cache →
  string_forallb is_name_char nm = true →
  (lookup_option nm schema cache).1 = find_by_name_or_alias schema nm
  ∧ cache_sound schemas (lookup_option nm schema cache).2.
Proof.
  intros Hin Hsound Hnm. unfold lookup_option, cached.
  destruct (cache !! option_key nm schema) as [r|] eqn:Hget; simpl.
  - split; [|done]. by apply (Hsound schema Hin).
  - split; [done|]. intros schema' Hin'. split.
    + intros nm' r Hnm' Hr.
      destruct (decide (option_key nm schema = option_key nm' schema'))
        as [Heq|Hne].
      * rewrite <- Heq, lookup_insert_eq in Hr. injection Hr as <-.
        apply option_key_inj in Heq as [<- Hlen]; [|done..].
        by rewrite (Hapart schema schema' Hin Hin' Hlen).
      * rewrite lookup_insert_ne in Hr by done.
        by apply (Hsound schema' Hin').
    + intros c r Hr. rewrite lookup_insert_ne in Hr
        by (by apply option_key_not_alias_key).
      by apply (Hsound schema' Hin').
Qed.

Lemma lookup_alias_sound (c : ascii) (schema : list CLIOption)
    (cache : Cache) :
  schema ∈ schemas → cache_sound schemas cache →
  (lookup_alias (String c EmptyString) schema cache).1
  = find_by_alias schema (String c EmptyString)
  ∧ cache_sound schemas (lookup_alias (String c EmptyString) schema cache).2.
Proof.
  intros Hin Hsound. unfold lookup_alias, cached.
  destruct (cache !! alias_key (String c "") schema) as [r|] eqn:Hget; simpl.
  - split; [|done]. by apply (Hsound schema Hin).
  - split; [done|]. intros schema' Hin'. split.
    + intros nm' r Hnm' Hr. rewrite lookup_insert_ne in Hr.
      * by apply (Hsound schema' Hin').
      * intros Heq. by apply (option_key_not_alias_key nm' c schema' schema).
    + intros c' r Hr.
      destruct (decide (alias_key (String c "") schema
                        = alias_key (String c' "") schema')) as [Heq|Hne].
      * rewrite <- Heq, lookup_insert_eq in Hr. injection Hr as <-.
        apply alias_key_inj in Heq as [<- Hlen].
        by rewrite (Hapart schema schema' Hin Hin' Hlen).
      * rewrite lookup_insert_ne in Hr by done.
        by apply (Hsound schema' Hin').
Qed.

Lemma cluster_sound (tokens : list string) (i : nat)
    (schema : list CLIOption) (shortOpts : string)
    (opts : gmap string Value) (cache : Cache) :
  schema ∈ schemas → cache_sound schemas cache →
  (fold_left (cluster_char tokens i schema) (chars shortOpts)
     (opts, cache)).1
  = fold_left (cluster_char_by_scan tokens i schema) (chars shortOpts) opts
  ∧ cache_sound schemas
      (fold_left (cluster_char tokens i schema) (chars shortOpts)
         (opts, cache)).2.
Proof.
  intros Hin. revert opts cache.
  induction shortOpts as [|c r IH]; intros opts cache Hsound; simpl; [done|].
  destruct (lookup_alias_sound c schema cache Hin Hsound) as [Hfound Hs'].
  unfold cluster_char at 2 4, cluster_char_by_scan at 2. simpl.
  destruct (lookup_alias (String c "") schema cache) as [found cache'].
  simpl in Hfound, Hs'. rewrite <- Hfound.
  destruct found as [option|]; by apply IH.
Qed.

(** One round of the cached loop against one round of the scanning loop. *)
Lemma step_sound (tokens : list string) (schema : list CLIOption)
    (st : LoopState) :
  schema ∈ schemas → cache_sound schemas (optionCache st) →
  match step tokens schema st,
        step_by_scan tokens schema (cursor st) (parsed st) with
  | Next st', Ok (i', p') =>
      cursor st' = i' ∧ parsed st' = p'
      ∧ cache_sound schemas (optionCache st')
  | Raised e cache', Throw e' => e = e' ∧ cache_sound schemas cache'
  | _, _ => False
  end.
Proof.
  intros Hin Hsound. unfold step, step_by_scan.
  destruct (tokens !! cursor st) as [token|]; [|by destruct st].
  destruct (negb (truthy_string token)); [done|].
  destruct (isOption token) eqn:Hopt.
  - apply isOption_true in Hopt as (nm & value & Hre).
    rewrite (parseOption_matched _ tokens (cursor st) _ _ Hre).
    destruct (OPTION_REGEX_name _ _ _ Hre) as [_ Hnm].
    destruct (lookup_option_sound nm schema (optionCache st) Hin Hsound Hnm)
      as [Hfound Hs'].
    destruct (lookup_option nm schema (optionCache st)) as [found cache'].
    simpl in Hfound, Hs'. rewrite <- Hfound.
    destruct found as [option|]; [|done].
    by destruct (parseOptionValue _ option).
  - destruct (startsWith "-" token).
    + destruct (cluster_sound tokens (cursor st) schema (slice1 token)
                  (options (parsed st)) (optionCache st) Hin Hsound)
        as [Hopts Hs'].
      destruct (fold_left (cluster_char _ _ _) _ _) as [opts cache'].
      simpl in Hopts, Hs'. by rewrite <- Hopts.
    + by destruct (_ && _).
Qed.

Lemma loop_sound (fuel : nat) (tokens : list string)
    (schema : list CLIOption) (st : LoopState) :
  schema ∈ schemas → cache_sound schemas (optionCache st) →
  match loop fuel tokens schema st with
  | Next st' =>
      loop_by_scan fuel tokens schema (cursor st) (parsed st)
      = Ok (parsed st')
      ∧ cache_sound schemas (optionCache st')
  | Raised e cache' =>
      loop_by_scan fuel tokens schema (cursor st) (parsed st) = Throw e
      ∧ cache_sound schemas cache'
  end.
Proof.
  intros Hin. revert st.
  induction fuel as [|fuel IH]; intros st Hsound; simpl; [done|].
  destruct (cursor st <? length tokens)%nat; [|done].
  pose proof (step_sound tokens schema st Hin Hsound) as Hstep.
  destruct (step tokens schema st) as [st1|e c1];
    destruct (step_by_scan tokens schema (cursor st) (parsed st))
      as [[i1 p1]|e1]; try done.
  - destruct Hstep as (<- & <- & Hs1). by apply IH.
  - by destruct Hstep as [<- Hs1].
Qed.

Lemma parse_sound (argv : list string) (schema : list CLIOption)
    (argSchema : list CLIArgument) (cache : Cache) :
  schema ∈ schemas → cache_sound schemas cache →
  (parse argv schema argSchema cache).1 = parse_by_scan argv schema
  ∧ cache_sound schemas (parse argv schema argSchema cache).2.
Proof.
  intros Hin Hsound. unfold parse, parse_by_scan.
  match goal with |- context [loop ?f ?t ?s ?st] =>
    pose proof (loop_sound f t s st Hin Hsound) as Hloop;
    destruct (loop f t s st) as [st'|e c']
  end; simpl in *; by destruct Hloop as [-> ?].
Qed.

Lemma parse_calls_sound (calls : list (list string * list CLIOption))
    (cache : Cache) :
  (∀ call, call ∈ calls → call.2 ∈ schemas) → cache_sound schemas cache →
  parse_calls calls cache
  = map (λ call, parse_by_scan call.1 call.2) calls.
Proof.
  revert cache.
  induction calls as [|[argv schema] rest IH]; intros cache Hall Hsound;
    simpl; [done|].
  assert (Hin : schema ∈ schemas) by (apply (Hall (argv, schema)); by left).
  destruct (parse_sound argv schema [] cache Hin Hsound) as [Hres Hs'].
  destruct (parse argv schema [] cache) as [r cache']. simpl in *.
  rewrite Hres, IH; [done| |done].
  intros call Hcall. apply Hall. by right.
Qed.
End Cache.

(** C8 (amended).  Over a sequence of calls of [parse] whose schemas are
    told apart by their lengths (two schemas with the same number of options
    are the same schema), started on a cache that is empty, as [clearCache]
    leaves it, or consistent with those schemas: every cached lookup returns
    what the direct scan of the schema of the call returns, by name or alias
    for a single flag and by alias for a character of a cluster, and every
    call returns what the parser without the cache returns. *)
Theorem cached_parse_agrees_when_told_apart
    (calls : list (list string * list CLIOption)) (cache : Cache) :
  told_apart_by_length (map snd calls) →
  cache_sound (map snd calls) cache →
  parse_calls calls cache = map (λ call, parse_by_scan call.1 call.2) calls
  ∧ (∀ schema nm c,
       schema ∈ map snd calls → string_forallb is_name_char nm = true →
       (lookup_option nm schema cache).1 = find_by_name_or_alias schema nm
       ∧ (lookup_alias (String c EmptyString) schema cache).1
         = find_by_alias schema (String c EmptyString))
  ∧ cache_sound (map snd calls) (clearCache cache).
Proof.
  intros Hapart Hsound. split; [|split].
  - apply (parse_calls_sound (map snd calls) Hapart); [|done].
    intros call Hcall. apply list_elem_of_fmap. by exists call.
  - intros schema nm c Hin Hnm. split.
    + by apply (lookup_option_sound (map snd calls) Hapart).
    + by apply (lookup_alias_sound (map snd calls) Hapart).
  - apply cache_sound_empty.
Qed.

(** Two calls with schemas of different lengths, from an empty cache. *)
Lemma cached_parse_agrees_when_told_apart_witness :
  parse_calls
    [(["node"; "cli"; "-o=x"], [output_o_option]);
     (["node"; "cli"; "-o=y"; "-5"], [verbose_option; other_o_option])] ∅
  = [Ok {| command := []; options := {["output" := VStr "x"]}; args := [] |};
     Ok {| command := []; options := {["other" := VStr "y"]}; args := [] |}].
Proof.
  refine (eq_trans
            (proj1 (cached_parse_agrees_when_told_apart _ ∅ _ _)) _).
  - intros s1 s2 H1 H2 Hlen. simpl in H1, H2.
    apply elem_of_cons in H1 as [->|H1]; apply elem_of_cons in H2 as [->|H2];
      try done.
    + apply list_elem_of_singleton in H2 as ->. discriminate Hlen.
    + apply list_elem_of_singleton in H1 as ->. discriminate Hlen.
    + apply list_elem_of_singleton in H1 as ->.
      by apply list_elem_of_singleton in H2 as ->.
  - intros schema _. split; intros ? ?; by rewrite lookup_empty.
  - vm_compute. reflexivity.
Defined.

(** C8 as the specification states it does not hold: after a call with a
    schema whose alias [o] belongs to [output], a call with another schema of
    the same length, whose alias [o] belongs to [other], finds [output] in
    the cache and binds it. *)
Lemma cached_parse_stale_across_schemas : ¬ cached_parse_agrees_with_scan.
Proof.
  intros H.
  specialize (H [(["node"; "cli"; "-o=x"], [output_o_option]);
                 (["node"; "cli"; "-o=x"], [other_o_option])]).
  vm_compute in H. discriminate H.
Qed.

Example stale_lookup :
  (lookup_option "o" [other_o_option]
     (parse ["node"; "cli"; "-o=x"] [output_o_option] [] ∅).2).1
  = Some output_o_option.
Proof. vm_compute. reflexivity. Qed.

(** ** Malformed flag tokens and clusters *)

Lemma malformed_flag_branch (token : string) :
  malformed_flag token = true →
  truthy_string token = true ∧ isOption token = false
  ∧ startsWith "-" token = true.
Proof.
  unfold malformed_flag, isOption. intros H.
  apply andb_true_iff in H as [H _]. apply andb_true_iff in H as [Hs Hn].
  apply negb_true_iff in Hn. split; [|done].
  by destruct token.
Qed.

Lemma cluster_by_scan_other (tokens : list string) (i : nat)
    (schema : list CLIOption) (cs : list string) (opts : gmap string Value)
    (nm : string) :
  (∀ c o, c ∈ cs → find_by_alias schema c = Some o → name o ≠ nm) →
  fold_left (cluster_char_by_scan tokens i schema) cs opts !! nm = opts !! nm.
Proof.
  revert opts. induction cs as [|c cs IH]; intros opts Hno; simpl; [done|].
  rewrite IH by (intros c' o' Hin; apply Hno; by right).
  unfold cluster_char_by_scan.
  destruct (find_by_alias schema c) as [o|] eqn:Hfind; [|done].
  apply lookup_insert_ne. apply (Hno c); [by left|done].
Qed.

Lemma cluster_value_cases (tokens : list string) (i : nat) (o : CLIOption) :
  cluster_value tokens i o
  = if bool_decide (type o = TBoolean) then VBool true
    else match next_is_value tokens i with
         | Some nextToken => VStr nextToken
         | None => VBool true
         end.
Proof. unfold cluster_value. by destruct (type o). Qed.

Lemma cluster_by_scan_effect (tokens : list string) (i : nat)
    (schema : list CLIOption) (shortOpts : string)
    (opts : gmap string Value) :
  cluster_effect tokens i schema shortOpts opts
    (fold_left (cluster_char_by_scan tokens i schema) (chars shortOpts) opts).
Proof.
  split.
  - intros nm. apply cluster_by_scan_other.
  - intros pre c post o -> Hfind Hlast.
    rewrite fold_left_app. simpl.
    rewrite cluster_by_scan_other by done.
    unfold cluster_char_by_scan at 1. rewrite Hfind, lookup_insert_eq.
    by rewrite cluster_value_cases.
Qed.

Lemma told_apart_singleton (schema : list CLIOption) :
  told_apart_by_length [schema].
Proof.
  intros s1 s2 H1 H2 _. apply list_elem_of_singleton in H1, H2. congruence.
Qed.

Lemma cache_sound_singleton (schema : list CLIOption) (cache : Cache) :
  cache_consistent schema cache ↔ cache_sound [schema] cache.
Proof.
  split.
  - intros H s Hs. by apply list_elem_of_singleton in Hs as ->.
  - intros H. apply H. by left.
Qed.

(** The round on a dash token that the option pattern does not match. *)
Lemma step_cluster (tokens : list string) (schema : list CLIOption)
    (st : LoopState) (token : string) :
  tokens !! cursor st = Some token →
  startsWith "-" token = true → isOption token = false →
  ∃ st', step tokens schema st = Next st'
         ∧ command (parsed st') = command (parsed st)
         ∧ args (parsed st') = args (parsed st)
         ∧ cursor st'
           = (cursor st
              + (if (1 <? String.length (slice1 token))%nat then 1 else 2))%nat
         ∧ (cache_consistent schema (optionCache st) →
            cluster_effect tokens (cursor st) schema (slice1 token)
              (options (parsed st)) (options (parsed st'))).
Proof.
  intros Htok Hs Ho.
  assert (Ht : truthy_string token = true) by (by destruct token).
  unfold step. rewrite Htok, Ht, Ho, Hs. simpl.
  destruct (fold_left _ _ _) as [opts cache] eqn:Hfold. eexists.
  split; [done|]. simpl. repeat (split; [done|]).
  intros Hcache.
  destruct (cluster_sound [schema] (told_apart_singleton schema) tokens
              (cursor st) schema (slice1 token) (options (parsed st))
              (optionCache st)) as [Hopts _].
  { by left. }
  { by apply cache_sound_singleton. }
  rewrite Hfold in Hopts. simpl in Hopts. rewrite Hopts.
  apply cluster_by_scan_effect.
Qed.




(** ** The value token of a single flag *)


Lemma OPTION_REGEX_truthy (token nm : string) (value : option string) :
  OPTION_REGEX token = Some (nm, value) → truthy_string token = true.
Proof. by destruct token. Qed.




(** The round on a plain token. *)
Lemma step_plain (tokens : list string) (schema : list CLIOption)
    (st : LoopState) (v : string) :
  tokens !! cursor st = Some v →
  truthy_string v = true → isOption v = false → startsWith "-" v = false →
  step tokens schema st
  = Next {| cursor := cursor st + 1;
            parsed :=
              if bool_decide (length (command (parsed st)) = 0)
                 && bool_decide (length (args (parsed st)) = 0)
              then {| command := (command (parsed st) ++ [v])%list;
                      options := options (parsed st);
                      args := args (parsed st) |}
              else {| command := command (parsed st);
                      options := options (parsed st);
                      args := (args (parsed st) ++ [v])%list |};
            optionCache := optionCache st |}.
Proof.
  intros Htok Ht Ho Hs. unfold step. rewrite Htok, Ht, Ho, Hs. simpl.
  by destruct (_ && _).
Qed.







(** * Further properties of the parser and the dispatcher *)

(** ** The shape of the command and the positionals *)

Lemma step_command_first (tokens : list string) (schema : list CLIOption)
    (st st' : LoopState) :
  command_first (parsed st) → step tokens schema st = Next st' →
  command_first (parsed st').
Proof.
  intros [Hlen Hargs] Hstep. unfold command_first.
  destruct (step_records _ _ _ _ Hstep) as [_ [[-> ->]|(t & _ & _ & _ & H)]];
    [done|].
  destruct H as [(_ & _ & -> & ->)|(Hnot & -> & ->)]; [by simpl|].
  split; [done|]. intros Hc. destruct Hnot. split; [done|by apply Hargs].
Qed.

Lemma take_sublist_le {A} (l : list A) (i j : nat) :
  (i ≤ j)%nat → take i l `sublist_of` take j l.
Proof.
  intros Hle. replace (take i l) with (take i (take j l)).
  - apply sublist_take.
  - rewrite take_take. f_equal. lia.
Qed.

Lemma step_passed_by_one (tokens : list string) (schema : list CLIOption)
    (st st' : LoopState) (token : string) :
  tokens !! cursor st = Some token → passed_by_one token = true →
  step tokens schema st = Next st' →
  cursor st' = (cursor st + 1)%nat
  ∧ command (parsed st') = command (parsed st)
  ∧ args (parsed st') = args (parsed st).
Proof.
  intros Htok Hpass. unfold step. rewrite Htok.
  destruct (truthy_string token) eqn:Ht; simpl; [|by intros [= <-]].
  destruct (isOption token) eqn:Ho.
  - destruct (parseOption token tokens (cursor st)) as [[nm value]|]; [|done].
    destruct (lookup_option nm schema (optionCache st)) as [[option|] c].
    + destruct (parseOptionValue value option); [|done]. by intros [= <-].
    + by intros [= <-].
  - unfold passed_by_one in Hpass. rewrite Ht, Ho in Hpass. simpl in Hpass.
    apply andb_true_iff in Hpass as [-> ->].
    destruct (fold_left _ _ _). by intros [= <-].
Qed.

Lemma step_first_plain (pre : list string) (t : string) (rest : list string)
    (schema : list CLIOption) (s s' : LoopState) :
  Forall (λ x, passed_by_one x = true) pre → is_plain t = true →
  first_plain_is_command pre t rest s →
  step (pre ++ t :: rest)%list schema s = Next s' →
  first_plain_is_command pre t rest s'.
Proof.
  intros Hpre Hplain [(Hle & Hc & Ha)|(Hlt & Hc & Ha)] Hstep.
  - destruct (decide (cursor s = length pre)) as [Heq|Hne].
    + assert (Htok : (pre ++ t :: rest)%list !! cursor s = Some t)
        by (rewrite Heq; apply list_lookup_middle; done).
      unfold is_plain in Hplain. apply andb_true_iff in Hplain as [Ht Hd].
      apply negb_true_iff in Hd.
      assert (Ho : isOption t = false).
      { destruct (isOption t) eqn:Ho; [|done].
        apply isOption_dash in Ho. congruence. }
      rewrite (step_plain _ _ _ t Htok Ht Ho Hd) in Hstep.
      injection Hstep as <-. right. simpl. rewrite Hc, Ha. simpl.
      split; [lia|]. split; [done|]. apply sublist_nil_l.
    + assert (Hlt : (cursor s < length pre)%nat) by lia.
      destruct (lookup_lt_is_Some_2 pre (cursor s) Hlt) as [x Hx].
      assert (Htok : (pre ++ t :: rest)%list !! cursor s = Some x)
        by (by rewrite lookup_app_l).
      assert (Hpass : passed_by_one x = true).
      { rewrite Forall_forall in Hpre. apply Hpre.
        by apply list_elem_of_lookup_2 in Hx. }
      destruct (step_passed_by_one _ _ _ _ _ Htok Hpass Hstep)
        as (Hcur & Hc' & Ha').
      left. rewrite Hcur, Hc', Ha'. split; [lia|done].
  - right.
    destruct (step_records _ _ _ _ Hstep)
      as [Hle [[Hc' Ha']|(x & Htok & _ & Hcur & H)]].
    + rewrite Hc', Ha'. split; [lia|]. split; [done|].
      etrans; [exact Ha|]. apply take_sublist_le. lia.
    + destruct H as [(Hnil & _)|(_ & Hc' & Ha')]; [congruence|].
      rewrite Hc', Ha', Hcur. split; [lia|]. split; [done|].
      replace (S (cursor s) - length pre - 1)%nat
        with (S (cursor s - length pre - 1)) by lia.
      assert (Hx : rest !! (cursor s - length pre - 1)%nat = Some x).
      { rewrite lookup_app_r in Htok by lia.
        rewrite lookup_cons_ne_0 in Htok by lia.
        rewrite <- Htok. f_equal. lia. }
      rewrite (take_S_r _ _ _ Hx). by apply sublist_app.
Qed.

(** X1.  In every result of [parse] the command path has at most one
    segment, and there is no positional unless there is a command.  When
    the tokens before the first plain token are each passed by one position
    (empty tokens, option-shaped tokens, dash tokens with more than one
    character after the dash), that plain token is the command, and the
    positionals are tokens that follow it, in their order.  A token that
    follows a dash token with at most one character after the dash is
    skipped: of two such tokens nothing is recorded. *)
Theorem parse_command_first (argv : list string) (schema : list CLIOption)
    (argSchema : list CLIArgument) (cache : Cache) (p : ParsedArgs) :
  (parse argv schema argSchema cache).1 = Ok p →
  ((length (command p) ≤ 1)%nat ∧ (command p = [] → args p = []))
  ∧ (∀ (pre : list string) (t : string) (rest : list string),
       drop 2 argv = (pre ++ t :: rest)%list →
       Forall (λ x, passed_by_one x = true) pre → is_plain t = true →
       command p = [t] ∧ args p `sublist_of` rest)
  ∧ (∀ d t : string,
       drop 2 argv = [d; t] →
       startsWith "-" d = true → isOption d = false →
       (String.length (slice1 d) ≤ 1)%nat →
       command p = [] ∧ args p = []).
Proof.
  unfold parse.
  destruct (loop _ _ _ _) as [st|] eqn:Hloop; simpl; [|done].
  intros [= <-]. split; [|split].
  - eapply (loop_keeps (λ s, command_first (parsed s)));
      [intros s s'; apply step_command_first| |exact Hloop].
    split; simpl; [lia|done].
  - intros pre t rest Htokens Hpre Hplain. rewrite Htokens in Hloop.
    assert (Hend : (length (pre ++ t :: rest)%list ≤ cursor st)%nat).
    { eapply loop_exits; [|exact Hloop]. simpl. lia. }
    rewrite length_app in Hend. simpl in Hend.
    assert (Hinv : first_plain_is_command pre t rest st).
    { eapply (loop_keeps (first_plain_is_command pre t rest));
        [intros s s'; by apply step_first_plain| |exact Hloop].
      left. simpl. split; [lia|done]. }
    destruct Hinv as [(Hle & _)|(_ & Hc & Ha)]; [lia|].
    split; [done|]. etrans; [exact Ha|apply sublist_take].
  - intros d t Htokens Hdash Hopt Hlen. rewrite Htokens in Hloop.
    simpl in Hloop.
    destruct (step_cluster [d; t] schema
                {| cursor := 0;
                   parsed := {| command := []; options := seed_defaults schema;
                                args := [] |};
                   optionCache := cache |} d eq_refl Hdash Hopt)
      as (st1 & Hstep & Hc & Ha & Hcur & _).
    rewrite Hstep in Hloop.
    assert (Hl : (1 <? String.length (slice1 d))%nat = false)
      by (apply Nat.ltb_ge; lia).
    rewrite Hl in Hcur. simpl in Hcur. rewrite Hcur in Hloop. simpl in Hloop.
    injection Hloop as <-. by rewrite Hc, Ha.
Qed.

Lemma parse_command_first_witness :
  ((length ["build"] ≤ 1)%nat ∧ (["build"] = [] → ["arg1"; "arg2"] = []))
  ∧ (∀ (pre : list string) (t : string) (rest : list string),
       drop 2 ["node"; "cli"; "--verbose=1"; "build"; "arg1"; "arg2"]
       = (pre ++ t :: rest)%list →
       Forall (λ x, passed_by_one x = true) pre → is_plain t = true →
       ["build"] = [t] ∧ ["arg1"; "arg2"] `sublist_of` rest)
  ∧ (∀ d t : string,
       drop 2 ["node"; "cli"; "--verbose=1"; "build"; "arg1"; "arg2"] = [d; t] →
       startsWith "-" d = true → isOption d = false →
       (String.length (slice1 d) ≤ 1)%nat →
       ["build"] = [] ∧ ["arg1"; "arg2"] = []).
Proof.
  apply (parse_command_first
           ["node"; "cli"; "--verbose=1"; "build"; "arg1"; "arg2"] [] [] ∅
           {| command := ["build"]; options := ∅; args := ["arg1"; "arg2"] |}).
  reflexivity.
Defined.

(** The token [val] after the cluster [-5] is skipped. *)
Example skipped_after_short_cluster :
  (parse ["node"; "cli"; "-5"; "val"] [] [] ∅).1
  = Ok {| command := []; options := ∅; args := [] |}.
Proof. reflexivity. Qed.

Lemma step_sublist (tokens : list string) (schema : list CLIOption)
    (st st' : LoopState) :
  (command (parsed st) ++ args (parsed st))%list
    `sublist_of` take (cursor st) tokens
  ∧ Forall (λ t, is_plain t = true)
      (command (parsed st) ++ args (parsed st))%list →
  step tokens schema st = Next st' →
  (command (parsed st') ++ args (parsed st'))%list
    `sublist_of` take (cursor st') tokens
  ∧ Forall (λ t, is_plain t = true)
      (command (parsed st') ++ args (parsed st'))%list.
Proof.
  intros [Hsub Hall] Hstep.
  destruct (step_records _ _ _ _ Hstep)
    as [Hle [[-> ->]|(t & Htok & Hplain & Hc & H)]].
  - split; [|done]. etrans; [exact Hsub|]. by apply take_sublist_le.
  - rewrite Hc, (take_S_r _ _ _ Htok).
    destruct H as [(Ec & Ea & -> & ->)|(_ & -> & ->)].
    + rewrite Ec, Ea in Hsub. simpl. split.
      * by apply sublist_inserts_l.
      * by constructor.
    + rewrite app_assoc. split.
      * by apply sublist_app.
      * apply Forall_app. split; [done|]. by constructor.
Qed.

(** X2.  The command followed by the positionals is a sublist of the tokens:
    the parser records tokens in the order of the input and records nothing
    that is not a token; what it records is never empty and never starts
    with a dash. *)
Theorem parse_records_plain_tokens (argv : list string)
    (schema : list CLIOption) (argSchema : list CLIArgument) (cache : Cache)
    (p : ParsedArgs) :
  (parse argv schema argSchema cache).1 = Ok p →
  (command p ++ args p)%list `sublist_of` drop 2 argv
  ∧ Forall (λ t, is_plain t = true) (command p ++ args p)%list.
Proof.
  unfold parse.
  destruct (loop _ _ _ _) as [st|] eqn:Hloop; simpl; [|done].
  intros [= <-].
  assert (Hinv : (command (parsed st) ++ args (parsed st))%list
                   `sublist_of` take (cursor st) (drop 2 argv)
                 ∧ Forall (λ t, is_plain t = true)
                     (command (parsed st) ++ args (parsed st))%list).
  { eapply (loop_keeps
              (λ s, (command (parsed s) ++ args (parsed s))%list
                      `sublist_of` take (cursor s) (drop 2 argv)
                    ∧ Forall (λ t, is_plain t = true)
                        (command (parsed s) ++ args (parsed s))%list));
      [intros s s'; apply step_sublist| |exact Hloop].
    simpl. split; [apply sublist_nil_l|constructor]. }
  destruct Hinv as [Hsub Hall].
  split; [|done]. etrans; [exact Hsub|apply sublist_take].
Qed.

Lemma parse_records_plain_tokens_witness :
  (["build"] ++ ["out2"])%list `sublist_of` ["build"; "-o"; "out2"]
  ∧ Forall (λ t, is_plain t = true) (["build"] ++ ["out2"])%list.
Proof.
  apply (parse_records_plain_tokens ["node"; "cli"; "build"; "-o"; "out2"]
           [output_o_option] [] ∅
           {| command := ["build"]; options := {["output" := VStr "out2"]};
              args := ["out2"] |}).
  vm_compute. reflexivity.
Defined.

(** ** The cache only grows *)

Lemma cached_subseteq (key : string) (scan : option CLIOption) (cache : Cache) :
  cache ⊆ (cached key scan cache).2.
Proof.
  unfold cached. destruct (cache !! key) eqn:Hget; simpl; [done|].
  by apply insert_subseteq.
Qed.

Lemma cluster_subseteq (tokens : list string) (i : nat)
    (schema : list CLIOption) (cs : list string)
    (opts : gmap string Value) (cache : Cache) :
  cache ⊆ (fold_left (cluster_char tokens i schema) cs (opts, cache)).2.
Proof.
  revert opts cache. induction cs as [|c cs IH]; intros opts cache; simpl;
    [done|].
  unfold cluster_char at 2. simpl. unfold lookup_alias.
  pose proof (cached_subseteq (alias_key c schema) (find_by_alias schema c)
                cache) as Hsub.
  destruct (cached _ _ cache) as [found cache']. simpl in Hsub.
  destruct found; (etrans; [exact Hsub|apply IH]).
Qed.

Lemma step_cache_subseteq (tokens : list string) (schema : list CLIOption)
    (st : LoopState) :
  optionCache st ⊆ final_cache (step tokens schema st).
Proof.
  unfold step. destruct (tokens !! cursor st) as [token|]; [|done].
  destruct (negb (truthy_string token)); [done|].
  destruct (isOption token).
  - destruct (parseOption token tokens (cursor st)) as [[nm value]|]; [|done].
    unfold lookup_option.
    pose proof (cached_subseteq (option_key nm schema)
                  (find_by_name_or_alias schema nm) (optionCache st)) as Hsub.
    destruct (cached _ _ (optionCache st)) as [[option|] c]; [|done].
    by destruct (parseOptionValue value option).
  - destruct (startsWith "-" token).
    + pose proof (cluster_subseteq tokens (cursor st) schema
                    (chars (slice1 token)) (options (parsed st))
                    (optionCache st)) as Hsub.
      by destruct (fold_left _ _ _).
    + by destruct (_ && _).
Qed.

Lemma loop_cache_subseteq (fuel : nat) (tokens : list string)
    (schema : list CLIOption) (st : LoopState) :
  optionCache st ⊆ final_cache (loop fuel tokens schema st).
Proof.
  revert st. induction fuel as [|fuel IH]; intros st; simpl; [done|].
  destruct (cursor st <? length tokens)%nat; [|done].
  pose proof (step_cache_subseteq tokens schema st) as Hstep.
  destruct (step tokens schema st) as [st1|e c]; [|done].
  etrans; [exact Hstep|apply IH].
Qed.

(** X3.  A call of [parse] only adds entries to the cache: every entry the
    cache held before the call is there, unchanged, after it, whether the
    call returns or throws.  Nothing but [clearCache] removes an entry. *)
Theorem parse_cache_grows (argv : list string) (schema : list CLIOption)
    (argSchema : list CLIArgument) (cache : Cache) :
  cache ⊆ (parse argv schema argSchema cache).2
  ∧ ∀ key r, cache !! key = Some r →
             (parse argv schema argSchema cache).2 !! key = Some r.
Proof.
  assert (Hsub : cache ⊆ (parse argv schema argSchema cache).2).
  { unfold parse.
    match goal with |- context [loop ?f ?t ?s ?st] =>
      pose proof (loop_cache_subseteq f t s st) as H;
      destruct (loop f t s st)
    end; exact H. }
  split; [done|]. intros key r Hr.
  by apply (lookup_weaken cache).
Qed.

Lemma parse_cache_grows_witness :
  (parse ["node"; "cli"; "-v"; "--output=x"] [verbose_option; output_option]
     [] {["v:2" := Some quiet_option]}).2 !! "v:2"
  = Some (Some quiet_option).
Proof.
  apply (proj2 (parse_cache_grows ["node"; "cli"; "-v"; "--output=x"]
                  [verbose_option; output_option] []
                  {["v:2" := Some quiet_option]})).
  reflexivity.
Defined.

(** ** The options that [parse] binds *)

Lemma find_by_name_or_alias_in (schema : list CLIOption) (nm : string)
    (o : CLIOption) :
  find_by_name_or_alias schema nm = Some o → o ∈ schema.
Proof.
  intros H. apply find_some in H as [H _]. by apply list_elem_of_In.
Qed.

Lemma find_by_alias_in (schema : list CLIOption) (c : string) (o : CLIOption) :
  find_by_alias schema c = Some o → o ∈ schema.
Proof.
  intros H. apply find_some in H as [H _]. by apply list_elem_of_In.
Qed.

Lemma cached_options_in (schema : list CLIOption) (key : string)
    (scan : option CLIOption) (cache : Cache) :
  cache_options_in schema cache →
  (∀ o, scan = Some o → o ∈ schema) →
  (∀ o, (cached key scan cache).1 = Some o → o ∈ schema)
  ∧ cache_options_in schema (cached key scan cache).2.
Proof.
  intros Hin Hscan. unfold cached.
  destruct (cache !! key) as [r|] eqn:Hget; simpl.
  - split; [|done]. intros o ->. by apply (Hin key).
  - split; [done|]. intros key' o Ho.
    destruct (decide (key = key')) as [<-|Hne].
    + rewrite lookup_insert_eq in Ho. injection Ho as ->. by apply Hscan.
    + rewrite lookup_insert_ne in Ho by done. by apply (Hin key').
Qed.

(** The state of the loop binds names of the schema only and holds options
    of the schema only; [P] is a property of the options of the schema. *)
Lemma cluster_names (schema : list CLIOption) (tokens : list string) (i : nat)
    (cs : list string) (opts : gmap string Value) (cache : Cache) :
  cache_options_in schema cache →
  (∀ nm, is_Some (opts !! nm) → ∃ o, o ∈ schema ∧ name o = nm) →
  cache_options_in schema
    (fold_left (cluster_char tokens i schema) cs (opts, cache)).2
  ∧ (∀ nm, is_Some ((fold_left (cluster_char tokens i schema) cs
                       (opts, cache)).1 !! nm) →
           ∃ o, o ∈ schema ∧ name o = nm).
Proof.
  revert opts cache. induction cs as [|c cs IH]; intros opts cache Hc Ho;
    simpl; [done|].
  unfold cluster_char at 2 4. simpl. unfold lookup_alias.
  destruct (cached_options_in schema (alias_key c schema)
              (find_by_alias schema c) cache Hc (find_by_alias_in schema c))
    as [Hfound Hc'].
  destruct (cached _ _ cache) as [[option|] cache']; simpl in *.
  - apply IH; [done|]. intros nm Hnm.
    destruct (decide (name option = nm)) as [<-|Hne].
    + exists option. split; [by apply Hfound|done].
    + rewrite lookup_insert_ne in Hnm by done. by apply Ho.
  - by apply IH.
Qed.

Lemma step_names (tokens : list string) (schema : list CLIOption)
    (st st' : LoopState) :
  cache_options_in schema (optionCache st)
  ∧ (∀ nm, is_Some (options (parsed st) !! nm) →
           ∃ o, o ∈ schema ∧ name o = nm) →
  step tokens schema st = Next st' →
  cache_options_in schema (optionCache st')
  ∧ (∀ nm, is_Some (options (parsed st') !! nm) →
           ∃ o, o ∈ schema ∧ name o = nm).
Proof.
  intros [Hc Ho]. unfold step.
  destruct (tokens !! cursor st) as [token|]; [|by intros [= <-]].
  destruct (negb (truthy_string token)); [by intros [= <-]|].
  destruct (isOption token).
  - destruct (parseOption token tokens (cursor st)) as [[nm value]|]; [|done].
    unfold lookup_option.
    destruct (cached_options_in schema (option_key nm schema)
                (find_by_name_or_alias schema nm) (optionCache st) Hc
                (find_by_name_or_alias_in schema nm)) as [Hfound Hc'].
    destruct (cached _ _ (optionCache st)) as [[option|] c]; simpl in *.
    + destruct (parseOptionValue value option); [|done].
      intros [= <-]; simpl. split; [done|]. intros nm' Hnm'.
      destruct (decide (name option = nm')) as [<-|Hne].
      * exists option. split; [by apply Hfound|done].
      * rewrite lookup_insert_ne in Hnm' by done. by apply Ho.
    + by intros [= <-].
  - destruct (startsWith "-" token).
    + destruct (cluster_names schema tokens (cursor st) (chars (slice1 token))
                  (options (parsed st)) (optionCache st) Hc Ho) as [Hc' Ho'].
      destruct (fold_left _ _ _). by intros [= <-].
    + by destruct (_ && _); intros [= <-].
Qed.

(** X4.  On a cache that holds options of the schema only, an empty cache
    among them, [parse] binds no name but the names of the options of the
    schema: a flag that the schema does not declare leaves no trace in the
    options, and a flag given by an alias is bound under the name of its
    option. *)
Theorem parse_binds_schema_names (argv : list string)
    (schema : list CLIOption) (argSchema : list CLIArgument) (cache : Cache)
    (p : ParsedArgs) :
  cache_options_in schema cache →
  (parse argv schema argSchema cache).1 = Ok p →
  ∀ nm, is_Some (options p !! nm) → ∃ o, o ∈ schema ∧ name o = nm.
Proof.
  intros Hc. unfold parse.
  destruct (loop _ _ _ _) as [st|] eqn:Hloop; simpl; [|done].
  intros [= <-].
  eapply (loop_keeps
            (λ s, cache_options_in schema (optionCache s)
                  ∧ (∀ nm, is_Some (options (parsed s) !! nm) →
                           ∃ o, o ∈ schema ∧ name o = nm)));
    [intros s s'; apply step_names| |exact Hloop].
  simpl. split; [done|]. intros nm [v Hv].
  rewrite seed_defaults_lookup in Hv.
  apply last_declared_default_Some in Hv as (o & ? & ? & _). eauto.
Qed.

Lemma parse_binds_schema_names_witness :
  ∃ o, o ∈ [verbose_option; quiet_option] ∧ name o = "verbose".
Proof.
  refine (parse_binds_schema_names
            ["node"; "cli"; "-v"; "--color"; "--unknown=1"]
            [verbose_option; quiet_option] [] ∅
            {| command := []; options := {["verbose" := VBool true]};
               args := [] |} _ _ "verbose" _).
  - intros key o Ho. by rewrite lookup_empty in Ho.
  - vm_compute. reflexivity.
  - by eexists.
Defined.

(** ** When [parse] cannot fail *)

Lemma parseOptionValue_accepts (value : RawValue) (o : CLIOption) :
  accepts_every_value o → ∃ v, parseOptionValue value o = Ok v.
Proof.
  intros [Hnum Hchoices]. unfold parseOptionValue.
  destruct value as [s|b]; [|by eexists].
  destruct (type o) eqn:Ht.
  - rewrite Hchoices by done. by eexists.
  - done.
  - by eexists.
  - by eexists.
Qed.

Lemma step_accepts (tokens : list string) (schema : list CLIOption)
    (st : LoopState) :
  cache_options_in schema (optionCache st) →
  (∀ o, o ∈ schema → accepts_every_value o) →
  ∃ st', step tokens schema st = Next st'.
Proof.
  intros Hc Hacc. unfold step.
  destruct (tokens !! cursor st) as [token|]; [|by eexists].
  destruct (negb (truthy_string token)); [by eexists|].
  destruct (isOption token) eqn:Hopt.
  - apply isOption_true in Hopt as (nm & value & Hre).
    rewrite (parseOption_matched _ tokens (cursor st) _ _ Hre).
    unfold lookup_option.
    destruct (cached_options_in schema (option_key nm schema)
                (find_by_name_or_alias schema nm) (optionCache st) Hc
                (find_by_name_or_alias_in schema nm)) as [Hfound _].
    destruct (cached _ _ (optionCache st)) as [[option|] c]; simpl in *;
      [|by eexists].
    destruct (parseOptionValue_accepts
                match value with
                | Some v => RawString v
                | None =>
                    match next_is_value tokens (cursor st) with
                    | Some nextToken => RawString nextToken
                    | None => RawBool true
                    end
                end option) as [v ->]; [|by eexists].
    by apply Hacc, Hfound.
  - destruct (startsWith "-" token).
    + destruct (fold_left _ _ _). by eexists.
    + destruct (_ && _); by eexists.
Qed.

Lemma loop_accepts (fuel : nat) (tokens : list string)
    (schema : list CLIOption) (st : LoopState) :
  (∀ o, o ∈ schema → accepts_every_value o) →
  cache_options_in schema (optionCache st)
  ∧ (∀ nm, is_Some (options (parsed st) !! nm) →
           ∃ o, o ∈ schema ∧ name o = nm) →
  ∃ st', loop fuel tokens schema st = Next st'.
Proof.
  intros Hacc. revert st. induction fuel as [|fuel IH]; intros st Hinv; simpl;
    [by eexists|].
  destruct (cursor st <? length tokens)%nat; [|by eexists].
  destruct (step_accepts tokens schema st (proj1 Hinv) Hacc) as [st1 Hstep].
  rewrite Hstep. apply IH. by apply (step_names tokens schema st).
Qed.

(** X5.  [parse] throws only through the coercion of a number or of a string
    with choices: when no option of the schema is of kind number and no
    option of kind string declares choices, and the cache holds options of
    the schema only, [parse] returns a result for every list of tokens. *)
Theorem parse_cannot_fail (argv : list string) (schema : list CLIOption)
    (argSchema : list CLIArgument) (cache : Cache) :
  cache_options_in schema cache →
  (∀ o, o ∈ schema → accepts_every_value o) →
  ∃ p, (parse argv schema argSchema cache).1 = Ok p.
Proof.
  intros Hc Hacc. unfold parse.
  match goal with |- context [loop ?f ?t ?s ?st] =>
    destruct (loop_accepts f t s st Hacc) as [st' ->]
  end.
  - simpl. split; [done|]. intros nm [v Hv].
    rewrite seed_defaults_lookup in Hv.
    apply last_declared_default_Some in Hv as (o & ? & ? & _). eauto.
  - by eexists.
Qed.

Lemma parse_cannot_fail_witness :
  ∃ p, (parse ["node"; "cli"; "--output=12abc"; "-v"; "--"; "x"]
          [verbose_option; output_option] [] ∅).1 = Ok p.
Proof.
  apply parse_cannot_fail.
  - intros key o Ho. by rewrite lookup_empty in Ho.
  - intros o Ho. apply elem_of_cons in Ho as [->|Ho].
    + split; [discriminate|]. intros Ht. discriminate Ht.
    + apply list_elem_of_singleton in Ho as ->.
      split; [discriminate|]. reflexivity.
Defined.

(** ** Plain tokens only *)

Lemma step_plain_token (tokens : list string) (schema : list CLIOption)
    (st : LoopState) (token : string) :
  tokens !! cursor st = Some token → startsWith "-" token = false →
  step tokens schema st
  = Next {| cursor := cursor st + 1;
            parsed := if truthy_string token
                      then record_plain (parsed st) token else parsed st;
            optionCache := optionCache st |}.
Proof.
  intros Htok Hs. unfold step. rewrite Htok.
  destruct (truthy_string token) eqn:Ht; simpl; [|done].
  destruct (isOption token) eqn:Ho.
  { apply isOption_dash in Ho. congruence. }
  rewrite Hs. unfold record_plain. by destruct (_ && _).
Qed.

Lemma loop_plain_tokens (fuel : nat) (tokens : list string)
    (schema : list CLIOption) (st : LoopState) :
  Forall (λ t, startsWith "-" t = false) tokens →
  (length tokens - cursor st ≤ fuel)%nat →
  ∃ st', loop fuel tokens schema st = Next st'
         ∧ parsed st'
           = fold_left record_plain
               (List.filter truthy_string (drop (cursor st) tokens))
               (parsed st)
         ∧ optionCache st' = optionCache st.
Proof.
  intros Hall. revert st. induction fuel as [|fuel IH]; intros st Hfuel; simpl.
  - exists st. split; [done|]. split; [|done].
    by rewrite drop_ge by lia.
  - destruct (cursor st <? length tokens)%nat eqn:Hlt.
    + apply Nat.ltb_lt in Hlt.
      destruct (lookup_lt_is_Some_2 tokens (cursor st) Hlt) as [token Htok].
      assert (Hs : startsWith "-" token = false).
      { rewrite Forall_lookup in Hall. by apply (Hall (cursor st)). }
      rewrite (step_plain_token _ _ _ _ Htok Hs).
      match goal with |- context [loop fuel tokens schema ?s] =>
        destruct (IH s) as (st' & Hloop & Hp & Hc)
      end; [simpl; lia|].
      exists st'. split; [done|]. split; [|done]. rewrite Hp. simpl.
      rewrite (drop_S _ _ _ Htok). simpl.
      replace (cursor st + 1)%nat with (S (cursor st)) by lia.
      by destruct (truthy_string token).
    + apply Nat.ltb_ge in Hlt. exists st. split; [done|]. split; [|done].
      by rewrite drop_ge by lia.
Qed.

Lemma record_plain_fold (l : list string) (c : string) (opts : gmap string Value)
    (a : list string) :
  fold_left record_plain l {| command := [c]; options := opts; args := a |}
  = {| command := [c]; options := opts; args := (a ++ l)%list |}.
Proof.
  revert a. induction l as [|t l IH]; intros a; simpl.
  - by rewrite app_nil_r.
  - unfold record_plain at 2. simpl. rewrite IH. by rewrite <- app_assoc.
Qed.

(** X6.  When no token starts with a dash, [parse] returns the first
    non-empty token as the command and the other non-empty tokens, in their
    order, as the positionals; the options are the seeded defaults, the
    cache is not touched, and the parse does not fail. *)
Theorem parse_plain_tokens (argv : list string) (schema : list CLIOption)
    (argSchema : list CLIArgument) (cache : Cache) :
  Forall (λ t, startsWith "-" t = false) (drop 2 argv) →
  parse argv schema argSchema cache
  = (Ok {| command := take 1 (List.filter truthy_string (drop 2 argv));
           options := seed_defaults schema;
           args := drop 1 (List.filter truthy_string (drop 2 argv)) |},
     cache).
Proof.
  intros Hall. unfold parse.
  match goal with |- context [loop ?f ?t ?s ?st] =>
    destruct (loop_plain_tokens f t s st Hall) as (st' & -> & Hp & Hc)
  end; [simpl; lia|].
  rewrite Hp, Hc. simpl. rewrite drop_0.
  destruct (List.filter truthy_string (drop 2 argv)) as [|t l]; [done|].
  simpl. unfold record_plain at 2. simpl. rewrite record_plain_fold.
  by rewrite take_0, drop_0.
Qed.

Lemma parse_plain_tokens_witness :
  parse ["node"; "cli"; "build"; ""; "arg1"; "arg2"] [output_with_default] [] ∅
  = (Ok {| command := ["build"];
           options := {["output" := VStr "./dist"]};
           args := ["arg1"; "arg2"] |}, ∅).
Proof.
  refine (eq_trans (parse_plain_tokens _ _ _ _ _) _).
  - repeat constructor.
  - vm_compute. reflexivity.
Defined.

(** ** The option pattern, both ways *)

Lemma span_suffix (nm : string) (value : option string) :
  string_forallb is_name_char nm = true →
  span is_name_char (nm +:+ value_suffix value) = (nm, value_suffix value).
Proof.
  intros Hnm. destruct value as [v|]; unfold value_suffix.
  - by apply span_stop.
  - rewrite append_empty_r. by apply span_all.
Qed.

Lemma valid_name_chars (nm : string) :
  valid_name nm = true → string_forallb is_name_char nm = true.
Proof.
  destruct nm as [|c r]; [done|]. simpl. intros H.
  apply andb_true_iff in H as [Hc ->]. by rewrite (is_letter_name_char c Hc).
Qed.

Lemma OPTION_REGEX_body (nm : string) (value : option string) :
  valid_name nm = true →
  (∀ v, value = Some v → valid_value v = true) →
  (match nm +:+ value_suffix value with
   | String c _ =>
       if is_letter c then
         let '(nm', tail) := span is_name_char (nm +:+ value_suffix value) in
         match tail with
         | EmptyString => Some (nm', None)
         | String e v =>
             if bool_decide (e = "="%char) && truthy_string v
                && string_forallb (λ x, negb (is_line_terminator x)) v
             then Some (nm', Some v) else None
         end
       else None
   | EmptyString => None
   end) = Some (nm, value).
Proof.
  intros Hnm Hv. rewrite (span_suffix nm value (valid_name_chars nm Hnm)).
  destruct nm as [|c r]; [done|]. simpl in Hnm.
  apply andb_true_iff in Hnm as [Hc _]. rewrite append_cons. simpl.
  rewrite Hc. destruct value as [v|]; simpl; [|done].
  specialize (Hv v eq_refl). unfold valid_value in Hv.
  apply andb_true_iff in Hv as [-> ->]. done.
Qed.

(** What a match of the option pattern says of the token. *)
Lemma OPTION_REGEX_matched (token nm : string) (value : option string) :
  OPTION_REGEX token = Some (nm, value) →
  valid_name nm = true
  ∧ (∀ v, value = Some v → valid_value v = true)
  ∧ (token = "-" +:+ nm +:+ value_suffix value
     ∨ token = "--" +:+ nm +:+ value_suffix value).
Proof.
  unfold OPTION_REGEX. destruct token as [|d rest]; [done|].
  case_bool_decide as Hd; [subst d|done].
  assert (Hbody : ∀ body,
    match body with
    | String c _ =>
        if is_letter c then
          let '(nm', tail) := span is_name_char body in
          match tail with
          | EmptyString => Some (nm', None)
          | String e v =>
              if bool_decide (e = "="%char) && truthy_string v
                 && string_forallb (λ x, negb (is_line_terminator x)) v
              then Some (nm', Some v) else None
          end
        else None
    | EmptyString => None
    end = Some (nm, value) →
    valid_name nm = true
    ∧ (∀ v, value = Some v → valid_value v = true)
    ∧ body = nm +:+ value_suffix value).
  { intros body. destruct body as [|c r] eqn:Hbody; [done|].
    destruct (is_letter c) eqn:Hc; [|done]. rewrite <- Hbody.
    pose proof (span_forallb is_name_char body) as Hall.
    pose proof (span_app is_name_char body) as Happ.
    destruct (span is_name_char body) as [nm' tail] eqn:Hspan.
    specialize (Happ nm' tail eq_refl). simpl in Hall.
    assert (Hvalid : valid_name nm' = true).
    { rewrite Hbody in Hspan. simpl in Hspan.
      rewrite (is_letter_name_char c Hc) in Hspan.
      destruct (span is_name_char r) as [a b]. injection Hspan as <- <-.
      simpl in *. rewrite Hc. simpl.
      by apply andb_true_iff in Hall as [_ ->]. }
    destruct tail as [|e v].
    - intros [= <- <-]. split; [done|]. split; [done|]. by rewrite Happ.
    - destruct (bool_decide (e = "="%char)) eqn:He; [|done].
      apply bool_decide_eq_true in He as ->. simpl.
      destruct (truthy_string v && _) eqn:Hv; [|done].
      intros [= <- <-]. split; [done|]. split; [|by rewrite Happ].
      by intros ? [= <-]. }
  destruct rest as [|d' r]; [done|].
  case_bool_decide as Hd'.
  - subst d'. intros H. apply (Hbody r) in H as (? & ? & ->).
    split; [done|]. split; [done|]. by right.
  - intros H. apply (Hbody (String d' r)) in H as (? & ? & Heq).
    split; [done|]. split; [done|]. left. by rewrite <- Heq.
Qed.

(** The tokens that the option pattern matches. *)
Lemma OPTION_REGEX_matches (token nm : string) (value : option string) :
  valid_name nm = true →
  (∀ v, value = Some v → valid_value v = true) →
  (token = "-" +:+ nm +:+ value_suffix value
   ∨ token = "--" +:+ nm +:+ value_suffix value) →
  OPTION_REGEX token = Some (nm, value).
Proof.
  intros Hnm Hv [->| ->].
  - unfold OPTION_REGEX. simpl.
    destruct nm as [|c r] eqn:Enm; [done|]. simpl.
    assert (Hc : is_letter c = true).
    { simpl in Hnm. by apply andb_true_iff in Hnm as [-> _]. }
    rewrite bool_decide_eq_false_2 by (intros ->; discriminate Hc).
    change (String c (r +:+ value_suffix value))
      with (String c r +:+ value_suffix value).
    rewrite <- Enm in *. by apply OPTION_REGEX_body.
  - unfold OPTION_REGEX. simpl. by apply OPTION_REGEX_body.
Qed.

(** X7.  The option pattern matches a token, with the name [nm] and the
    value [value], exactly when the token is one or two dashes, then [nm],
    a letter followed by letters, digits, underscores and dashes, and then
    either nothing or [=] and a value that is not empty and holds no line
    terminator.  Writing a flag and reading it back gives the name and the
    value, and a match determines the token up to the count of its dashes. *)
Theorem OPTION_REGEX_round_trip (token nm : string) (value : option string) :
  OPTION_REGEX token = Some (nm, value)
  ↔ valid_name nm = true
    ∧ (∀ v, value = Some v → valid_value v = true)
    ∧ (token = "-" +:+ nm +:+ value_suffix value
       ∨ token = "--" +:+ nm +:+ value_suffix value).
Proof.
  split.
  - apply OPTION_REGEX_matched.
  - intros (Hnm & Hv & Htoken). by apply OPTION_REGEX_matches.
Qed.

Lemma OPTION_REGEX_round_trip_witness :
  OPTION_REGEX "--output=file.txt" = Some ("output", Some "file.txt").
Proof.
  apply (proj2 (OPTION_REGEX_round_trip "--output=file.txt" "output"
                  (Some "file.txt"))).
  split; [reflexivity|]. split; [by intros v [= <-]|]. by right.
Defined.

(** ** A flag with its value, alone on the command line *)

(** The parse of one token that the option pattern matches, on an empty
    cache. *)
Lemma parse_single_flag (node script token nm : string)
    (value : option string) (schema : list CLIOption)
    (argSchema : list CLIArgument) :
  OPTION_REGEX token = Some (nm, value) →
  parse [node; script; token] schema argSchema ∅
  = match find_by_name_or_alias schema nm with
    | Some o =>
        (match parseOptionValue
                 match value with
                 | Some v => RawString v
                 | None => RawBool true
                 end o with
         | Ok w => Ok {| command := [];
                         options := <[name o := w]> (seed_defaults schema);
                         args := [] |}
         | Throw e => Throw e
         end,
         {[option_key nm schema := Some o]})
    | None =>
        (Ok {| command := []; options := seed_defaults schema; args := [] |},
         {[option_key nm schema := None]})
    end.
Proof.
  intros Hre.
  set (coerce := parseOptionValue
                   match value with
                   | Some v => RawString v
                   | None => RawBool true
                   end).
  unfold parse. simpl. unfold step. simpl.
  rewrite (OPTION_REGEX_truthy _ _ _ Hre). simpl.
  unfold isOption. rewrite bool_decide_eq_true_2 by (rewrite Hre; by eexists).
  rewrite (parseOption_matched _ _ 0 _ _ Hre).
  unfold lookup_option, cached. rewrite lookup_empty, insert_empty.
  replace match value with
          | Some v => RawString v
          | None =>
              match next_is_value [token] 0 with
              | Some nextToken => RawString nextToken
              | None => RawBool true
              end
          end
    with match value with
         | Some v => RawString v
         | None => RawBool true
         end by (by destruct value).
  destruct (find_by_name_or_alias schema nm) as [o|]; [|done].
  fold coerce. by destruct (coerce o).
Qed.



(** ** The argument validator, with variadic specs *)

Lemma validateArgs_from_shape (p : ParsedArgs) (argSchema : list CLIArgument)
    (k : nat) :
  (k ≤ length (args p))%nat →
  validateArgs_from k p argSchema
  = if existsb variadic (take (length (args p) - k) argSchema) then Ok tt
    else match argSchema !! (length (args p) - k) with
         | Some a =>
             if arg_required a then Throw (MissingRequiredArgument (arg_name a))
             else Ok tt
         | None => Ok tt
         end.
Proof.
  revert k. induction argSchema as [|a rest IH]; intros k Hk; simpl.
  - by rewrite take_nil.
  - destruct (length (args p) <=? k)%nat eqn:Hle.
    + apply Nat.leb_le in Hle.
      by replace (length (args p) - k)%nat with 0%nat by lia.
    + apply Nat.leb_gt in Hle.
      replace (length (args p) - k)%nat
        with (S (length (args p) - (k + 1)))%nat by lia.
      simpl. destruct (variadic a); [done|]. simpl. apply IH. lia.
Qed.

(** X9.  The argument validator on any schema, [n] being the number of
    positionals: it fails exactly when the spec at position [n] exists and
    is required and none of the [n] specs before it is variadic, and the
    error names that spec.  In particular a variadic spec ends the
    validation only once it has a positional of its own, so a required
    variadic spec asks for at least one positional. *)
Theorem validateArgs_shape (p : ParsedArgs) (argSchema : list CLIArgument) :
  validateArgs p argSchema
  = if existsb variadic (take (length (args p)) argSchema) then Ok tt
    else match argSchema !! length (args p) with
         | Some a =>
             if arg_required a then Throw (MissingRequiredArgument (arg_name a))
             else Ok tt
         | None => Ok tt
         end.
Proof.
  unfold validateArgs. rewrite validateArgs_from_shape by lia.
  by rewrite Nat.sub_0_r.
Qed.

(** X10.  The argument validator never rejects positionals for their
    number: when there are at least as many positionals as specs, the
    validation succeeds, whatever the specs require. *)
Theorem validateArgs_enough_positionals (p : ParsedArgs)
    (argSchema : list CLIArgument) :
  (length argSchema ≤ length (args p))%nat → validateArgs p argSchema = Ok tt.
Proof.
  intros Hlen. unfold validateArgs.
  rewrite validateArgs_from_shape, Nat.sub_0_r by lia.
  destruct (existsb _ _); [done|].
  by rewrite lookup_ge_None_2.
Qed.

Lemma validateArgs_enough_positionals_witness :
  validateArgs {| command := ["copy"]; options := ∅;
                  args := ["a"; "b"; "c"; "d"] |}
    [source_argument; target_argument] = Ok tt.
Proof. apply validateArgs_enough_positionals. simpl. lia. Defined.

(** ** The validation of the required options, with and without prompts *)

Lemma missingOptions_elem (p : ParsedArgs) (schema : list CLIOption)
    (o : CLIOption) :
  o ∈ missingOptions p schema
  ↔ o ∈ schema ∧ required o = true
    ∧ is_undefined (options p) (name o) = true.
Proof.
  unfold missingOptions. rewrite list_elem_of_In, filter_In, <- list_elem_of_In.
  rewrite andb_true_iff. tauto.
Qed.

Section AskAll.
Variable prompts : Question → option RawValue.

Lemma ask_all_result (missing : list CLIOption) (p p' : ParsedArgs) :
  ask_all prompts p missing = Ok p' →
  command p' = command p ∧ args p' = args p
  ∧ (∀ nm, (∀ o, o ∈ missing → name o ≠ nm) →
           options p' !! nm = options p !! nm)
  ∧ (∀ nm, is_Some (options p !! nm) → is_Some (options p' !! nm))
  ∧ (∀ o, o ∈ missing → is_Some (options p' !! name o)).
Proof.
  revert p. induction missing as [|o rest IH]; intros p; simpl.
  - intros [= <-]. repeat split; try done. intros o Ho.
    by apply elem_of_nil in Ho.
  - destruct (prompts (question_for o)) as [answer|]; [|done].
    destruct (parseOptionValue answer o) as [v|]; [|done].
    intros H. apply IH in H as (Hc & Ha & Hother & Hkeep & Hbound).
    simpl in *. split; [done|]. split; [done|]. split; [|split].
    + intros nm Hnm. rewrite Hother.
      * apply lookup_insert_ne. apply Hnm. by left.
      * intros o' Ho'. apply Hnm. by right.
    + intros nm Hsome. apply Hkeep.
      destruct (decide (name o = nm)) as [<-|Hne].
      * rewrite lookup_insert_eq. by eexists.
      * by rewrite lookup_insert_ne.
    + intros o' Ho'. apply elem_of_cons in Ho' as [->|Ho'].
      * apply Hkeep. rewrite lookup_insert_eq. by eexists.
      * by apply Hbound.
Qed.

(** What a result of the validation of the required options holds: every
    required option is bound in it, unless its name is a member of
    [Object.prototype]; such an option is never asked for. *)
Lemma validateOptions_postcondition (p p' : ParsedArgs) (schema : list CLIOption)
    (interactive : bool) :
  validateOptions prompts p schema interactive = Ok p' →
  command p' = command p ∧ args p' = args p
  ∧ options p ⊆ options p'
  ∧ (∀ o, o ∈ schema → required o = true →
          is_Some (options p' !! name o)
          ∨ name o ∈ object_prototype_members).
Proof.
  unfold validateOptions. intros H.
  assert (Hcases : (missingOptions p schema = [] ∧ p' = p)
                   ∨ ask_all prompts p (missingOptions p schema) = Ok p').
  { destruct (missingOptions p schema) as [|first rest] eqn:Hm.
    - left. split; [done|]. destruct interactive; simpl in H; congruence.
    - right. by destruct interactive. }
  clear H. destruct Hcases as [[Hm ->]|Hask].
  - split; [done|]. split; [done|]. split; [done|].
    intros o Hin Hr. apply is_undefined_false.
    destruct (is_undefined (options p) (name o)) eqn:Ho; [|done].
    assert (Hmiss : o ∈ missingOptions p schema)
      by (by apply missingOptions_elem).
    rewrite Hm in Hmiss. by apply elem_of_nil in Hmiss.
  - apply ask_all_result in Hask as (Hc & Ha & Hother & Hkeep & Hbound).
    split; [done|]. split; [done|]. split.
    + apply map_subseteq_spec. intros nm v Hv. rewrite Hother; [done|].
      intros o Ho Hname. apply missingOptions_elem in Ho as (_ & _ & Hnone).
      apply is_undefined_true in Hnone as [Hnone _]. congruence.
    + intros o Hin Hr.
      destruct (is_undefined (options p) (name o)) eqn:Ho.
      * left. apply Hbound. by apply missingOptions_elem.
      * apply is_undefined_false in Ho as [Ho|Ho]; [|by right].
        left. by apply Hkeep.
Qed.

(** X11.  Whatever the mode, when the validation of the required options
    returns a result, every required option of the schema is bound in it,
    unless its name is a member of [Object.prototype]: then the option
    reads as defined without a binding and is never asked for.  The command
    and the positionals are those of the parsed input, and every option
    that was bound keeps its value: prompting only adds the options that
    were missing. *)
Theorem validateOptions_result (p p' : ParsedArgs) (schema : list CLIOption)
    (interactive : bool) :
  validateOptions prompts p schema interactive = Ok p' →
  command p' = command p ∧ args p' = args p
  ∧ options p ⊆ options p'
  ∧ (∀ o, o ∈ schema → required o = true →
          is_Some (options p' !! name o)
          ∨ name o ∈ object_prototype_members)
  ∧ (∀ o, o ∈ schema → required o = true →
          name o ∈ object_prototype_members →
          options p' !! name o = options p !! name o).
Proof.
  intros H.
  destruct (validateOptions_postcondition p p' schema interactive H)
    as (Hc & Ha & Hsub & Hreq).
  repeat (split; [done|]).
  intros o Hin Hr Hproto. revert H. unfold validateOptions.
  assert (Hnot : ∀ o', o' ∈ missingOptions p schema → name o' ≠ name o).
  { intros o' Ho' Heq. apply missingOptions_elem in Ho' as (_ & _ & Hu).
    apply is_undefined_true in Hu as [_ Hu]. apply Hu. by rewrite Heq. }
  intros H.
  assert (Hcases : p' = p ∨ ask_all prompts p (missingOptions p schema) = Ok p').
  { destruct (missingOptions p schema) as [|first rest].
    - left. destruct interactive; simpl in H; congruence.
    - right. by destruct interactive. }
  destruct Hcases as [->|Hask]; [done|].
  apply ask_all_result in Hask as (_ & _ & Hother & _).
  apply Hother. intros o' Ho'. by apply Hnot.
Qed.

(** X12.  In interactive mode, when no required option is missing, the
    result is returned unchanged and the prompt is not consulted; and with
    a prompt that is cancelled every time, the interactive mode fails as the
    non-interactive mode does, on the first missing option. *)
Theorem validateOptions_interactive_edges (p : ParsedArgs)
    (schema : list CLIOption) :
  ((∀ o, o ∈ schema → required o = true → is_Some (options p !! name o)) →
   validateOptions prompts p schema true = Ok p)
  ∧ validateOptions (λ _, None) p schema true
    = validateOptions prompts p schema false.
Proof.
  split.
  - intros Hall. unfold validateOptions.
    by rewrite (missingOptions_nil p schema Hall).
  - unfold validateOptions.
    by destruct (missingOptions p schema) as [|first rest].
Qed.
End AskAll.

Lemma validateOptions_result_witness :
  command {| command := ["greet"];
             options := {["name" := VStr "Ada"; "verbose" := VBool true]};
             args := [] |}
  = command {| command := ["greet"]; options := {["verbose" := VBool true]};
               args := [] |}
  ∧ args {| command := ["greet"];
            options := {["name" := VStr "Ada"; "verbose" := VBool true]};
            args := [] |}
    = args {| command := ["greet"]; options := {["verbose" := VBool true]};
              args := [] |}
  ∧ options {| command := ["greet"]; options := {["verbose" := VBool true]};
               args := [] |}
    ⊆ options {| command := ["greet"];
                 options := {["name" := VStr "Ada"; "verbose" := VBool true]};
                 args := [] |}
  ∧ (∀ o, o ∈ [verbose_option; name_option] → required o = true →
          is_Some (options
                     {| command := ["greet"];
                        options := {["name" := VStr "Ada";
                                     "verbose" := VBool true]};
                        args := [] |} !! name o)
          ∨ name o ∈ object_prototype_members)
  ∧ (∀ o, o ∈ [verbose_option; name_option] → required o = true →
          name o ∈ object_prototype_members →
          options {| command := ["greet"];
                     options := {["name" := VStr "Ada";
                                  "verbose" := VBool true]};
                     args := [] |} !! name o
          = options {| command := ["greet"];
                       options := {["verbose" := VBool true]};
                       args := [] |} !! name o).
Proof.
  refine (validateOptions_result (λ _, Some (RawString "Ada"))
            {| command := ["greet"]; options := {["verbose" := VBool true]};
               args := [] |}
            {| command := ["greet"];
               options := {["name" := VStr "Ada"; "verbose" := VBool true]};
               args := [] |}
            [verbose_option; name_option] true _).
  vm_compute. reflexivity.
Defined.

Lemma validateOptions_interactive_edges_witness :
  validateOptions (λ _, Some (RawString "Ada"))
    {| command := ["greet"]; options := {["name" := VStr "Bob"]}; args := [] |}
    [verbose_option; name_option] true
  = Ok {| command := ["greet"]; options := {["name" := VStr "Bob"]};
          args := [] |}.
Proof.
  apply (proj1 (validateOptions_interactive_edges _ _ _)).
  intros o Ho Hr. apply elem_of_cons in Ho as [->|Ho]; [discriminate Hr|].
  apply list_elem_of_singleton in Ho as ->. by eexists.
Defined.

(** ** What the dispatcher hands to a handler *)


Section Handlers.
Import ZoltraCLIBuilder.
Context {Handler : Type}.
Variable prompts : Question → option RawValue.



(** X14.  The second builder of the source dispatches as the first one does
    whenever no option, global or of a command, is required: the two differ
    by the validation of the required options only. *)
Theorem parse_without_backfill_agrees (b : Builder Handler)
    (argv : list string) (cache : Cache) :
  (∀ cmd o, cmd ∈ commands b →
            o ∈ (globalOptions b ++ or_empty (cmd_options cmd))%list →
            required o = false) →
  parse prompts b argv cache = parse_without_backfill b argv cache.
Proof.
  intros Hnone. unfold parse, parse_without_backfill.
  destruct (ZoltraCLIParser.parse argv (globalOptions b) [] cache)
    as [[p|e] cache1]; [|done].
  destruct (truthy (options p !! "help")); [done|].
  destruct (truthy (options p !! "version")); [done|].
  destruct (List.find (matches (tentative_name p)) (commands b))
    as [cmd|] eqn:Hfind; [|done].
  destruct (ZoltraCLIParser.parse argv _ _ cache1)
    as [[commandParsed|e] cache2]; [|done].
  destruct (validateArgs commandParsed (or_empty (arguments cmd)))
    as [[]|e]; [|done].
  apply find_some in Hfind as [Hin _]. apply list_elem_of_In in Hin.
  assert (Hm : missingOptions commandParsed
                 (globalOptions b ++ or_empty (cmd_options cmd)) = []).
  { apply missingOptions_nil. intros o Ho Hr.
    rewrite (Hnone cmd o Hin Ho) in Hr. discriminate Hr. }
  unfold validateOptions. rewrite Hm. by destruct (interactive b).
Qed.

(** X15.  The dispatcher on an empty cache: the parse of the tokens against
    the options of the matched command, which runs on the cache that the
    parse against the global options left, returns what the parser without
    the cache returns; within one dispatch a stale entry cannot be met.  So
    does every parse that follows [clearCache]. *)
Theorem reparse_on_fresh_cache (b : Builder Handler)
    (cmd : CLICommand Handler) (argv : list string)
    (argSchema : list CLIArgument) (cache : Cache) :
  (ZoltraCLIParser.parse argv
     (globalOptions b ++ or_empty (cmd_options cmd))%list argSchema
     (ZoltraCLIParser.parse argv (globalOptions b) []
        (clearCache cache)).2).1
  = parse_by_scan argv (globalOptions b ++ or_empty (cmd_options cmd))%list
  ∧ (ZoltraCLIParser.parse argv (globalOptions b) [] (clearCache cache)).1
    = parse_by_scan argv (globalOptions b).
Proof.
  set (merged := (globalOptions b ++ or_empty (cmd_options cmd))%list).
  assert (Hapart : told_apart_by_length [globalOptions b; merged]).
  { assert (Heq : length (globalOptions b) = length merged →
                  globalOptions b = merged).
    { unfold merged. rewrite length_app. intros Hlen.
      destruct (or_empty (cmd_options cmd)); [by rewrite app_nil_r|].
      simpl in Hlen. lia. }
    intros s1 s2 H1 H2 Hlen.
    apply elem_of_cons in H1 as [->|H1]; apply elem_of_cons in H2 as [->|H2];
      try done.
    - apply list_elem_of_singleton in H2 as ->. by apply Heq.
    - apply list_elem_of_singleton in H1 as ->. symmetry. by apply Heq.
    - apply list_elem_of_singleton in H1 as ->.
      by apply list_elem_of_singleton in H2 as ->. }
  destruct (parse_sound _ Hapart argv (globalOptions b) [] (clearCache cache))
    as [Hfirst Hsound].
  { by left. }
  { apply cache_sound_empty. }
  split; [|done].
  apply (parse_sound _ Hapart); [|done]. right. by left.
Qed.
End Handlers.


Lemma parse_without_backfill_agrees_witness :
  ZoltraCLIBuilder.parse (λ _, None) (cli_with [build_with_output])
    ["node"; "cli"; "build"; "--output=out2"] ∅
  = ZoltraCLIBuilder.parse_without_backfill (cli_with [build_with_output])
      ["node"; "cli"; "build"; "--output=out2"] ∅.
Proof.
  apply parse_without_backfill_agrees.
  intros cmd o Hcmd Ho. simpl in Hcmd.
  apply list_elem_of_singleton in Hcmd as ->. simpl in Ho.
  repeat (apply elem_of_cons in Ho as [->|Ho]; [reflexivity|]).
  by apply elem_of_nil in Ho.
Defined.

(** ** The loop ends *)

Lemma step_one_or_two (tokens : list string) (schema : list CLIOption)
    (st st' : LoopState) :
  (cursor st < length tokens)%nat → step tokens schema st = Next st' →
  cursor st' = (cursor st + 1)%nat ∨ cursor st' = (cursor st + 2)%nat.
Proof.
  intros Hlt. unfold step.
  destruct (lookup_lt_is_Some_2 tokens (cursor st) Hlt) as [token ->].
  destruct (negb (truthy_string token)); [intros [= <-]; by left|].
  destruct (isOption token).
  - destruct (parseOption token tokens (cursor st)) as [[nm value]|]; [|done].
    destruct (lookup_option nm schema (optionCache st)) as [[option|] c].
    + destruct (parseOptionValue value option); [|done].
      intros [= <-]; by left.
    + intros [= <-]; by left.
  - destruct (startsWith "-" token).
    + destruct (fold_left _ _ _). intros [= <-]; simpl.
      destruct (1 <? _)%nat; [by left|by right].
    + destruct (_ && _); intros [= <-]; by left.
Qed.

(** X16.  The loop of [parse] ends: a round on a token moves the cursor
    forward by one or by two positions, so that as many rounds as there are
    tokens left are enough; more rounds change nothing, and when the loop
    returns, the cursor is past the last token. *)
Theorem loop_ends (tokens : list string) (schema : list CLIOption)
    (st : LoopState) (fuel : nat) :
  (length tokens - cursor st ≤ fuel)%nat →
  loop fuel tokens schema st
  = loop (length tokens - cursor st) tokens schema st
  ∧ (∀ st', loop fuel tokens schema st = Next st' →
            (length tokens ≤ cursor st')%nat)
  ∧ (∀ st', (cursor st < length tokens)%nat →
            step tokens schema st = Next st' →
            cursor st' = (cursor st + 1)%nat
            ∨ cursor st' = (cursor st + 2)%nat).
Proof.
  intros Hfuel. split; [|split].
  - induction fuel as [|fuel IH].
    + by replace (length tokens - cursor st)%nat with 0%nat by lia.
    + destruct (decide (length tokens - cursor st = S fuel)) as [->|Hne];
        [done|].
      rewrite loop_fuel by lia. apply IH. lia.
  - intros st'. by apply loop_exits.
  - intros st'. apply step_one_or_two.
Qed.

Lemma loop_ends_witness :
  loop 7 ["build"; "-5"; "skipped"; "x"] []
    {| cursor := 0; parsed := {| command := []; options := ∅; args := [] |};
       optionCache := ∅ |}
  = loop (length ["build"; "-5"; "skipped"; "x"] - 0)
      ["build"; "-5"; "skipped"; "x"] []
      {| cursor := 0; parsed := {| command := []; options := ∅; args := [] |};
         optionCache := ∅ |}.
Proof.
  apply (proj1 (loop_ends ["build"; "-5"; "skipped"; "x"] []
                  {| cursor := 0;
                     parsed := {| command := []; options := ∅; args := [] |};
                     optionCache := ∅ |} 7 ltac:(simpl; lia))).
Defined.

(** ** Decimal numbers *)

Lemma parseFloat_digits (s : string) :
  truthy_string s = true → string_forallb is_digit s = true →
  parseFloat s = number_value false (digits_value 0 s) 0.
Proof.
  intros Hne Hall.
  pose proof (parseFloat_literal ""
                {| lit_sign := NoSign; lit_int := s; lit_frac := None;
                   lit_exp := None |} "" eq_refl) as H.
  unfold literal_text, literal_number in H. simpl in H.
  change ("" +:+ (("" +:+ s +:+ "" +:+ "") +:+ "")) with ((s +:+ "" +:+ "") +:+ "")
    in H.
  change ("" +:+ "") with "" in H. rewrite !append_empty_r in H.
  apply H.
  - unfold is_literal. simpl. by rewrite Hall, Hne.
  - reflexivity.
Qed.

Lemma pretty_N_go_truthy (x : N) (s : string) :
  truthy_string s = true → truthy_string (pretty_N_go x s) = true.
Proof.
  revert s. induction (N.lt_wf_0 x) as [x _ IH]; intros s Hs.
  destruct (decide (x = 0%N)) as [->|Hx]; [by rewrite pretty_N_go_0|].
  rewrite pretty_N_go_step by lia. apply IH; [|done]. apply N.div_lt; lia.
Qed.

Lemma pretty_nat_truthy (n : nat) : truthy_string (pretty n) = true.
Proof.
  unfold pretty, pretty_nat, pretty, pretty_N. case_decide; [done|].
  destruct (decide (N.of_nat n = 0%N)); [done|].
  rewrite pretty_N_go_step by lia. by apply pretty_N_go_truthy.
Qed.

Lemma digit_value_pretty (x : N) :
  (x < 10)%N → digit_value (pretty_N_char x) = x.
Proof.
  intros Hx.
  assert (x = 0 ∨ x = 1 ∨ x = 2 ∨ x = 3 ∨ x = 4 ∨ x = 5 ∨ x = 6 ∨ x = 7
          ∨ x = 8 ∨ x = 9)%N as H by lia.
  repeat (destruct H as [->|H]; [reflexivity|]). by subst x.
Qed.

Lemma digits_value_pretty_go (x : N) (s : string) (acc : N) :
  ∃ k : N, digits_value acc (pretty_N_go x s)
           = digits_value (acc * 10 ^ k + x)%N s.
Proof.
  revert s acc. induction (N.lt_wf_0 x) as [x _ IH]; intros s acc.
  destruct (decide (x = 0%N)) as [->|Hx].
  - exists 0%N. rewrite pretty_N_go_0. f_equal. lia.
  - rewrite pretty_N_go_step by lia.
    destruct (IH (x `div` 10)%N (N.div_lt x 10 ltac:(lia) eq_refl)
                (String (pretty_N_char (x `mod` 10)) s) acc) as [k ->].
    exists (k + 1)%N. simpl.
    rewrite digit_value_pretty by (apply N.mod_lt; lia). f_equal.
    rewrite N.pow_add_r, N.pow_1_r.
    pose proof (N.div_mod x 10 ltac:(lia)). lia.
Qed.

Lemma digits_value_pretty (n : nat) : digits_value 0 (pretty n) = N.of_nat n.
Proof.
  unfold pretty, pretty_nat, pretty, pretty_N. case_decide as H0.
  - by rewrite H0.
  - destruct (digits_value_pretty_go (N.of_nat n) "" 0) as [k ->]. simpl. lia.
Qed.

(** X17.  A natural number written in decimal is read by the coercion of a
    number option as the Number nearest to it.  Below [2^53] that Number is
    the integer itself; from there on integers are rounded: the text of
    [2^53 + 1] coerces to the same Number as the text of [2^53]. *)
Theorem number_coercion_of_decimal (option : CLIOption) (n : nat) :
  type option = TNumber →
  ∃ x : spec_float,
    parseOptionValue (RawString (pretty n)) option = Ok (VNum x)
    ∧ x = number_value false (N.of_nat n) 0
    ∧ ((Z.of_nat n < 2 ^ 53)%Z → is_integer x (Z.of_nat n))
    ∧ parseOptionValue (RawString "9007199254740993") option
      = parseOptionValue (RawString "9007199254740992") option
    ∧ is_integer (parseFloat "9007199254740993") (2 ^ 53).
Proof.
  intros Ht. exists (number_value false (N.of_nat n) 0).
  split; [|split; [done|split; [|split]]].
  - unfold parseOptionValue. rewrite Ht.
    rewrite (parseFloat_digits (pretty n) (pretty_nat_truthy n)
               (pretty_nat_digits n)).
    by rewrite digits_value_pretty, number_value_not_nan.
  - intros Hn. pose proof (number_value_integer false (N.of_nat n)) as H.
    simpl in H. rewrite nat_N_Z in H. by apply H.
  - unfold parseOptionValue. by rewrite Ht.
  - vm_compute. reflexivity.
Qed.

Lemma number_coercion_of_decimal_witness :
  ∃ x : spec_float,
    parseOptionValue (RawString (pretty 3000)) port_option = Ok (VNum x)
    ∧ x = number_value false (N.of_nat 3000) 0
    ∧ ((Z.of_nat 3000 < 2 ^ 53)%Z → is_integer x (Z.of_nat 3000))
    ∧ parseOptionValue (RawString "9007199254740993") port_option
      = parseOptionValue (RawString "9007199254740992") port_option
    ∧ is_integer (parseFloat "9007199254740993") (2 ^ 53).
Proof. apply (number_coercion_of_decimal port_option 3000). reflexivity. Defined.

(** ** The coercion of arrays *)

Lemma rev_app_append (s t : string) :
  String.rev_app s t = String.rev s +:+ t.
Proof.
  unfold String.rev. revert t. induction s as [|c s IH]; intros t; simpl.
  - done.
  - rewrite (IH (String c "")), (IH (String c t)).
    generalize (String.rev_app s ""). clear. intros u.
    induction u as [|d u IH]; [done|]. by rewrite !append_cons, IH.
Qed.

Lemma rev_cons (c : ascii) (s : string) :
  String.rev (String c s) = String.rev s +:+ String c "".
Proof. unfold String.rev at 1. simpl. apply rev_app_append. Qed.

Lemma rev_snoc (s : string) (c : ascii) :
  String.rev (s +:+ String c "") = String c (String.rev s).
Proof.
  induction s as [|d s IH]; [done|].
  by rewrite append_cons, !rev_cons, IH, append_cons.
Qed.

Lemma rev_involutive (s : string) : String.rev (String.rev s) = s.
Proof.
  induction s as [|c s IH]; [done|]. by rewrite rev_cons, rev_snoc, IH.
Qed.

Lemma forallb_rev (p : ascii → bool) (s : string) :
  string_forallb p (String.rev s) = string_forallb p s.
Proof.
  induction s as [|c s IH]; [done|].
  rewrite rev_cons, forallb_append, IH. simpl.
  by rewrite andb_true_r, andb_comm.
Qed.

Lemma drop_while_forallb (p q : ascii → bool) (s : string) :
  string_forallb q s = true → string_forallb q (drop_while p s) = true.
Proof.
  induction s as [|c s IH]; simpl; [done|].
  intros H. destruct (p c); [|done].
  apply andb_true_iff in H as [_ H]. by apply IH.
Qed.

Lemma drop_while_no_leading (s : string) :
  no_leading_space (drop_while is_js_space s) = true.
Proof.
  induction s as [|c s IH]; simpl; [done|].
  destruct (is_js_space c) eqn:Hc; [done|]. simpl. by rewrite Hc.
Qed.

Lemma drop_while_id (s : string) :
  no_leading_space s = true → drop_while is_js_space s = s.
Proof.
  destruct s as [|c s]; simpl; [done|]. by destruct (is_js_space c).
Qed.

Lemma drop_while_snoc (x : string) (c : ascii) :
  drop_while is_js_space (x +:+ String c "")
  = if string_forallb is_js_space x
    then drop_while is_js_space (String c "")
    else drop_while is_js_space x +:+ String c "".
Proof.
  induction x as [|d x IH]; [done|]. rewrite append_cons. simpl.
  destruct (is_js_space d); simpl; [done|]. by rewrite append_cons.
Qed.

(** Dropping the white space at the end leaves the front as it is. *)
Lemma trim_end_no_leading (s : string) :
  no_leading_space s = true →
  no_leading_space
    (String.rev (drop_while is_js_space (String.rev s))) = true.
Proof.
  destruct s as [|c s]; [done|]. simpl. intros Hc.
  apply negb_true_iff in Hc.
  rewrite rev_cons, drop_while_snoc. simpl. rewrite Hc.
  destruct (string_forallb is_js_space (String.rev s)).
  - simpl. by rewrite Hc.
  - rewrite rev_snoc. simpl. by rewrite Hc.
Qed.

Lemma trim_no_leading (s : string) : no_leading_space (trim s) = true.
Proof. apply trim_end_no_leading, drop_while_no_leading. Qed.

Lemma trim_no_trailing (s : string) :
  no_leading_space (String.rev (trim s)) = true.
Proof. unfold trim. rewrite rev_involutive. apply drop_while_no_leading. Qed.

Lemma trim_idempotent (s : string) : trim (trim s) = trim s.
Proof.
  unfold trim at 1.
  rewrite (drop_while_id (trim s) (trim_no_leading s)).
  rewrite (drop_while_id _ (trim_no_trailing s)). apply rev_involutive.
Qed.

Lemma trim_forallb (q : ascii → bool) (s : string) :
  string_forallb q s = true → string_forallb q (trim s) = true.
Proof.
  intros H. unfold trim. rewrite forallb_rev.
  apply drop_while_forallb. rewrite forallb_rev.
  by apply drop_while_forallb.
Qed.

Lemma split_on_cons (sep : ascii) (s : string) :
  ∃ h t, split_on sep s = h :: t.
Proof.
  induction s as [|c s (h & t & IH)]; simpl; [by eexists _, _|].
  case_bool_decide; [by eexists _, _|]. rewrite IH. by eexists _, _.
Qed.

Lemma split_on_length (sep : ascii) (s : string) :
  length (split_on sep s) = S (count_char sep s).
Proof.
  induction s as [|c s IH]; simpl; [done|].
  case_bool_decide; simpl; [by rewrite IH|].
  destruct (split_on_cons sep s) as (h & t & Hs). rewrite Hs in *. done.
Qed.

Lemma split_on_no_sep (sep : ascii) (s : string) :
  Forall (λ e, string_forallb (λ c, negb (bool_decide (c = sep))) e = true)
    (split_on sep s).
Proof.
  induction s as [|c s IH]; simpl; [by repeat constructor|].
  case_bool_decide as Hc; [by constructor|].
  destruct (split_on_cons sep s) as (h & t & Hs). rewrite Hs in *.
  apply Forall_cons in IH as [Hh Ht]. constructor; [|done].
  simpl. by rewrite Hh, bool_decide_eq_false_2.
Qed.

Lemma join_cons_head (sep : string) (c : ascii) (h : string)
    (t : list string) :
  join sep (String c h :: t) = String c (join sep (h :: t)).
Proof. by destruct t. Qed.

Lemma join_split_on (sep : ascii) (s : string) :
  join (String sep "") (split_on sep s) = s.
Proof.
  induction s as [|c s IH]; simpl; [done|].
  destruct (split_on_cons sep s) as (h & t & Hs).
  case_bool_decide as Hc.
  - subst c. rewrite Hs in *. simpl. by rewrite <- IH.
  - rewrite Hs in *. by rewrite join_cons_head, IH.
Qed.

Lemma rev_append (a b : string) :
  String.rev (a +:+ b) = String.rev b +:+ String.rev a.
Proof.
  induction a as [|c a IH].
  - change ("" +:+ b) with b. by rewrite append_empty_r.
  - by rewrite append_cons, !rev_cons, IH, append_assoc.
Qed.

Lemma trim_trimmed_of (s : string) : trimmed_of s (trim s).
Proof.
  destruct (span_spec is_js_space s) as (Hs & Ha & _).
  rewrite <- drop_while_span in Hs.
  destruct (span_spec is_js_space (String.rev (drop_while is_js_space s)))
    as (Hr & Hb & _).
  rewrite <- drop_while_span in Hr.
  exists (span is_js_space s).1,
    (String.rev (span is_js_space (String.rev (drop_while is_js_space s))).1).
  split; [|split; [done|split; [by rewrite forallb_rev|split]]].
  - rewrite Hs at 1. f_equal. unfold trim. rewrite <- rev_append, <- Hr.
    by rewrite rev_involutive.
  - apply trim_no_leading.
  - apply trim_no_trailing.
Qed.

(** X18.  The coercion of an array option never fails.  It cuts the text at
    its commas: the pieces hold no comma and, joined with commas, give the
    text back, so that there is one element more than there are commas; and
    each element is its piece without the white space at the two ends of
    the piece.  Empty pieces are kept, as empty elements. *)
Theorem array_coercion (option : CLIOption) (value : string) :
  type option = TArray →
  ∃ pieces elements : list string,
    parseOptionValue (RawString value) option = Ok (VArr elements)
    ∧ join "," pieces = value
    ∧ Forall (λ piece,
                string_forallb (λ c, negb (bool_decide (c = ","%char))) piece
                = true) pieces
    ∧ Forall2 trimmed_of pieces elements
    ∧ length elements = S (count_char "," value).
Proof.
  intros Ht. exists (split_on "," value), (map trim (split_on "," value)).
  split; [|split; [|split; [|split]]].
  - unfold parseOptionValue. by rewrite Ht.
  - apply join_split_on.
  - apply split_on_no_sep.
  - apply Forall2_fmap_r, Forall_Forall2_diag, Forall_forall.
    intros piece _. apply trim_trimmed_of.
  - by rewrite length_map, split_on_length.
Qed.

Lemma array_coercion_witness :
  ∃ pieces elements : list string,
    parseOptionValue (RawString "a, b ,,c") files_option = Ok (VArr elements)
    ∧ join "," pieces = "a, b ,,c"
    ∧ Forall (λ piece,
                string_forallb (λ c, negb (bool_decide (c = ","%char))) piece
                = true) pieces
    ∧ Forall2 trimmed_of pieces elements
    ∧ length elements = S (count_char "," "a, b ,,c").
Proof. apply (array_coercion files_option "a, b ,,c"). reflexivity. Defined.

(** The array of the text [a, b ,,c]. *)
Example array_of_spaced_text :
  parseOptionValue (RawString "a, b ,,c") files_option
  = Ok (VArr ["a"; "b"; ""; "c"]).
Proof. reflexivity. Qed.

(** ** The help flag *)

Section Help.
Import ZoltraCLIBuilder.
Context {Handler : Type}.
Variable prompts : Question → option RawValue.

(** The methods of the builder add global options at the end: the options
    [help] and [version] of the constructor stay in front. *)
Lemma built_globalOptions (b : Builder Handler) :
  built b →
  ∃ rest, globalOptions b = help_option :: version_option :: rest.
Proof.
  induction 1 as [| | |b nm descr config _ [rest IH]|]; simpl; try done.
  - by exists [].
  - exists (rest ++ [spread_config nm descr config])%list. by rewrite IH.
Qed.

(** X19.  On every builder that the methods make from [createCLI], whatever
    commands and global options were added, the single token [--help], or
    [-h], shows the help and calls no handler: the lookup finds the option
    of the constructor first, so that no later option with the same name or
    alias can take the flag. *)
Theorem help_flag_shows_help (b : Builder Handler) (node script : string) :
  built b →
  (parse prompts b [node; script; "--help"] ∅).1 = HelpShown
  ∧ (parse prompts b [node; script; "-h"] ∅).1 = HelpShown.
Proof.
  intros Hb. destruct (built_globalOptions b Hb) as [rest Hg].
  assert (Hone : ∀ token nm,
            OPTION_REGEX token = Some (nm, None) →
            find_by_name_or_alias (globalOptions b) nm = Some help_option →
            (parse prompts b [node; script; token] ∅).1 = HelpShown).
  { intros token nm Hre Hfind.
    pose proof (parse_single_flag node script token nm None
                  (globalOptions b) [] Hre) as Hparse.
    rewrite Hfind in Hparse.
    change (parseOptionValue (RawBool true) help_option)
      with (@Ok Value (VBool true)) in Hparse.
    change (name help_option) with "help" in Hparse.
    unfold parse. rewrite Hparse. cbn [options].
    rewrite lookup_insert_eq. reflexivity. }
  split.
  - apply (Hone "--help" "help"); [reflexivity|]. by rewrite Hg.
  - apply (Hone "-h" "h"); [reflexivity|]. by rewrite Hg.
Qed.
End Help.

Lemma help_flag_shows_help_witness :
  (ZoltraCLIBuilder.parse (λ _, None) cli_with_second_help
     ["node"; "cli"; "--help"] ∅).1
  = ZoltraCLIBuilder.HelpShown.
Proof.
  refine (proj1 (help_flag_shows_help (λ _, None) cli_with_second_help
                   "node" "cli" _)).
  apply ZoltraCLIBuilder.built_default_action,
    ZoltraCLIBuilder.built_add_option, ZoltraCLIBuilder.built_addCommand,
    ZoltraCLIBuilder.built_createCLI.
Defined.
